(** * Zoros: the Fiber lineage model, the fiber-card filter and the
      transcription stub

    A shallow embedding of
    - [source/challenges/visualization/o4-mini-high/fiber.js]
      (classes [Fiber], [WarpFiber], [WeftFiber]),
    - [filterFibers] of the [FiberCardViewer] component, and
    - [source/services/whisper/transcriptionService.ts],
    together with the properties the specification states about them.

    JavaScript strings are modelled as [string]; objects live in a store
    indexed by references, so that "returns the same Fiber" is a statement
    about references and not about equal copies. *)

From Stdlib Require Import Ascii String.
From stdpp Require Import base option list strings gmap pretty.
From Stdlib Require QArith Qcanon.

Local Open Scope string_scope.
Local Open Scope list_scope.

(* ===================================================================== *)
(** * Part I: definitions *)
(* ===================================================================== *)

(** ** The parts of the JavaScript string library the sources call *)

Module JsString.

(** [candidate = searchValue] of StringIndexOf, read off the front of
    the remaining text. *)
Fixpoint startsWith (s search : string) : bool :=
  match search, s with
  | "", _ => true
  | String _ _, "" => false
  | String c search', String d s' =>
      if decide (c = d) then startsWith s' search' else false
  end.

(** The loop of StringIndexOf: positions are tried in ascending order,
    [i] is the position of [rest] inside the whole string. *)
Fixpoint scanFrom (rest search : string) (i : nat) : option nat :=
  if startsWith rest search then Some i
  else match rest with
       | "" => None
       | String _ rest' => scanFrom rest' search (S i)
       end.

(** [s.indexOf(search)], [None] standing for -1. *)
Definition indexOf (s search : string) : option nat := scanFrom s search 0.

(** [s.includes(search)]. *)
Definition includes (s search : string) : bool :=
  match indexOf s search with
  | Some _ => true
  | None => false
  end.

(** Case folding on the ASCII range: what [toLowerCase] does to text
    made of ASCII characters. *)
Definition lowerChar (c : ascii) : ascii :=
  let n := Ascii.N_of_ascii c in
  if (65 <=? n)%N && (n <=? 90)%N then Ascii.ascii_of_N (n + 32) else c.

Fixpoint asciiLower (s : string) : string :=
  match s with
  | "" => ""
  | String c s' => String (lowerChar c) (asciiLower s')
  end.

Fixpoint isASCII (s : string) : bool :=
  match s with
  | "" => true
  | String c s' => (Ascii.N_of_ascii c <? 128)%N && isASCII s'
  end.

(** [a || b] on an optional string: [undefined], [null] and the empty
    string are falsy. *)
Definition orElse (a : option string) (b : string) : string :=
  match a with
  | Some (String c a') => String c a'
  | Some "" | None => b
  end.

End JsString.

(** ** Completions: a call returns normally or throws *)

Inductive JsError := TypeError.

Inductive Completion (A : Type) :=
  | Normal (a : A)
  | Throw (e : JsError).
Arguments Normal {A} a.
Arguments Throw {A} e.

Definition cbind {A B} (m : Completion A) (k : A -> Completion B) : Completion B :=
  match m with
  | Normal a => k a
  | Throw e => Throw e
  end.

(** [Array.prototype.filter]: the elements are visited in index order and
    the selected ones are pushed onto the result array [res]; a throwing
    callback aborts the loop. *)
Fixpoint Array_filter_loop {A} (callbackfn : A -> Completion bool)
    (O res : list A) : Completion (list A) :=
  match O with
  | [] => Normal res
  | kValue :: O' =>
      cbind (callbackfn kValue) (fun selected =>
        Array_filter_loop callbackfn O' (if selected then res ++ [kValue] else res))
  end.

Definition Array_filter {A} (callbackfn : A -> Completion bool) (O : list A)
  : Completion (list A) :=
  Array_filter_loop callbackfn O [].

(** ** The fiber-card viewer: [filterFibers] *)

Module Viewer.

(** The [Fiber] interface of the store hook.  The records are decoded
    from a fetched JSON document, so a text field may be missing at run
    time: [None] is [undefined]. *)
Record Fiber := {
  id : string;
  content : option string;
  tags : option string;
  created_at : string;
  source : string;
}.

Section WithToLowerCase.

(** [String.prototype.toLowerCase] is the engine's. *)
Variable toLowerCase : string -> string.

(** Reading a method off [undefined] throws. *)
Definition callToLowerCase (receiver : option string) : Completion string :=
  match receiver with
  | Some s => Normal (toLowerCase s)
  | None => Throw TypeError
  end.

(** The arrow function handed to [list.filter]; the right operand of
    [||] is evaluated only when the left one is false. *)
Definition predicate (q : string) (f : Fiber) : Completion bool :=
  cbind (callToLowerCase (content f)) (fun c =>
    if JsString.includes c q then Normal true
    else Normal (JsString.includes (toLowerCase (JsString.orElse (tags f) "")) q)).

Definition filterFibers (list : list Fiber) (query : string)
  : Completion (Datatypes.list Fiber) :=
  let q := toLowerCase query in
  Array_filter (predicate q) list.

End WithToLowerCase.

End Viewer.

(** ** [JSON.stringify] on the values the lineage export is made of *)

Module Json.

(** [Number.MAX_SAFE_INTEGER], 2^53 - 1, and [Number.isSafeInteger] on
    an integer. *)
Definition MAX_SAFE_INTEGER : Z := 9007199254740991.

Definition isSafeInteger (n : Z) : bool :=
  (- MAX_SAFE_INTEGER <=? n)%Z && (n <=? MAX_SAFE_INTEGER)%Z.

(** The Numbers a payload can hold here: the values that are not finite,
    negative zero, and the safe integers ([Integer 0] is positive zero).
    Fractions and integers beyond the safe range are not covered. *)
Inductive Number :=
  | NaN
  | Infinity
  | NegInfinity
  | NegZero
  | Integer (n : Z) (safe : Is_true (isSafeInteger n)).

Definition isFinite (x : Number) : bool :=
  match x with
  | NaN | Infinity | NegInfinity => false
  | NegZero | Integer _ _ => true
  end.

(** Number::toString with radix 10.  A safe integer has at most sixteen
    digits and is printed in plain decimal notation, with a minus sign
    when negative; both zeros print as [0]. *)
Definition Number_toString (x : Number) : string :=
  match x with
  | NaN => "NaN"
  | Infinity => "Infinity"
  | NegInfinity => "-Infinity"
  | NegZero => "0"
  | Integer n _ => pretty n
  end.

(** JavaScript values made of null, booleans, the Numbers above, strings,
    arrays and plain objects; the pairs of [Obj] are the object's own
    enumerable properties in enumeration order. *)
#[warnings="-register-all"]
Inductive value :=
  | Null
  | Bool (b : bool)
  | Num (x : Number)
  | Str (s : string)
  | Arr (items : list value)
  | Obj (props : list (string * value)).

Definition LF : string := String (Ascii.ascii_of_N 10) "".
Definition DQUOTE : string := String (Ascii.ascii_of_N 34) "".

Definition hexDigit (n : N) : string :=
  String (Ascii.ascii_of_N (if (n <? 10)%N then 48 + n else 87 + n)) "".

Definition BACKSLASH : string := String (Ascii.ascii_of_N 92) "".

(** [\uXXXX] with lowercase hexadecimal digits. *)
Definition UnicodeEscape (n : N) : string :=
  BACKSLASH +:+ "u"
    +:+ hexDigit (n / 4096 mod 16) +:+ hexDigit (n / 256 mod 16)
    +:+ hexDigit (n / 16 mod 16) +:+ hexDigit (n mod 16).

(** One code unit of QuoteJSONString: the two-character escapes of the
    specification's table, a Unicode escape for the other control
    characters, the character itself otherwise. *)
Definition quoteChar (c : ascii) : string :=
  let n := Ascii.N_of_ascii c in
  if (n =? 8)%N then BACKSLASH +:+ "b"
  else if (n =? 9)%N then BACKSLASH +:+ "t"
  else if (n =? 10)%N then BACKSLASH +:+ "n"
  else if (n =? 12)%N then BACKSLASH +:+ "f"
  else if (n =? 13)%N then BACKSLASH +:+ "r"
  else if (n =? 34)%N then BACKSLASH +:+ DQUOTE
  else if (n =? 92)%N then BACKSLASH +:+ BACKSLASH
  else if (n <? 32)%N then UnicodeEscape n
  else String c "".

Fixpoint quoteChars (s : string) : string :=
  match s with
  | "" => ""
  | String c s' => quoteChar c +:+ quoteChars s'
  end.

Definition QuoteJSONString (s : string) : string :=
  DQUOTE +:+ quoteChars s +:+ DQUOTE.

(** Joining the serialised members or elements with a separator. *)
Fixpoint join (sep : string) (partial : list string) : string :=
  match partial with
  | [] => ""
  | [x] => x
  | x :: rest => x +:+ sep +:+ join sep rest
  end.

(** The closing steps shared by SerializeJSONObject and
    SerializeJSONArray; [stepback] is the indentation on entry and
    [indent] is [stepback] followed by [gap]. *)
Definition wrap (opening closing gap stepback indent : string)
    (partial : list string) : string :=
  match partial with
  | [] => opening +:+ closing
  | _ :: _ =>
      if decide (gap = "") then opening +:+ join "," partial +:+ closing
      else opening +:+ LF +:+ indent
             +:+ join ("," +:+ LF +:+ indent) partial
             +:+ LF +:+ stepback +:+ closing
  end.

Definition member (gap key strP : string) : string :=
  QuoteJSONString key +:+ ":" +:+ (if decide (gap = "") then "" else " ") +:+ strP.

Fixpoint SerializeJSONProperty (gap indent : string) (v : value) : string :=
  match v with
  | Null => "null"
  | Bool true => "true"
  | Bool false => "false"
  | Num x => if isFinite x then Number_toString x else "null"
  | Str s => QuoteJSONString s
  | Arr items =>
      wrap "[" "]" gap indent (indent +:+ gap)
        (map (SerializeJSONProperty gap (indent +:+ gap)) items)
  | Obj props =>
      wrap "{" "}" gap indent (indent +:+ gap)
        (map (fun kv => member gap (fst kv)
                          (SerializeJSONProperty gap (indent +:+ gap) (snd kv)))
             props)
  end.

Fixpoint spaces (n : nat) : string :=
  match n with
  | O => ""
  | S n' => " " +:+ spaces n'
  end.

(** [JSON.stringify(v, null, space)] for a numeric [space]: the gap is
    that many blanks, at most ten. *)
Definition stringify (v : value) (space : nat) : string :=
  SerializeJSONProperty (spaces (Nat.min 10 space)) "" v.

End Json.

(** ** fiber.js: the classes [Fiber], [WarpFiber] and [WeftFiber] *)

Module FiberJs.

Inductive Class := Fiber | WarpFiber | WeftFiber.

(** [class WarpFiber extends Fiber], [class WeftFiber extends Fiber]. *)
Definition extends (C : Class) : option Class :=
  match C with
  | Fiber => None
  | WarpFiber | WeftFiber => Some Fiber
  end.

Inductive Member := m_constructor | m_transform | m_addMarker | m_exportLineage.

(** The members a class body declares itself: all four in [Fiber], none
    in the two empty bodies. *)
Definition declares (C : Class) (m : Member) : bool :=
  match C with
  | Fiber => true
  | WarpFiber | WeftFiber => false
  end.

(** Lookup along the prototype chain: the nearest class, from [C]
    upwards, that declares [m]. *)
Fixpoint lookupFrom (depth : nat) (C : Class) (m : Member) : option Class :=
  if declares C m then Some C
  else match depth, extends C with
       | S depth', Some D => lookupFrom depth' D m
       | _, _ => None
       end.

Definition resolve (C : Class) (m : Member) : option Class := lookupFrom 1 C m.

(** An element of [history].  [context] is [None] when the object has no
    such property (the entry the constructor writes). *)
Module Entry.
Record t := Build {
  stage : string;
  color : string;
  context : option Json.value;
}.
End Entry.

(** A Fiber object: its class and its four own properties.  The two
    arrays are owned by the object and only ever reached through it. *)
Record Object := {
  proto : Class;
  id : string;
  color : string;
  history : list Entry.t;
  markers : list string;
}.

(** Object references and the store they point into. *)
Definition ref := positive.
Abbreviation Store := (gmap ref Object).

(** Computations over the store; [None] is reserved for a dangling
    reference or a missing method, which no call below produces for an
    allocated Fiber. *)
Definition M (A : Type) : Type := Store -> option (A * Store).

Definition ret {A} (a : A) : M A := fun st => Some (a, st).

Definition bind {A B} (m : M A) (k : A -> M B) : M B :=
  fun st => match m st with
            | Some (a, st') => k a st'
            | None => None
            end.

Definition fail {A} : M A := fun _ => None.

Definition get (this : ref) : M Object :=
  fun st => match st !! this with
            | Some o => Some (o, st)
            | None => None
            end.

Definition update (this : ref) (f : Object -> Object) : M unit :=
  fun st => match st !! this with
            | Some o => Some (tt, <[this := f o]> st)
            | None => None
            end.

Definition alloc (o : Object) : M ref :=
  fun st => let r := fresh (dom st) in Some (r, <[r := o]> st).

#[global] Instance M_ret : MRet M := @ret.
#[global] Instance M_bind : MBind M := fun A B k m => bind m k.

(** *** The body of [class Fiber] *)

(** [constructor(id, colorStart = 'gold')], run on the object that
    [new C(...)] creates for class [C]; an omitted [colorStart] is
    [None]. *)
Definition constructor (C : Class) (id : string) (colorStart : option string)
  : M ref :=
  let colorStart := default "gold" colorStart in
  alloc {| proto := C;
           id := id;
           color := colorStart;
           history := [Entry.Build "start" colorStart None];
           markers := [] |}.

Definition set_color (color' : string) (o : Object) : Object :=
  {| proto := proto o; id := id o; color := color';
     history := history o; markers := markers o |}.

Definition push_history (e : Entry.t) (o : Object) : Object :=
  {| proto := proto o; id := id o; color := color o;
     history := history o ++ [e]; markers := markers o |}.

Definition push_marker (m : string) (o : Object) : Object :=
  {| proto := proto o; id := id o; color := color o;
     history := history o; markers := markers o ++ [m] |}.

(** [transform(type, color, context = null)]; an omitted [context] is
    [None]. *)
Definition transform (this : ref) (type color : string)
    (context : option Json.value) : M ref :=
  let context := default Json.Null context in
  _ ← update this (set_color color);
  _ ← update this (push_history (Entry.Build type color (Some context)));
  ret this.

(** [addMarker(markerType)]. *)
Definition addMarker (this : ref) (markerType : string) : M ref :=
  _ ← update this (push_marker markerType);
  ret this.

(** The object literal [{ stage, color, context }] or [{ stage, color }]
    as [JSON.stringify] sees it. *)
Definition entryValue (e : Entry.t) : Json.value :=
  Json.Obj ([("stage", Json.Str (Entry.stage e));
             ("color", Json.Str (Entry.color e))]
            ++ match Entry.context e with
               | Some c => [("context", c)]
               | None => []
               end).

(** [{ id: this.id, history: this.history, markers: this.markers }]. *)
Definition lineageValue (o : Object) : Json.value :=
  Json.Obj [("id", Json.Str (id o));
            ("history", Json.Arr (map entryValue (history o)));
            ("markers", Json.Arr (map Json.Str (markers o)))].

(** [exportLineage()]. *)
Definition exportLineage (this : ref) : M string :=
  o ← get this;
  ret (Json.stringify (lineageValue o) 2).

(** *** Calls on a Fiber of any of the three classes *)

(** [new C(id, colorStart)]: the constructor found from [C]; a class
    without one of its own passes its arguments on to its parent's. *)
Definition new (C : Class) (id : string) (colorStart : option string) : M ref :=
  match resolve C m_constructor with
  | Some Fiber => constructor C id colorStart
  | Some WarpFiber | Some WeftFiber | None => fail
  end.

Inductive Call :=
  | CallTransform (type color : string) (context : option Json.value)
  | CallAddMarker (markerType : string)
  | CallExportLineage.

(** What a call evaluates to: the receiver again, or the exported text. *)
Inductive Result :=
  | RRef (r : ref)
  | RText (s : string).

Definition memberOf (c : Call) : Member :=
  match c with
  | CallTransform _ _ _ => m_transform
  | CallAddMarker _ => m_addMarker
  | CallExportLineage => m_exportLineage
  end.

(** The method bodies of each class; the two subclasses have none. *)
Definition body (D : Class) (this : ref) (c : Call) : M Result :=
  match D with
  | Fiber =>
      match c with
      | CallTransform type color context =>
          r ← transform this type color context; ret (RRef r)
      | CallAddMarker markerType =>
          r ← addMarker this markerType; ret (RRef r)
      | CallExportLineage =>
          s ← exportLineage this; ret (RText s)
      end
  | WarpFiber | WeftFiber => fail
  end.

(** [this.m(...)]: the method is looked up from the receiver's class. *)
Definition invoke (this : ref) (c : Call) : M Result :=
  o ← get this;
  match resolve (proto o) (memberOf c) with
  | Some D => body D this c
  | None => fail
  end.

(** A script: calls on one receiver, one after the other, collecting
    what each evaluates to. *)
Fixpoint invokeAll (this : ref) (cs : list Call) : M (list Result) :=
  match cs with
  | [] => ret []
  | c :: cs' =>
      r ← invoke this c;
      rs ← invokeAll this cs';
      ret (r :: rs)
  end.

(** [const f = new C(id, colorStart); f.m1(...); ...; f.mn(...)]. *)
Definition script (C : Class) (id : string) (colorStart : option string)
    (cs : list Call) : M (ref * list Result) :=
  this ← new C id colorStart;
  rs ← invokeAll this cs;
  ret (this, rs).

(** The Fiber a script leaves behind. *)
Definition objectAfter (C : Class) (id : string) (colorStart : option string)
    (cs : list Call) (st : Store) : option Object :=
  match script C id colorStart cs st with
  | Some ((this, _), st') => st' !! this
  | None => None
  end.

End FiberJs.

(** ** services/whisper: the transcription service *)

Module Whisper.

(** [type AudioFormat = 'wav' | 'mp3' | 'ogg'] *)
Inductive AudioFormat := wav | mp3 | ogg.

Definition formatText (format : AudioFormat) : string :=
  match format with
  | wav => "wav"
  | mp3 => "mp3"
  | ogg => "ogg"
  end.

Record TranscriptionSegment := {
  start : Z;
  end_ : Z;
}.

Record TranscriptionResult := {
  text : string;
  confidence : Z;
  timestamps : list TranscriptionSegment;
}.

(** An [ArrayBuffer] or a file's content, and its [byteLength]. *)
Definition Buffer := list Byte.byte.
Definition byteLength (b : Buffer) : N := N.of_nat (length b).

(** A settled promise. *)
Inductive IoError := ENOENT.
Inductive Promise (A : Type) :=
  | Fulfilled (a : A)
  | Rejected (reason : IoError).
Arguments Fulfilled {A} a.
Arguments Rejected {A} reason.

Definition fakeTranscription (dataLen : N) : TranscriptionResult :=
  {| text := "transcribed " +:+ pretty dataLen +:+ " bytes";
     confidence := 1;
     timestamps := [] |}.

(** [fs.readFile] reads from a file system mapping paths to contents
    and rejects on a path that is not there. *)
Definition transcribeAudioFile (fs : gmap string Buffer) (filePath : string)
  : Promise TranscriptionResult :=
  match fs !! filePath with
  | Some buf => Fulfilled (fakeTranscription (byteLength buf))
  | None => Rejected ENOENT
  end.

Definition transcribeRawAudio (buffer : Buffer) (format : AudioFormat)
  : Promise TranscriptionResult :=
  let len := (byteLength buffer + N.of_nat (String.length (formatText format)))%N in
  Fulfilled (fakeTranscription len).

(** The intake helper: [requestTranscription(blob)] passes the blob's
    bytes on as ['wav']. *)
Definition requestTranscription (blob : Buffer) : Promise TranscriptionResult :=
  transcribeRawAudio blob wav.

End Whisper.

(** ** Arrays: [splice] and assignment past the end *)

(** [arr.splice(start, deleteCount, ...items)] with non-negative integer
    [start] and [deleteCount]: both are clamped to the array, the removed
    elements are returned and [items] take their place. *)
Definition Array_splice {A} (arr : list A) (start deleteCount : nat)
    (items : list A) : list A * list A :=
  let len := length arr in
  let actualStart := Nat.min start len in
  let actualDeleteCount := Nat.min deleteCount (len - actualStart) in
  (take actualDeleteCount (drop actualStart arr),
   take actualStart arr ++ items ++ drop (actualStart + actualDeleteCount) arr).

(** [arr[i] = v] on an array whose elements may be holes ([None]):
    assigning at or past the end extends the array, leaving holes in
    between. *)
Definition Array_set {A} (arr : list (option A)) (i : nat) (v : A)
  : list (option A) :=
  if decide (i < length arr) then <[i := Some v]> arr
  else arr ++ replicate (i - length arr) None ++ [Some v].

(** ** The fiber-card viewer: dropping a dragged card *)

Module ViewerDrop.

(** What the component holds when a card is dropped.  An element of
    [fibers] is [None] when it is [undefined]. *)
Record State := {
  fibers : list (option Viewer.Fiber);
  dragIndex : option nat;
  selectedThread : option string;
}.

(** The [PATCH] sent to [/api/threads/<thread>/reorder]. *)
Record Request := {
  url : string;
  order : list string;
}.

(** [const [moved] = newOrder.splice(dragIndex, 1); newOrder.splice(idx, 0, moved)]
    on a copy of the list; [moved] is [undefined] when nothing was
    removed. *)
Definition reorder {A} (fibers : list (option A)) (dragIndex idx : nat)
  : list (option A) :=
  let newOrder := fibers in
  let '(removed, newOrder) := Array_splice newOrder dragIndex 1 [] in
  let moved := mjoin (head removed) in
  snd (Array_splice newOrder idx 0 [moved]).

(** [f.id] for each element; reading [id] off [undefined] throws. *)
Fixpoint ids (l : list (option Viewer.Fiber)) : Completion (list string) :=
  match l with
  | [] => Normal []
  | None :: _ => Throw TypeError
  | Some f :: l' => cbind (ids l') (fun r => Normal (Viewer.id f :: r))
  end.

(** A string is truthy when it is there and not empty. *)
Definition truthy (s : option string) : bool :=
  match s with
  | Some (String _ _) => true
  | Some "" | None => false
  end.

(** [onDragStart] of the card at position [i]: [setDragIndex(i)]. *)
Definition onDragStart (i : nat) (s : State) : State :=
  {| fibers := fibers s; dragIndex := Some i; selectedThread := selectedThread s |}.

(** [onDrop(idx)]: the state after the handler's updates, and the request
    it sends, if any. *)
Definition onDrop (idx : nat) (s : State) : State * Completion (option Request) :=
  match dragIndex s with
  | None => (s, Normal None)
  | Some d =>
      if decide (d = idx) then (s, Normal None)
      else
        let newOrder := reorder (fibers s) d idx in
        let s' := {| fibers := newOrder; dragIndex := None;
                     selectedThread := selectedThread s |} in
        if truthy (selectedThread s) then
          (s', cbind (ids newOrder) (fun o =>
                 Normal (Some {| url := "/api/threads/"
                                        +:+ default "" (selectedThread s)
                                        +:+ "/reorder";
                                 order := o |})))
        else (s', Normal None)
  end.

End ViewerDrop.

(** ** The fiber card: the tag chips *)

Module FiberCard.

(** The character class [[,\s]] of the split pattern, on the code units a
    [string] holds: the comma, the ASCII white space characters and the
    no-break space. *)
Definition isSeparator (c : ascii) : bool :=
  let n := Ascii.N_of_ascii c in
  (n =? 44)%N || ((9 <=? n)%N && (n <=? 13)%N) || (n =? 32)%N || (n =? 160)%N.

(** [s.split(/[class]+/)]: the text is cut at every maximal run of class
    characters.  [piece] is the piece being read and [inMatch] tells that
    the previous character belonged to a run, which the current class
    character then only prolongs. *)
Fixpoint splitLoop (isSep : ascii -> bool) (s piece : string) (inMatch : bool)
  : list string :=
  match s with
  | "" => [piece]
  | String c s' =>
      if isSep c then
        if inMatch then splitLoop isSep s' "" true
        else piece :: splitLoop isSep s' "" true
      else splitLoop isSep s' (piece +:+ String c "") false
  end.

Definition split (isSep : ascii -> bool) (s : string) : list string :=
  splitLoop isSep s "" false.

(** A string used as a condition. *)
Definition nonEmpty (t : string) : bool :=
  match t with
  | "" => false
  | String _ _ => true
  end.

(** [fiber.tags ? fiber.tags.split(/[,\s]+/).filter((t) => t) : []] *)
Definition tags (fiber : Viewer.Fiber) : Completion (list string) :=
  match Viewer.tags fiber with
  | Some (String c t) =>
      Array_filter (fun t => Normal (nonEmpty t)) (split isSeparator (String c t))
  | Some "" | None => Normal []
  end.

End FiberCard.

(** ** The intake store and the record button *)

Module Intake.

Inductive Status := s_idle | s_pending | s_fulfilled | s_error.

Record TranscriptionState := {
  text : string;
  confidence : Z;
  timestamps : list Whisper.TranscriptionSegment;
  status : Status;
  error : option string;
}.

Inductive Mode := push_to_talk | wake_word.

(** The state the store provider holds; a dropped file is modelled by its
    name. *)
Record ZorosState := {
  isRecording : bool;
  transcriptionMode : Mode;
  currentText : string;
  droppedFiles : list string;
  transcription : TranscriptionState;
}.

(** The state the provider starts with. *)
Definition initialState : ZorosState :=
  {| isRecording := false;
     transcriptionMode := push_to_talk;
     currentText := "";
     droppedFiles := [];
     transcription := {| text := ""; confidence := 0; timestamps := [];
                         status := s_idle; error := None |} |}.

Definition set_transcription (f : TranscriptionState -> TranscriptionState)
    (s : ZorosState) : ZorosState :=
  {| isRecording := isRecording s;
     transcriptionMode := transcriptionMode s;
     currentText := currentText s;
     droppedFiles := droppedFiles s;
     transcription := f (transcription s) |}.

(** [setRecording((r) => !r)] *)
Definition toggleRecording (s : ZorosState) : ZorosState :=
  {| isRecording := negb (isRecording s);
     transcriptionMode := transcriptionMode s;
     currentText := currentText s;
     droppedFiles := droppedFiles s;
     transcription := transcription s |}.

(** [setTranscription((t) => ({ ...t, status: 'pending', error: undefined }))] *)
Definition setTranscriptionPending : ZorosState -> ZorosState :=
  set_transcription (fun t =>
    {| text := text t; confidence := confidence t; timestamps := timestamps t;
       status := s_pending; error := None |}).

(** [setTranscription({ ...r, status: 'fulfilled', error: undefined })] *)
Definition setTranscriptionResult (r : TranscriptionState)
  : ZorosState -> ZorosState :=
  set_transcription (fun _ =>
    {| text := text r; confidence := confidence r; timestamps := timestamps r;
       status := s_fulfilled; error := None |}).

(** [setTranscription((t) => ({ ...t, status: 'error', error: msg }))] *)
Definition setTranscriptionError (msg : string) : ZorosState -> ZorosState :=
  set_transcription (fun t =>
    {| text := text t; confidence := confidence t; timestamps := timestamps t;
       status := s_error; error := Some msg |}).

(** [{ ...result, status: 'fulfilled' }] *)
Definition fulfilledWith (result : Whisper.TranscriptionResult) : TranscriptionState :=
  {| text := Whisper.text result;
     confidence := Whisper.confidence result;
     timestamps := Whisper.timestamps result;
     status := s_fulfilled;
     error := None |}.

Section WithErrorMessages.

(** [(err as Error).message] *)
Variable message : Whisper.IoError -> string.

(** [stopRecording()] of the recorder hook: the store while the request
    is pending, and the store once the promise has settled.  The blob is
    [new Blob()], which has no bytes. *)
Definition stopRecording (s : ZorosState) : ZorosState * ZorosState :=
  let dummy : Whisper.Buffer := [] in
  let s1 := setTranscriptionPending s in
  (s1,
   match Whisper.requestTranscription dummy with
   | Whisper.Fulfilled result => setTranscriptionResult (fulfilledWith result) s1
   | Whisper.Rejected err => setTranscriptionError (message err) s1
   end).

(** [handleClick] of the record button, once everything it started has
    settled: the recording flag is toggled, and a click made while
    recording stops the recorder. *)
Definition handleClick (s : ZorosState) : ZorosState :=
  let s' := toggleRecording s in
  if negb (isRecording s) then s' else snd (stopRecording s').

End WithErrorMessages.

End Intake.

(** ** weave.js and spinner.js: the users of [Fiber] *)

Module WeaveJs.

Import FiberJs.

(** Loops [for (let i = start; i < start + count; i++) body] over a loop
    state, without and with the Fiber store. *)
Fixpoint forLoop {T} (i count : nat) (body : nat -> T -> T) (s : T) : T :=
  match count with
  | O => s
  | S count' => forLoop (S i) count' body (body i s)
  end.

Fixpoint forM {T} (i count : nat) (body : nat -> T -> M T) (s : T) : M T :=
  match count with
  | O => mret s
  | S count' => s' ← body i s; forM (S i) count' body s'
  end.

(** [arr.map(f)] for an [f] that works on the store. *)
Fixpoint Array_mapM {A B} (f : A -> M B) (l : list A) : M (list B) :=
  match l with
  | [] => mret []
  | x :: l' => y ← f x; ys ← Array_mapM f l'; mret (y :: ys)
  end.

(** Reading [arr[i]]: a hole and an index past the end both read as
    [undefined]. *)
Definition Array_get {A} (arr : list (option A)) (i : nat) : option A :=
  mjoin (arr !! i).

(** [fiber.transform(type, color)], a method call that evaluates to a
    Fiber reference. *)
Definition asRef (r : Result) : M ref :=
  match r with
  | RRef x => mret x
  | RText _ => fail
  end.

Definition callTransform (this : ref) (type color : string) : M ref :=
  r ← invoke this (CallTransform type color None); asRef r.

(** [Spinner.spin(fiber)] *)
Definition spin (fiber : ref) : M ref :=
  _ ← callTransform fiber "spin" "lightgreen";
  mret fiber.

(** A cell of the pattern matrix: [false] ([None]) or a letter. *)
Abbreviation Matrix := (list (list (option ascii))).

Record Weave := {
  cols : nat;
  rows : nat;
  cell : Qcanon.Qc;
  warp : list (option ref);
  weftPasses : list (list ref);
  pattern : option Matrix;
}.

(** [constructor(cols = 20, rows = 12, cell = 40)] *)
Definition Weave_new (cols rows : option nat) (cell : option Qcanon.Qc) : Weave :=
  {| cols := default 20 cols;
     rows := default 12 rows;
     cell := default (Qcanon.Q2Qc (QArith_base.inject_Z 40)) cell;
     warp := [];
     weftPasses := [];
     pattern := None |}.

Definition set_warp (warp' : list (option ref)) (w : Weave) : Weave :=
  {| cols := cols w; rows := rows w; cell := cell w; warp := warp';
     weftPasses := weftPasses w; pattern := pattern w |}.

Definition push_weftPass (pass : list ref) (w : Weave) : Weave :=
  {| cols := cols w; rows := rows w; cell := cell w; warp := warp w;
     weftPasses := weftPasses w ++ [pass]; pattern := pattern w |}.

Definition set_pattern (m : Matrix) (w : Weave) : Weave :=
  {| cols := cols w; rows := rows w; cell := cell w; warp := warp w;
     weftPasses := weftPasses w; pattern := Some m |}.

(** [addWarpFiber(fiber, slot)] *)
Definition addWarpFiber (this : Weave) (fiber : ref) (slot : nat) : M Weave :=
  r ← callTransform fiber "warp" "springgreen";
  mret (set_warp (Array_set (warp this) slot r) this).

(** [addWeftPass(fibers)] *)
Definition addWeftPass (this : Weave) (fibers : list ref) : M Weave :=
  pass ← Array_mapM (fun f => callTransform f "weft" "darkgreen") fibers;
  mret (push_weftPass pass this).

(** ['WEAVING WHAT MATTERS'.split('')] *)
Definition tagline : list ascii := list_ascii_of_string "WEAVING WHAT MATTERS".

(** The variables of the two loops of [generatePatternMatrix]: the
    matrix, [idx], and the state of the source of random numbers, which
    is the number of [Math.random()] calls made so far. *)
Record PatternState := {
  matrix : Matrix;
  idx : nat;
  calls : nat;
}.

(** [matrix[r][c] = v], for a cell inside the matrix. *)
Definition setCell (m : Matrix) (r c : nat) (v : ascii) : Matrix :=
  match m !! r with
  | Some row => <[r := <[c := Some v]> row]> m
  | None => m
  end.

(** The body of the inner loop.  [random k] tells whether the [k]-th
    call of [Math.random()] came out below 0.05; the call is only made
    while letters are left ([idx < text.length], that is, [text[idx]]
    exists). *)
Definition patternCell (random : nat -> bool) (r c : nat) (s : PatternState)
  : PatternState :=
  match tagline !! idx s with
  | Some letter =>
      if random (calls s)
      then {| matrix := setCell (matrix s) r c letter;
              idx := S (idx s);
              calls := S (calls s) |}
      else {| matrix := matrix s; idx := idx s; calls := S (calls s) |}
  | None => s
  end.

Definition patternLoops (random : nat -> bool) (rows cols : nat) : PatternState :=
  forLoop 0 rows
    (fun r s => forLoop 0 cols (fun c s => patternCell random r c s) s)
    {| matrix := replicate rows (replicate cols None); idx := 0; calls := 0 |}.

(** [generatePatternMatrix()]: the weave with its pattern set, the
    matrix returned, and the number of [Math.random()] calls the run
    has made. *)
Definition generatePatternMatrix (this : Weave) (random : nat -> bool)
  : Weave * Matrix * nat :=
  let s := patternLoops random (rows this) (cols this) in
  (set_pattern (matrix s) this, matrix s, calls s).

(** The stroke colours [draw] uses: [this.warp[i]?.color || '#004d00']
    for warp line [i], [pass[0]?.color || '#002200'] for a weft pass. *)
Definition colorOr (st : Store) (r : option ref) (fallback : string) : string :=
  match r with
  | Some r' =>
      match st !! r' with
      | Some o => JsString.orElse (Some (color o)) fallback
      | None => fallback
      end
  | None => fallback
  end.

Definition warpStroke (this : Weave) (st : Store) (i : nat) : string :=
  colorOr st (Array_get (warp this) i) "#004d00".

Definition weftStroke (st : Store) (pass : list ref) : string :=
  colorOr st (pass !! 0) "#002200".

(** The set-up of the main script: ten fibers [f0] .. [f9], one warp
    fiber per column, and one weft pass of [cols] fibers per row. *)
Definition main_fibers : M (list ref) :=
  forM 0 10
    (fun i fibers => f ← new Fiber ("f" +:+ pretty i) None; mret (fibers ++ [f]))
    [].

Definition main_warp (weave : Weave) : M Weave :=
  forM 0 (cols weave)
    (fun i weave =>
       f ← new WarpFiber ("w" +:+ pretty i) (Some "springgreen");
       addWarpFiber weave f i)
    weave.

Definition main_pass (weave : Weave) (p : nat) : M (list ref) :=
  forM 0 (cols weave)
    (fun j pass =>
       f ← new WeftFiber ("p" +:+ pretty p +:+ "-" +:+ pretty j) None;
       mret (pass ++ [f]))
    [].

Definition main_weft (weave : Weave) : M Weave :=
  forM 0 (rows weave)
    (fun p weave => pass ← main_pass weave p; addWeftPass weave pass)
    weave.

(** The export button: [fibers.map(f => f.exportLineage())]. *)
Definition exportAll (fibers : list ref) : M (list string) :=
  Array_mapM exportLineage fibers.

End WeaveJs.


(** ** Notions the properties are stated with *)

(** [t] occurs in [s] as a contiguous run of characters. *)
Definition Substring (t s : string) : Prop :=
  exists pre post, s = pre +:+ t +:+ post.

(** A content unit exposing both text fields. *)
Definition exposesText (f : Viewer.Fiber) : Prop :=
  is_Some (Viewer.content f) /\ is_Some (Viewer.tags f).

(** What the filter relies on from [toLowerCase]: on ASCII text it is the
    ASCII case folding, and it never maps a non-empty string to the empty
    one. *)
Record ToLowerCaseLaws (toLowerCase : string -> string) : Prop := {
  toLowerCase_ASCII :
    forall s, JsString.isASCII s = true -> toLowerCase s = JsString.asciiLower s;
  toLowerCase_nonempty :
    forall s, s <> "" -> toLowerCase s <> "";
}.

(** The matching rule in the specification's words: the lowercased query
    is a substring of the lowercased [content] or of the lowercased
    [tags]. *)
Definition matchesQuery (toLowerCase : string -> string) (q : string)
    (f : Viewer.Fiber) : Prop :=
  (exists c, Viewer.content f = Some c /\
             Substring (toLowerCase q) (toLowerCase c)) \/
  (exists t, Viewer.tags f = Some t /\
             Substring (toLowerCase q) (toLowerCase t)).

Definition matchesQueryb (toLowerCase : string -> string) (q : string)
    (f : Viewer.Fiber) : bool :=
  match Viewer.content f with
  | Some c => JsString.includes (toLowerCase c) (toLowerCase q)
  | None => false
  end
  || match Viewer.tags f with
     | Some t => JsString.includes (toLowerCase t) (toLowerCase q)
     | None => false
     end.

(** The two units of the component's test. *)
Definition helloWorld : Viewer.Fiber :=
  {| Viewer.id := "1"; Viewer.content := Some "hello world";
     Viewer.tags := Some "foo"; Viewer.created_at := ""; Viewer.source := "" |}.

Definition anotherNote : Viewer.Fiber :=
  {| Viewer.id := "2"; Viewer.content := Some "another note";
     Viewer.tags := Some "bar"; Viewer.created_at := ""; Viewer.source := "" |}.

Definition data : list Viewer.Fiber := [helloWorld; anotherNote].

Definition withTags (t : option string) (f : Viewer.Fiber) : Viewer.Fiber :=
  {| Viewer.id := Viewer.id f; Viewer.content := Viewer.content f;
     Viewer.tags := t; Viewer.created_at := Viewer.created_at f;
     Viewer.source := Viewer.source f |}.

(** The number of [transform] calls in a script. *)
Fixpoint transforms (cs : list FiberJs.Call) : nat :=
  match cs with
  | [] => 0
  | FiberJs.CallTransform _ _ _ :: cs' => S (transforms cs')
  | _ :: cs' => transforms cs'
  end.

(** The observable state of a Fiber: everything but its class. *)
Definition stateOf (o : FiberJs.Object)
  : string * string * list FiberJs.Entry.t * list string :=
  (FiberJs.id o, FiberJs.color o, FiberJs.history o, FiberJs.markers o).

(** The object a call leaves in the receiver's place, and what the call
    evaluates to ([invoke_run] below relates both to [FiberJs.invoke]). *)
Definition effect (c : FiberJs.Call) (o : FiberJs.Object) : FiberJs.Object :=
  match c with
  | FiberJs.CallTransform type color context =>
      FiberJs.push_history
        (FiberJs.Entry.Build type color (Some (default Json.Null context)))
        (FiberJs.set_color color o)
  | FiberJs.CallAddMarker markerType => FiberJs.push_marker markerType o
  | FiberJs.CallExportLineage => o
  end.

Definition resultOf (this : FiberJs.ref) (c : FiberJs.Call) (o : FiberJs.Object)
  : FiberJs.Result :=
  match c with
  | FiberJs.CallTransform _ _ _ | FiberJs.CallAddMarker _ => FiberJs.RRef this
  | FiberJs.CallExportLineage =>
      FiberJs.RText (Json.stringify (FiberJs.lineageValue o) 2)
  end.

Fixpoint effects (cs : list FiberJs.Call) (o : FiberJs.Object) : FiberJs.Object :=
  match cs with
  | [] => o
  | c :: cs' => effects cs' (effect c o)
  end.

Fixpoint resultsOf (this : FiberJs.ref) (cs : list FiberJs.Call)
    (o : FiberJs.Object) : list FiberJs.Result :=
  match cs with
  | [] => []
  | c :: cs' => resultOf this c o :: resultsOf this cs' (effect c o)
  end.

(** The object [new C(id, colorStart)] creates. *)
Definition initial (C : FiberJs.Class) (id : string) (colorStart : option string)
  : FiberJs.Object :=
  {| FiberJs.proto := C;
     FiberJs.id := id;
     FiberJs.color := default "gold" colorStart;
     FiberJs.history :=
       [FiberJs.Entry.Build "start" (default "gold" colorStart) None];
     FiberJs.markers := [] |}.

(** [stage_tag] is the label of the last history entry. *)
Definition tagIsLastLabel (o : FiberJs.Object) : Prop :=
  FiberJs.Entry.color <$> last (FiberJs.history o) = Some (FiberJs.color o).

(** A store holding one plain Fiber, as [new Fiber('f0')] leaves it. *)
Definition f0 : FiberJs.Object := initial FiberJs.Fiber "f0" None.
Definition oneFiber : FiberJs.Store := {[ 1%positive := f0 ]}.

(** The result the specification describes for [n] bytes of audio. *)
Definition resultFor (n : N) : Whisper.TranscriptionResult :=
  {| Whisper.text := "transcribed " +:+ pretty n +:+ " bytes";
     Whisper.confidence := 1;
     Whisper.timestamps := [] |}.

(** The buffer of the service's test, [new ArrayBuffer(4)]. *)
Definition fourBytes : Whisper.Buffer := replicate 4 Byte.x00.

(** A file system with one four-byte file. *)
Definition oneFile : gmap string Whisper.Buffer := {[ "clip.wav" := fourBytes ]}.

(** ** Notions for reading a serialised text back *)

(** The characters a serialised number is made of: the minus sign and
    the decimal digits. *)
Definition numChar (c : ascii) : bool :=
  let n := Ascii.N_of_ascii c in
  (n =? 45)%N || ((48 <=? n)%N && (n <=? 57)%N).

Fixpoint allNumChars (s : string) : bool :=
  match s with
  | "" => true
  | String c s' => numChar c && allNumChars s'
  end.

(** What can follow a serialised value in a text: nothing, or a character
    that is not part of a number (a comma, a line feed, a bracket). *)
Definition endsValue (r : string) : Prop :=
  match r with
  | "" => True
  | String c _ => numChar c = false
  end.

(** Reading back one character of a quoted string: the inverse of
    [Json.quoteChar], used to tell quoted strings apart. *)
Definition hexValue (c : ascii) : option N :=
  let n := Ascii.N_of_ascii c in
  if (48 <=? n)%N && (n <=? 57)%N then Some (n - 48)%N
  else if (97 <=? n)%N && (n <=? 102)%N then Some (n - 87)%N
  else None.

Definition unquoteChar (s : string) : option (ascii * string) :=
  match s with
  | "" => None
  | String c rest =>
      let n := Ascii.N_of_ascii c in
      if (n =? 34)%N then None
      else if (n =? 92)%N then
        match rest with
        | "" => None
        | String e rest' =>
            let m := Ascii.N_of_ascii e in
            if (m =? 98)%N then Some (Ascii.ascii_of_N 8, rest')
            else if (m =? 116)%N then Some (Ascii.ascii_of_N 9, rest')
            else if (m =? 110)%N then Some (Ascii.ascii_of_N 10, rest')
            else if (m =? 102)%N then Some (Ascii.ascii_of_N 12, rest')
            else if (m =? 114)%N then Some (Ascii.ascii_of_N 13, rest')
            else if (m =? 34)%N then Some (Ascii.ascii_of_N 34, rest')
            else if (m =? 92)%N then Some (Ascii.ascii_of_N 92, rest')
            else if (m =? 117)%N then
              match rest' with
              | String _ (String _ (String h (String l rest''))) =>
                  match hexValue h, hexValue l with
                  | Some a, Some b => Some (Ascii.ascii_of_N (16 * a + b), rest'')
                  | _, _ => None
                  end
              | _ => None
              end
            else None
        end
      else Some (c, rest)
  end.

(** What a reader of the text gets back for a value: JSON has no NaN, no
    infinities and no negative zero, and [JSON.stringify] writes [null]
    and [0] in their place. *)
Fixpoint jsonOf (v : Json.value) : Json.value :=
  match v with
  | Json.Null | Json.Bool _ | Json.Str _ => v
  | Json.Num x =>
      match x with
      | Json.NaN | Json.Infinity | Json.NegInfinity => Json.Null
      | Json.NegZero => Json.Num (Json.Integer 0 I)
      | Json.Integer _ _ => v
      end
  | Json.Arr items => Json.Arr (map jsonOf items)
  | Json.Obj props => Json.Obj (map (fun kv => (fst kv, jsonOf (snd kv))) props)
  end.

(** A value that is written down as it is. *)
Definition isJson (v : Json.value) : Prop := jsonOf v = v.

(** A history entry as a reader of the exported text gets it back. *)
Definition jsonEntry (e : FiberJs.Entry.t) : FiberJs.Entry.t :=
  FiberJs.Entry.Build (FiberJs.Entry.stage e) (FiberJs.Entry.color e)
    (jsonOf <$> FiberJs.Entry.context e).

(** The kind of text a value is written as, and the kind the first
    character of a text announces. *)
Inductive Kind := KNull | KTrue | KFalse | KNum | KStr | KArr | KObj.

Definition kind (v : Json.value) : Kind :=
  match v with
  | Json.Null => KNull
  | Json.Bool true => KTrue
  | Json.Bool false => KFalse
  | Json.Num x => if Json.isFinite x then KNum else KNull
  | Json.Str _ => KStr
  | Json.Arr _ => KArr
  | Json.Obj _ => KObj
  end.

Definition kindOfHead (c : ascii) : option Kind :=
  let n := Ascii.N_of_ascii c in
  if (n =? 110)%N then Some KNull
  else if (n =? 116)%N then Some KTrue
  else if (n =? 102)%N then Some KFalse
  else if numChar c then Some KNum
  else if (n =? 34)%N then Some KStr
  else if (n =? 91)%N then Some KArr
  else if (n =? 123)%N then Some KObj
  else None.

(** Induction on values with the induction hypothesis for every element
    of an array and every property value of an object. *)
Fixpoint value_nested_ind (P : Json.value -> Prop)
    (HNull : P Json.Null)
    (HBool : forall b, P (Json.Bool b))
    (HNum : forall n, P (Json.Num n))
    (HStr : forall s, P (Json.Str s))
    (HArr : forall items, Forall P items -> P (Json.Arr items))
    (HObj : forall props, Forall (fun kv => P (snd kv)) props -> P (Json.Obj props))
    (v : Json.value) : P v :=
  match v with
  | Json.Null => HNull
  | Json.Bool b => HBool b
  | Json.Num n => HNum n
  | Json.Str s => HStr s
  | Json.Arr items =>
      HArr items
        ((fix go (l : list Json.value) : Forall P l :=
            match l with
            | [] => @List.Forall_nil _ P
            | x :: l' =>
                @List.Forall_cons _ P x l'
                  (value_nested_ind P HNull HBool HNum HStr HArr HObj x) (go l')
            end) items)
  | Json.Obj props =>
      HObj props
        ((fix go (l : list (string * Json.value))
            : Forall (fun kv => P (snd kv)) l :=
            match l with
            | [] => @List.Forall_nil _ (fun kv => P (snd kv))
            | kv :: l' =>
                @List.Forall_cons _ (fun kv => P (snd kv)) kv l'
                  (value_nested_ind P HNull HBool HNum HStr HArr HObj (snd kv))
                  (go l')
            end) props)
  end.

(** [ser x] can be told apart from [ser x'], for any other [x'] among
    those that are [ok], by reading a text from its start. *)
Definition PrefixFree {A} (ok : A -> Prop) (ser : A -> string) (x : A) : Prop :=
  forall x' T T', ok x' -> endsValue T -> endsValue T' ->
    ser x +:+ T = ser x' +:+ T' -> x = x' /\ T = T'.

(** ** Notions for the viewer, the weave and the recorder *)

(** A text without separator characters, a text of separator characters
    only, and a text with its separator characters taken out. *)
Fixpoint separatorFree (t : string) : bool :=
  match t with
  | "" => true
  | String c t' => negb (FiberCard.isSeparator c) && separatorFree t'
  end.

Fixpoint separatorsOnly (t : string) : bool :=
  match t with
  | "" => true
  | String c t' => FiberCard.isSeparator c && separatorsOnly t'
  end.

Fixpoint withoutSeparators (s : string) : string :=
  match s with
  | "" => ""
  | String c s' =>
      if FiberCard.isSeparator c then withoutSeparators s'
      else String c (withoutSeparators s')
  end.

(** A tag as the card shows it: not empty and free of separators. *)
Definition isTag (t : string) : Prop :=
  t <> "" /\ separatorFree t = true.

(** How often a reference is listed. *)
Fixpoint occurrences (r : FiberJs.ref) (l : list FiberJs.ref) : nat :=
  match l with
  | [] => 0
  | x :: l' => (if decide (x = r) then 1 else 0) + occurrences r l'
  end.

(** The entry a call of [transform] without context appends. *)
Definition entryOf (type color : string) : FiberJs.Entry.t :=
  FiberJs.Entry.Build type color (Some Json.Null).

(** The store after [transform(type, color)] has been called on each
    reference of a list in turn. *)
Definition transformAll (type color : string) (fibers : list FiberJs.ref)
    (st : FiberJs.Store) : FiberJs.Store :=
  foldl (fun st r => alter (effect (FiberJs.CallTransform type color None)) r st)
        st fibers.

(** The Fibers of the main script as the set-up leaves them. *)
Definition warpFiberOf (i : nat) : FiberJs.Object :=
  {| FiberJs.proto := FiberJs.WarpFiber;
     FiberJs.id := "w" +:+ pretty i;
     FiberJs.color := "springgreen";
     FiberJs.history := [FiberJs.Entry.Build "start" "springgreen" None;
                         entryOf "warp" "springgreen"];
     FiberJs.markers := [] |}.

Definition weftFiberOf (p j : nat) : FiberJs.Object :=
  {| FiberJs.proto := FiberJs.WeftFiber;
     FiberJs.id := "p" +:+ pretty p +:+ "-" +:+ pretty j;
     FiberJs.color := "darkgreen";
     FiberJs.history := [FiberJs.Entry.Build "start" "gold" None;
                         entryOf "weft" "darkgreen"];
     FiberJs.markers := [] |}.

Definition plainFiberOf (i : nat) : FiberJs.Object :=
  {| FiberJs.proto := FiberJs.Fiber;
     FiberJs.id := "f" +:+ pretty i;
     FiberJs.color := "gold";
     FiberJs.history := [FiberJs.Entry.Build "start" "gold" None];
     FiberJs.markers := [] |}.

(** The letters of a pattern matrix, read row by row. *)
Definition letters (m : WeaveJs.Matrix) : list ascii := omap id (concat m).

(** How many of the first [n] calls of [Math.random()] came out below
    the threshold. *)
Definition successes (random : nat -> bool) (n : nat) : nat :=
  length (filter (fun k => random k = true) (seq 0 n)).

(** What the cell at position [pos], counted row by row from 0, holds
    after a run that made [draws] calls of [Math.random()]: the cell got
    a letter when call number [pos] was among them and came out below
    the threshold, and the letter is the one whose index is the number
    of calls before it that did; otherwise the cell is still [false]. *)
Definition patternAt (random : nat -> bool) (draws pos : nat) : option ascii :=
  if decide (pos < draws)
  then if random pos then WeaveJs.tagline !! successes random pos else None
  else None.

(** What holds when the cells before position [pos] have been visited:
    a call is made for every cell until twenty calls have come out below
    the threshold. *)
Definition visited (random : nat -> bool) (nrows ncols pos : nat)
    (s : WeaveJs.PatternState) : Prop :=
  length (WeaveJs.matrix s) = nrows /\
  Forall (fun row => length row = ncols) (WeaveJs.matrix s) /\
  WeaveJs.calls s <= pos /\
  WeaveJs.idx s = successes random (WeaveJs.calls s) /\
  WeaveJs.idx s <= length WeaveJs.tagline /\
  (WeaveJs.calls s = pos \/ WeaveJs.idx s = length WeaveJs.tagline) /\
  (forall d, d < WeaveJs.calls s -> successes random d < length WeaveJs.tagline) /\
  concat (WeaveJs.matrix s)
    = (patternAt random (WeaveJs.calls s) <$> seq 0 pos)
      ++ replicate (nrows * ncols - pos) None /\
  omap id (patternAt random (WeaveJs.calls s) <$> seq 0 pos)
    = take (WeaveJs.idx s) WeaveJs.tagline.

(** Calls a client makes on the Fibers of a store and on a weave. *)
Inductive Op :=
  | OpNew (C : FiberJs.Class) (id : string) (colorStart : option string)
  | OpCall (this : FiberJs.ref) (c : FiberJs.Call)
  | OpSpin (fiber : FiberJs.ref)
  | OpAddWarpFiber (fiber : FiberJs.ref) (slot : nat)
  | OpAddWeftPass (fibers : list FiberJs.ref).

Definition runOp (op : Op) (w : WeaveJs.Weave) : FiberJs.M WeaveJs.Weave :=
  match op with
  | OpNew C id colorStart => _ ← FiberJs.new C id colorStart; mret w
  | OpCall this c => _ ← FiberJs.invoke this c; mret w
  | OpSpin fiber => _ ← WeaveJs.spin fiber; mret w
  | OpAddWarpFiber fiber slot => WeaveJs.addWarpFiber w fiber slot
  | OpAddWeftPass fibers => WeaveJs.addWeftPass w fibers
  end.

Fixpoint runOps (ops : list Op) (w : WeaveJs.Weave) : FiberJs.M WeaveJs.Weave :=
  match ops with
  | [] => mret w
  | op :: ops' => w' ← runOp op w; runOps ops' w'
  end.

(** [o'] is [o] at a later time: same id and class, history and markers
    extended at the end. *)
Definition laterOf (o o' : FiberJs.Object) : Prop :=
  FiberJs.id o' = FiberJs.id o /\
  FiberJs.proto o' = FiberJs.proto o /\
  FiberJs.history o `prefix_of` FiberJs.history o' /\
  FiberJs.markers o `prefix_of` FiberJs.markers o'.

(** Every Fiber of [st] is still in [st'], at a later time. *)
Definition grows (st st' : FiberJs.Store) : Prop :=
  forall r o, st !! r = Some o -> exists o', st' !! r = Some o' /\ laterOf o o'.

(** A lineage as the class builds it: a start entry without context,
    then entries with a context, the colour being the last label. *)
Definition lineageOk (o : FiberJs.Object) : Prop :=
  (exists c rest,
     FiberJs.history o = FiberJs.Entry.Build "start" c None :: rest /\
     Forall (fun e => is_Some (FiberJs.Entry.context e)) rest) /\
  tagIsLastLabel o.

Definition storeOk (st : FiberJs.Store) : Prop :=
  forall r o, st !! r = Some o -> lineageOk o.

(** A computation that, when it returns, has only let the store grow and
    has kept its lineages well formed. *)
Definition keepsLineage {A} (m : FiberJs.M A) : Prop :=
  forall st a st', m st = Some (a, st') ->
    grows st st' /\ (storeOk st -> storeOk st').

(** The references an operation names. *)
Definition refsOf (op : Op) : list FiberJs.ref :=
  match op with
  | OpNew _ _ _ => []
  | OpCall this _ => [this]
  | OpSpin fiber => [fiber]
  | OpAddWarpFiber fiber _ => [fiber]
  | OpAddWeftPass fibers => fibers
  end.

(** Data for the examples: three cards with a drag in progress, and a
    short script of operations. *)
Definition cards : list Viewer.Fiber :=
  [helloWorld; anotherNote; withTags None helloWorld].

Definition dragging : ViewerDrop.State :=
  {| ViewerDrop.fibers := Some <$> cards;
     ViewerDrop.dragIndex := Some 0;
     ViewerDrop.selectedThread := Some "thread-a" |}.

Definition stale : ViewerDrop.State :=
  {| ViewerDrop.fibers := Some <$> data;
     ViewerDrop.dragIndex := Some 5;
     ViewerDrop.selectedThread := Some "thread-a" |}.

Definition demoOps : list Op :=
  [OpSpin 1%positive;
   OpAddWarpFiber 1%positive 2;
   OpNew FiberJs.WeftFiber "p0-0" None;
   OpAddWeftPass [1%positive; 1%positive];
   OpCall 1%positive (FiberJs.CallAddMarker "violet")].

(** What the recorder stub reports for its empty blob. *)
Definition stubTranscription : Intake.TranscriptionState :=
  {| Intake.text := "transcribed 3 bytes";
     Intake.confidence := 1;
     Intake.timestamps := [];
     Intake.status := Intake.s_fulfilled;
     Intake.error := None |}.


(* ===================================================================== *)
(** * Part II: properties *)
(* ===================================================================== *)

(** ** Strings *)

Lemma app_cons c s t : String c s +:+ t = String c (s +:+ t).
Proof. reflexivity. Qed.

Lemma app_empty_r s : s +:+ "" = s.
Proof. induction s as [|c s IH]; [reflexivity|]. rewrite app_cons, IH. reflexivity. Qed.

Lemma app_assoc3 s t u : (s +:+ t) +:+ u = s +:+ (t +:+ u).
Proof.
  induction s as [|c s IH]; [reflexivity|].
  rewrite !app_cons, IH. reflexivity.
Qed.

Lemma Substring_refl s : Substring s s.
Proof. exists "", "". rewrite app_empty_r. reflexivity. Qed.

Lemma Substring_empty s : Substring "" s.
Proof. exists "", s. reflexivity. Qed.

Lemma Substring_trans t s u : Substring t s -> Substring s u -> Substring t u.
Proof.
  intros (p1 & q1 & ->) (p2 & q2 & ->).
  exists (p2 +:+ p1), (q1 +:+ q2). rewrite !app_assoc3. reflexivity.
Qed.

Lemma Substring_app_l t s u : Substring t s -> Substring t (s +:+ u).
Proof.
  intros (p & q & ->). exists p, (q +:+ u). rewrite !app_assoc3. reflexivity.
Qed.

Lemma Substring_app_r t s u : Substring t s -> Substring t (u +:+ s).
Proof.
  intros (p & q & ->). exists (u +:+ p), q. rewrite !app_assoc3. reflexivity.
Qed.

Lemma startsWith_spec s t :
  JsString.startsWith s t = true <-> exists post, s = t +:+ post.
Proof.
  revert s. induction t as [|c t IH]; intros s.
  - split; [intros _; exists s; reflexivity | destruct s; reflexivity].
  - destruct s as [|d s]; simpl.
    + split; [discriminate | intros (post & H); discriminate H].
    + destruct (decide (c = d)) as [->|Hne].
      * rewrite IH. split; intros (post & H); exists post.
        -- rewrite app_cons. congruence.
        -- rewrite app_cons in H. congruence.
      * split; [discriminate|]. intros (post & H).
        rewrite app_cons in H. congruence.
Qed.

Lemma scanFrom_unfold rest t i :
  JsString.scanFrom rest t i =
  if JsString.startsWith rest t then Some i
  else match rest with
       | "" => None
       | String _ rest' => JsString.scanFrom rest' t (S i)
       end.
Proof. destruct rest; reflexivity. Qed.

Lemma scanFrom_spec rest t i :
  is_Some (JsString.scanFrom rest t i) <-> Substring t rest.
Proof.
  revert i. induction rest as [|d rest IH]; intros i;
    rewrite scanFrom_unfold;
    match goal with |- context [JsString.startsWith ?r t] =>
      destruct (JsString.startsWith r t) eqn:E end.
  - split; [intros _ | intros _; eexists; reflexivity].
    apply startsWith_spec in E as (post & E). exists "", post. exact E.
  - split; [intros [x Hx]; discriminate|].
    intros (pre & post & H). exfalso.
    destruct pre; [|discriminate H].
    assert (JsString.startsWith "" t = true) by (apply startsWith_spec; eauto).
    congruence.
  - split; [intros _ | intros _; eexists; reflexivity].
    apply startsWith_spec in E as (post & E). exists "", post. exact E.
  - rewrite IH. split.
    + intros (pre & post & ->). exists (String d pre), post. reflexivity.
    + intros (pre & post & H). destruct pre as [|c pre].
      * exfalso.
        assert (JsString.startsWith (String d rest) t = true)
          by (apply startsWith_spec; eauto).
        congruence.
      * rewrite app_cons in H. injection H as _ ->. exists pre, post. reflexivity.
Qed.

Lemma includes_spec s t : JsString.includes s t = true <-> Substring t s.
Proof.
  unfold JsString.includes, JsString.indexOf.
  rewrite <- (scanFrom_spec s t 0).
  destruct (JsString.scanFrom s t 0); split; eauto; try discriminate.
  intros [x Hx]. discriminate.
Qed.

#[global] Instance Substring_dec t s : Decision (Substring t s).
Proof.
  destruct (JsString.includes s t) eqn:E.
  - left. apply includes_spec, E.
  - right. intros H. apply includes_spec in H. congruence.
Defined.

Lemma Substring_of_empty t : Substring t "" -> t = "".
Proof.
  intros (pre & post & H). destruct pre; [|discriminate H].
  destruct t; [reflexivity | discriminate H].
Qed.

Lemma asciiLower_laws : ToLowerCaseLaws JsString.asciiLower.
Proof.
  split; [reflexivity|]. intros [|c s] H; [congruence | discriminate].
Qed.

(** ** [Array.prototype.filter] *)

Lemma Array_filter_loop_total {A} (cb : A -> Completion bool) (p : A -> bool)
    (O res : list A) :
  Forall (fun x => cb x = Normal (p x)) O ->
  Array_filter_loop cb O res = Normal (res ++ List.filter p O).
Proof.
  intros H. revert res. induction H as [|x O Hx _ IH]; intros res; simpl.
  - rewrite app_nil_r. reflexivity.
  - rewrite Hx. simpl. rewrite IH. destruct (p x); [|reflexivity].
    rewrite <- app_assoc. reflexivity.
Qed.

Lemma Array_filter_total {A} (cb : A -> Completion bool) (p : A -> bool)
    (O : list A) :
  Forall (fun x => cb x = Normal (p x)) O ->
  Array_filter cb O = Normal (List.filter p O).
Proof. intros H. unfold Array_filter. rewrite (Array_filter_loop_total cb p); auto. Qed.

Lemma List_filter_decide {A} (P : A -> Prop) `{!forall x, Decision (P x)}
    (p : A -> bool) (l : list A) :
  Forall (fun x => p x = true <-> P x) l ->
  List.filter p l = filter P l.
Proof.
  induction 1 as [|x l Hx _ IH]; [reflexivity|]. simpl.
  rewrite filter_cons. destruct (decide (P x)) as [HP|HP].
  - destruct (p x) eqn:E; [rewrite IH; reflexivity|].
    apply Hx in HP. discriminate HP.
  - destruct (p x) eqn:E; [|exact IH].
    exfalso. apply HP, Hx. reflexivity.
Qed.

(** ** [filterFibers] *)

Lemma matchesQueryb_spec lower q f :
  matchesQueryb lower q f = true <-> matchesQuery lower q f.
Proof.
  assert (Hfield : forall o : option string,
            match o with
            | Some c => JsString.includes (lower c) (lower q)
            | None => false
            end = true
            <-> exists c, o = Some c /\ Substring (lower q) (lower c)).
  { intros [c|].
    - rewrite includes_spec. split; [eauto|].
      intros (c' & Heq & H). injection Heq as <-. exact H.
    - split; [discriminate|]. intros (c' & Heq & _). discriminate Heq. }
  unfold matchesQueryb, matchesQuery.
  rewrite orb_true_iff, !Hfield. reflexivity.
Qed.

#[global] Instance matchesQuery_dec lower q f : Decision (matchesQuery lower q f).
Proof.
  destruct (matchesQueryb lower q f) eqn:E.
  - left. apply matchesQueryb_spec, E.
  - right. intros H. apply matchesQueryb_spec in H. congruence.
Defined.

Section FilterFibers.

Context (toLowerCase : string -> string).
Context (laws : ToLowerCaseLaws toLowerCase).

Lemma toLowerCase_empty : toLowerCase "" = "".
Proof. apply (toLowerCase_ASCII _ laws). reflexivity. Qed.

Lemma orElse_empty_lower (t : option string) :
  toLowerCase (JsString.orElse t "") = toLowerCase (default "" t).
Proof. destruct t as [[|c t]|]; reflexivity. Qed.

(** On a unit that has its [content], the arrow function answers the
    specification's matching rule. *)
Lemma predicate_matches query f :
  is_Some (Viewer.content f) ->
  Viewer.predicate toLowerCase (toLowerCase query) f
  = Normal (matchesQueryb toLowerCase query f).
Proof.
  intros [c Hc]. unfold Viewer.predicate, matchesQueryb. rewrite Hc. simpl.
  destruct (JsString.includes (toLowerCase c) (toLowerCase query)) eqn:E;
    [reflexivity|]. simpl. f_equal.
  destruct (Viewer.tags f) as [[|d t]|]; try reflexivity. simpl.
  rewrite toLowerCase_empty.
  destruct (JsString.includes "" (toLowerCase query)) eqn:E'; [|reflexivity].
  apply includes_spec, Substring_of_empty in E'. rewrite E' in E.
  assert (JsString.includes (toLowerCase c) "" = true)
    by (apply includes_spec, Substring_empty).
  congruence.
Qed.

Lemma filterFibers_filter (list : list Viewer.Fiber) (query : string) :
  Forall (fun f => is_Some (Viewer.content f)) list ->
  Viewer.filterFibers toLowerCase list query
  = Normal (filter (matchesQuery toLowerCase query) list).
Proof.
  intros H. unfold Viewer.filterFibers.
  rewrite (Array_filter_total _ (matchesQueryb toLowerCase query)).
  - f_equal. apply List_filter_decide, Forall_forall.
    intros f _. apply matchesQueryb_spec.
  - eapply Forall_impl; [exact H|]. intros f Hf. apply predicate_matches, Hf.
Qed.

Lemma matchesQuery_empty f :
  is_Some (Viewer.content f) -> matchesQuery toLowerCase "" f.
Proof.
  intros [c Hc]. left. exists c. split; [exact Hc|].
  rewrite toLowerCase_empty. apply Substring_empty.
Qed.

Lemma filter_all {A} (P : A -> Prop) `{!forall x, Decision (P x)} (l : list A) :
  Forall P l -> filter P l = l.
Proof.
  induction 1 as [|x l Hx _ IH]; [reflexivity|].
  rewrite filter_cons_True by exact Hx. rewrite IH. reflexivity.
Qed.

(** C4: on units that expose both text fields, [filterFibers list q]
    returns normally with exactly the subsequence of [list], in the
    original order, of the units for which the lowercased [q] is a
    substring of the lowercased [content] or of the lowercased [tags];
    the empty query returns the whole list; and on the two units of the
    test, the query [bar] returns exactly the second one. *)
Theorem filterFibers_selects_matching_subsequence
    (list : list Viewer.Fiber) (q : string) :
  Forall exposesText list ->
  Viewer.filterFibers toLowerCase list q
    = Normal (filter (matchesQuery toLowerCase q) list)
  /\ filter (matchesQuery toLowerCase q) list `sublist_of` list
  /\ Viewer.filterFibers toLowerCase list "" = Normal list
  /\ Viewer.filterFibers toLowerCase data "bar" = Normal [anotherNote].
Proof.
  intros H.
  assert (Hc : Forall (fun f => is_Some (Viewer.content f)) list).
  { eapply Forall_impl; [exact H|]. intros f [Hf _]. exact Hf. }
  split; [apply filterFibers_filter, Hc|].
  split; [apply sublist_filter|].
  split.
  - rewrite filterFibers_filter by exact Hc. f_equal.
    apply filter_all. eapply Forall_impl; [exact Hc|].
    intros f Hf. apply matchesQuery_empty, Hf.
  - unfold Viewer.filterFibers, Array_filter, data. simpl.
    unfold Viewer.predicate. simpl.
    rewrite !(toLowerCase_ASCII _ laws) by reflexivity.
    reflexivity.
Qed.

(** C9: [filterFibers] does not throw on units without [tags]: as long
    as every unit has its [content] the call returns normally, and a
    unit whose [tags] is absent or empty is judged exactly as the same
    unit with [tags] set to the empty string; the empty query includes
    it, and a non-empty query includes it exactly when the lowercased
    query is a substring of its lowercased [content]. *)
Theorem filterFibers_tolerates_missing_tags
    (list : list Viewer.Fiber) (q : string) :
  Forall (fun f => is_Some (Viewer.content f)) list ->
  exists r,
    Viewer.filterFibers toLowerCase list q = Normal r /\
    forall f, f ∈ list ->
      Viewer.tags f = None \/ Viewer.tags f = Some "" ->
      Viewer.predicate toLowerCase (toLowerCase q) f
        = Viewer.predicate toLowerCase (toLowerCase q) (withTags (Some "") f)
      /\ (q = "" -> f ∈ r)
      /\ (q <> "" ->
          (f ∈ r <-> exists c, Viewer.content f = Some c /\
                               Substring (toLowerCase q) (toLowerCase c))).
Proof.
  intros Hc. eexists. split; [apply filterFibers_filter, Hc|].
  intros f Hin Htags.
  assert (Hf : is_Some (Viewer.content f)).
  { rewrite Forall_forall in Hc. apply Hc, Hin. }
  split; [|split].
  - unfold Viewer.predicate. simpl.
    destruct Htags as [-> | ->]; reflexivity.
  - intros ->. apply list_elem_of_filter. split; [|exact Hin].
    apply matchesQuery_empty, Hf.
  - intros Hq. rewrite list_elem_of_filter. unfold matchesQuery. split.
    + intros [[Hm | (t & Ht & Hm)] _]; [exact Hm|]. exfalso.
      assert (t = "") as -> by (destruct Htags; congruence).
      rewrite toLowerCase_empty in Hm. apply Substring_of_empty in Hm.
      exact (toLowerCase_nonempty _ laws q Hq Hm).
    + intros Hm. split; [left; exact Hm | exact Hin].
Qed.

End FilterFibers.

Lemma filterFibers_selects_matching_subsequence_witness :
  Viewer.filterFibers JsString.asciiLower data "NOTE"
    = Normal (filter (matchesQuery JsString.asciiLower "NOTE") data)
  /\ filter (matchesQuery JsString.asciiLower "NOTE") data `sublist_of` data
  /\ Viewer.filterFibers JsString.asciiLower data "" = Normal data
  /\ Viewer.filterFibers JsString.asciiLower data "bar" = Normal [anotherNote].
Proof.
  apply (filterFibers_selects_matching_subsequence
           JsString.asciiLower asciiLower_laws data "NOTE").
  repeat constructor; eexists; reflexivity.
Defined.

Lemma filterFibers_tolerates_missing_tags_witness :
  exists r,
    Viewer.filterFibers JsString.asciiLower
      [withTags None helloWorld; anotherNote] "World" = Normal r /\
    forall f, f ∈ [withTags None helloWorld; anotherNote] ->
      Viewer.tags f = None \/ Viewer.tags f = Some "" ->
      Viewer.predicate JsString.asciiLower (JsString.asciiLower "World") f
        = Viewer.predicate JsString.asciiLower (JsString.asciiLower "World")
            (withTags (Some "") f)
      /\ ("World" = "" -> f ∈ r)
      /\ ("World" <> "" ->
          (f ∈ r <-> exists c, Viewer.content f = Some c /\
                               Substring (JsString.asciiLower "World")
                                         (JsString.asciiLower c))).
Proof.
  apply (filterFibers_tolerates_missing_tags
           JsString.asciiLower asciiLower_laws
           [withTags None helloWorld; anotherNote] "World").
  repeat constructor; eexists; reflexivity.
Defined.

(** ** The store and the methods of [Fiber] *)

Section FiberMethods.

Import FiberJs.

Implicit Types (st : Store) (this : ref) (o : Object) (c : Call).

Lemma update_run st this o (f : Object -> Object) :
  st !! this = Some o ->
  update this f st = Some (tt, <[this := f o]> st).
Proof. intros H. unfold update. rewrite H. reflexivity. Qed.

Lemma get_run st this o :
  st !! this = Some o -> get this st = Some (o, st).
Proof. intros H. unfold get. rewrite H. reflexivity. Qed.

Lemma transform_run st this o type color context :
  st !! this = Some o ->
  transform this type color context st
  = Some (this, <[this := effect (CallTransform type color context) o]> st).
Proof.
  intros H. unfold transform, mbind, M_bind, bind, mret, M_ret, ret.
  rewrite (update_run st this o) by exact H.
  rewrite (update_run _ this (set_color color o)) by apply lookup_insert_eq.
  rewrite insert_insert_eq. reflexivity.
Qed.

Lemma addMarker_run st this o markerType :
  st !! this = Some o ->
  addMarker this markerType st
  = Some (this, <[this := effect (CallAddMarker markerType) o]> st).
Proof.
  intros H. unfold addMarker, mbind, M_bind, bind, mret, M_ret, ret.
  rewrite (update_run st this o) by exact H. reflexivity.
Qed.

Lemma exportLineage_run st this o :
  st !! this = Some o ->
  exportLineage this st = Some (Json.stringify (lineageValue o) 2, st).
Proof.
  intros H. unfold exportLineage, mbind, M_bind, bind, mret, M_ret, ret.
  rewrite (get_run st this o) by exact H. reflexivity.
Qed.

(** Every member is found in [Fiber], whatever the receiver's class. *)
Lemma resolve_Fiber (C : Class) (m : Member) : resolve C m = Some Fiber.
Proof. destruct C, m; reflexivity. Qed.

Lemma invoke_run st this o c :
  st !! this = Some o ->
  invoke this c st = Some (resultOf this c o, <[this := effect c o]> st).
Proof.
  intros H. unfold invoke, mbind, M_bind, bind.
  rewrite (get_run st this o) by exact H.
  rewrite resolve_Fiber. unfold body, mbind, M_bind, bind, mret, M_ret, ret.
  destruct c as [type color context | markerType |]; simpl.
  - rewrite (transform_run st this o) by exact H. reflexivity.
  - rewrite (addMarker_run st this o) by exact H. reflexivity.
  - rewrite (exportLineage_run st this o) by exact H.
    rewrite insert_id by exact H. reflexivity.
Qed.

Lemma invokeAll_run st this o (cs : list Call) :
  st !! this = Some o ->
  invokeAll this cs st
  = Some (resultsOf this cs o, <[this := effects cs o]> st).
Proof.
  revert st o. induction cs as [|c cs IH]; intros st o H; simpl.
  - rewrite insert_id by exact H. reflexivity.
  - unfold mbind, M_bind, bind, mret, M_ret, ret.
    rewrite (invoke_run st this o) by exact H.
    rewrite (IH _ (effect c o)) by apply lookup_insert_eq.
    rewrite insert_insert_eq. reflexivity.
Qed.

Lemma new_run st C id colorStart :
  new C id colorStart st
  = Some (fresh (dom st), <[fresh (dom st) := initial C id colorStart]> st).
Proof. unfold new. rewrite resolve_Fiber. reflexivity. Qed.

Lemma fresh_unallocated st : st !! fresh (dom st) = None.
Proof. apply not_elem_of_dom, is_fresh. Qed.

Lemma script_run st C id colorStart (cs : list Call) :
  script C id colorStart cs st
  = Some ((fresh (dom st), resultsOf (fresh (dom st)) cs (initial C id colorStart)),
          <[fresh (dom st) := effects cs (initial C id colorStart)]> st).
Proof.
  unfold script, mbind, M_bind, bind, mret, M_ret, ret.
  rewrite new_run.
  rewrite (invokeAll_run _ _ (initial C id colorStart)) by apply lookup_insert_eq.
  rewrite insert_insert_eq. reflexivity.
Qed.

Lemma objectAfter_run st C id colorStart (cs : list Call) :
  objectAfter C id colorStart cs st = Some (effects cs (initial C id colorStart)).
Proof. unfold objectAfter. rewrite script_run. apply lookup_insert_eq. Qed.

End FiberMethods.

(** ** What a sequence of calls does to a Fiber *)

Section FiberLineage.

Import FiberJs.

Implicit Types (st : Store) (this : ref) (o : Object) (c : Call).

Lemma effects_app (cs cs' : list Call) o :
  effects (cs ++ cs') o = effects cs' (effects cs o).
Proof. revert o. induction cs as [|c cs IH]; intros o; simpl; auto. Qed.

Lemma history_effect c o :
  history (effect c o) = history o ++
    match c with
    | CallTransform type color context =>
        [Entry.Build type color (Some (default Json.Null context))]
    | _ => []
    end.
Proof. destruct c; simpl; rewrite ?app_nil_r; reflexivity. Qed.

Lemma history_effects_prefix (cs : list Call) o :
  history o `prefix_of` history (effects cs o).
Proof.
  revert o. induction cs as [|c cs IH]; intros o; simpl; [reflexivity|].
  etrans; [|apply IH]. rewrite history_effect. apply prefix_app_r. reflexivity.
Qed.

Lemma history_effects_length (cs : list Call) o :
  length (history (effects cs o)) = length (history o) + transforms cs.
Proof.
  revert o. induction cs as [|c cs IH]; intros o; simpl; [lia|].
  rewrite IH, history_effect, length_app. destruct c; simpl; lia.
Qed.

Lemma tagIsLastLabel_effect c o :
  tagIsLastLabel o -> tagIsLastLabel (effect c o).
Proof.
  unfold tagIsLastLabel. destruct c as [type color context | m |]; simpl; auto.
  intros _. rewrite last_snoc. reflexivity.
Qed.

Lemma tagIsLastLabel_effects (cs : list Call) o :
  tagIsLastLabel o -> tagIsLastLabel (effects cs o).
Proof.
  revert o. induction cs as [|c cs IH]; intros o H; simpl; [exact H|].
  apply IH, tagIsLastLabel_effect, H.
Qed.

Lemma effect_frame c o :
  proto (effect c o) = proto o /\ id (effect c o) = id o.
Proof. destruct c; split; reflexivity. Qed.

Lemma effects_frame (cs : list Call) o :
  proto (effects cs o) = proto o /\ id (effects cs o) = id o.
Proof.
  revert o. induction cs as [|c cs IH]; intros o; simpl; [split; reflexivity|].
  destruct (IH (effect c o)) as [-> ->]. apply effect_frame.
Qed.

(** The class of the receiver plays no part in what a call does. *)
Lemma effect_class_blind c o1 o2 this :
  stateOf o1 = stateOf o2 ->
  stateOf (effect c o1) = stateOf (effect c o2) /\
  resultOf this c o1 = resultOf this c o2.
Proof.
  destruct o1 as [C1 i1 k1 h1 m1], o2 as [C2 i2 k2 h2 m2].
  unfold stateOf. simpl. intros [= -> -> -> ->].
  destruct c; split; reflexivity.
Qed.

Lemma effects_class_blind (cs : list Call) o1 o2 this :
  stateOf o1 = stateOf o2 ->
  stateOf (effects cs o1) = stateOf (effects cs o2) /\
  resultsOf this cs o1 = resultsOf this cs o2.
Proof.
  revert o1 o2. induction cs as [|c cs IH]; intros o1 o2 H; simpl.
  - split; [exact H | reflexivity].
  - destruct (effect_class_blind c o1 o2 this H) as [Hs Hr].
    destruct (IH _ _ Hs) as [Hs' Hr']. rewrite Hr, Hr'. split; [exact Hs' | reflexivity].
Qed.

End FiberLineage.

(** ** The Fiber entity *)

Section FiberEntity.

Import FiberJs.

Implicit Types (st : Store) (this : ref) (o : Object) (c : Call).

(** C1: after [new C(id, colorStart)] and any sequence of transform,
    addMarker and exportLineage calls on the new Fiber, its history is
    not empty and still begins with the creation entry, its length is 1
    plus the number of transform calls made, its colour (the stage tag)
    is the label of the last history entry, and whatever calls follow,
    the history so far stays as a prefix of the later history, so the
    length never decreases and no entry is altered, reordered or
    dropped. *)
Theorem history_is_append_only_and_tracks_stage_tag
    (C : Class) (id : string) (colorStart : option string)
    (cs : list Call) st :
  exists o,
    objectAfter C id colorStart cs st = Some o /\
    history o <> [] /\
    head (history o) = Some (Entry.Build "start" (default "gold" colorStart) None) /\
    length (history o) = 1 + transforms cs /\
    tagIsLastLabel o /\
    forall cs' : list Call, exists o',
      objectAfter C id colorStart (cs ++ cs') st = Some o' /\
      history o `prefix_of` history o' /\
      length (history o) <= length (history o').
Proof.
  exists (effects cs (initial C id colorStart)).
  split; [apply objectAfter_run|].
  pose proof (history_effects_prefix cs (initial C id colorStart)) as [k Hk].
  simpl in Hk.
  split; [rewrite Hk; discriminate|].
  split; [rewrite Hk; reflexivity|].
  split; [rewrite history_effects_length; reflexivity|].
  split; [apply tagIsLastLabel_effects; reflexivity|].
  intros cs'. exists (effects (cs ++ cs') (initial C id colorStart)).
  split; [apply objectAfter_run|].
  rewrite effects_app.
  split; [apply history_effects_prefix|].
  rewrite (history_effects_length cs'). lia.
Qed.

(** C2: on an allocated Fiber, [transform(type, color, context)]
    returns normally, returns the receiver itself, appends the one
    entry [{ stage: type, color, context }] (with [null] for an omitted
    context) after the earlier entries, sets the colour to [color] and
    leaves the markers, the id, the class and every other object alone;
    a chained second call works on the same Fiber. *)
Theorem transform_appends_one_entry_and_returns_receiver
    st this o (type color : string) (context : option Json.value)
    (type' color' : string) (context' : option Json.value) :
  st !! this = Some o ->
  exists o' o'',
    transform this type color context st = Some (this, <[this := o']> st) /\
    invoke this (CallTransform type color context) st
      = Some (RRef this, <[this := o']> st) /\
    history o' = history o ++
      [Entry.Build type color (Some (default Json.Null context))] /\
    FiberJs.color o' = color /\
    markers o' = markers o /\
    FiberJs.id o' = FiberJs.id o /\
    proto o' = proto o /\
    (r ← transform this type color context; transform r type' color' context') st
      = Some (this, <[this := o'']> st) /\
    history o'' = history o ++
      [Entry.Build type color (Some (default Json.Null context));
       Entry.Build type' color' (Some (default Json.Null context'))].
Proof.
  intros H.
  exists (effect (CallTransform type color context) o),
         (effects [CallTransform type color context;
                   CallTransform type' color' context'] o).
  split; [apply transform_run, H|].
  split; [apply (invoke_run st this o (CallTransform type color context)), H|].
  repeat (split; [reflexivity|]).
  split.
  - unfold mbind, M_bind, bind. rewrite (transform_run st this o) by exact H.
    rewrite (transform_run _ this (effect (CallTransform type color context) o))
      by apply lookup_insert_eq.
    rewrite insert_insert_eq. reflexivity.
  - simpl. rewrite <- app_assoc. reflexivity.
Qed.

(** C3: [new C(id, initial_label)] never fails; it allocates a fresh
    Fiber whose history is the single entry
    [{ stage: 'start', color: initial_label }], whose colour is
    [initial_label], whose id is [id] and whose markers are empty. *)
Theorem create_yields_single_start_entry
    (C : Class) (id initial_label : string) st :
  exists this o,
    new C id (Some initial_label) st = Some (this, <[this := o]> st) /\
    st !! this = None /\
    history o = [Entry.Build "start" initial_label None] /\
    length (history o) = 1 /\
    FiberJs.color o = initial_label /\
    FiberJs.id o = id /\
    markers o = [] /\
    proto o = C.
Proof.
  exists (fresh (dom st)), (initial C id (Some initial_label)).
  split; [apply new_run|].
  split; [apply fresh_unallocated|].
  repeat split.
Qed.

(** C5: on an allocated Fiber, [addMarker(markerType)] returns
    normally, returns the receiver itself, appends [markerType] to the
    markers and leaves history, colour, id and class alone; adding the
    same label twice leaves it there twice. *)
Theorem addMarker_appends_and_keeps_lineage
    st this o (markerType : string) :
  st !! this = Some o ->
  exists o' o'',
    addMarker this markerType st = Some (this, <[this := o']> st) /\
    invoke this (CallAddMarker markerType) st
      = Some (RRef this, <[this := o']> st) /\
    markers o' = markers o ++ [markerType] /\
    history o' = history o /\
    FiberJs.color o' = FiberJs.color o /\
    FiberJs.id o' = FiberJs.id o /\
    proto o' = proto o /\
    (r ← addMarker this markerType; addMarker r markerType) st
      = Some (this, <[this := o'']> st) /\
    markers o'' = markers o ++ [markerType; markerType] /\
    history o'' = history o /\
    FiberJs.color o'' = FiberJs.color o.
Proof.
  intros H.
  exists (effect (CallAddMarker markerType) o),
         (effects [CallAddMarker markerType; CallAddMarker markerType] o).
  split; [apply addMarker_run, H|].
  split; [apply (invoke_run st this o (CallAddMarker markerType)), H|].
  repeat (split; [reflexivity|]).
  split; [|split; [|split; reflexivity]].
  - unfold mbind, M_bind, bind. rewrite (addMarker_run st this o) by exact H.
    rewrite (addMarker_run _ this (effect (CallAddMarker markerType) o))
      by apply lookup_insert_eq.
    rewrite insert_insert_eq. reflexivity.
  - simpl. rewrite <- app_assoc. reflexivity.
Qed.

(** C8: neither subclass declares a member of its own, and for any two
    of the three classes the same constructor arguments followed by the
    same calls give the same reference, the same results (so the same
    exported lineage) and Fibers with the same id, colour, history and
    markers, differing in their class only; the rest of the store is
    the same. *)
Theorem subclasses_behave_as_Fiber
    (C D : Class) (id : string) (colorStart : option string)
    (cs : list Call) st :
  (forall m, declares WarpFiber m = false /\ declares WeftFiber m = false) /\
  exists this rs st1 st2 o1 o2,
    script C id colorStart cs st = Some ((this, rs), st1) /\
    script D id colorStart cs st = Some ((this, rs), st2) /\
    st1 !! this = Some o1 /\
    st2 !! this = Some o2 /\
    stateOf o1 = stateOf o2 /\
    proto o1 = C /\
    proto o2 = D /\
    forall r, r <> this -> st1 !! r = st2 !! r.
Proof.
  split; [intros m; split; reflexivity|].
  assert (Hs : stateOf (initial C id colorStart) = stateOf (initial D id colorStart))
    by reflexivity.
  destruct (effects_class_blind cs _ _ (fresh (dom st)) Hs) as [Hst Hrs].
  eexists _, _, _, _, _, _.
  split; [apply script_run|].
  split; [rewrite script_run, Hrs; reflexivity|].
  split; [apply lookup_insert_eq|].
  split; [apply lookup_insert_eq|].
  split; [exact Hst|].
  split; [apply effects_frame|].
  split; [apply effects_frame|].
  intros r Hr. rewrite !lookup_insert_ne by congruence. reflexivity.
Qed.

End FiberEntity.

(** ** The shape of [JSON.stringify]'s output *)

Section JsonText.

Import Json.

Lemma join_elem (sep x : string) (partial : list string) :
  x ∈ partial -> Substring x (join sep partial).
Proof.
  induction partial as [|y [|z rest] IH]; intros Hx.
  - inversion Hx.
  - apply list_elem_of_singleton in Hx as ->. apply Substring_refl.
  - change (join sep (y :: z :: rest))
      with (y +:+ sep +:+ join sep (z :: rest)).
    apply elem_of_cons in Hx as [-> | Hx].
    + apply Substring_app_l, Substring_refl.
    + apply Substring_app_r, Substring_app_r, IH, Hx.
Qed.

Lemma wrap_elem (opening closing gap stepback indent x : string)
    (partial : list string) :
  x ∈ partial -> Substring x (wrap opening closing gap stepback indent partial).
Proof.
  intros Hx. pose proof (join_elem "," x partial Hx) as H1.
  pose proof (join_elem ("," +:+ LF +:+ indent) x partial Hx) as H2.
  unfold wrap. destruct partial as [|y rest]; [inversion Hx|].
  destruct (decide (gap = "")).
  - apply Substring_app_r, Substring_app_l, H1.
  - do 3 apply Substring_app_r. apply Substring_app_l, H2.
Qed.

Lemma member_value (gap key strP : string) :
  Substring strP (member gap key strP).
Proof. unfold member. do 3 apply Substring_app_r. apply Substring_refl. Qed.

Lemma SerializeJSONProperty_Arr_elem (gap indent : string) (v : value)
    (items : list value) :
  v ∈ items ->
  Substring (SerializeJSONProperty gap (indent +:+ gap) v)
            (SerializeJSONProperty gap indent (Arr items)).
Proof.
  intros Hv. simpl. apply wrap_elem.
  apply (list_elem_of_fmap_2 (SerializeJSONProperty gap (indent +:+ gap))), Hv.
Qed.

Lemma SerializeJSONProperty_Obj_member (gap indent key : string) (v : value)
    (props : list (string * value)) :
  (key, v) ∈ props ->
  Substring (member gap key (SerializeJSONProperty gap (indent +:+ gap) v))
            (SerializeJSONProperty gap indent (Obj props)).
Proof.
  intros Hv. simpl. apply wrap_elem.
  apply (list_elem_of_fmap_2
           (fun kv => member gap (fst kv)
                        (SerializeJSONProperty gap (indent +:+ gap) (snd kv)))
           props (key, v)), Hv.
Qed.

Lemma SerializeJSONProperty_Obj_value (gap indent key : string) (v : value)
    (props : list (string * value)) :
  (key, v) ∈ props ->
  Substring (SerializeJSONProperty gap (indent +:+ gap) v)
            (SerializeJSONProperty gap indent (Obj props)).
Proof.
  intros Hv. eapply Substring_trans; [apply member_value|].
  apply SerializeJSONProperty_Obj_member, Hv.
Qed.

End JsonText.

(** ** [JSON.stringify] is injective *)

Lemma unquoteChar_quoteChar c X :
  unquoteChar (Json.quoteChar c +:+ X) = Some (c, X).
Proof. destruct c as [[] [] [] [] [] [] [] []]; reflexivity. Qed.

Lemma unquoteChar_closing X : unquoteChar (Json.DQUOTE +:+ X) = None.
Proof. reflexivity. Qed.

Lemma quoteChars_prefix_free s s' r r' :
  Json.quoteChars s +:+ Json.DQUOTE +:+ r = Json.quoteChars s' +:+ Json.DQUOTE +:+ r' ->
  s = s' /\ r = r'.
Proof.
  revert s'. induction s as [|c s IH]; intros [|c' s'] H; simpl in H.
  - split; [reflexivity|]. apply (inj (String.app Json.DQUOTE)) in H. exact H.
  - apply (f_equal unquoteChar) in H.
    rewrite app_assoc3, unquoteChar_quoteChar in H. discriminate H.
  - apply (f_equal unquoteChar) in H.
    rewrite app_assoc3, unquoteChar_quoteChar in H. discriminate H.
  - apply (f_equal unquoteChar) in H.
    rewrite !app_assoc3, !unquoteChar_quoteChar in H.
    injection H as -> H. apply IH in H as [-> ->]. split; reflexivity.
Qed.

Lemma QuoteJSONString_prefix_free s s' r r' :
  Json.QuoteJSONString s +:+ r = Json.QuoteJSONString s' +:+ r' ->
  s = s' /\ r = r'.
Proof.
  unfold Json.QuoteJSONString. rewrite !app_assoc3. intros H.
  apply (inj (String.app Json.DQUOTE)) in H.
  apply quoteChars_prefix_free, H.
Qed.

Lemma numChar_pretty_N_char x : numChar (pretty_N_char x) = true.
Proof. unfold pretty_N_char. repeat case_match; reflexivity. Qed.

Lemma allNumChars_pretty_N_go x s :
  allNumChars s = true -> allNumChars (pretty_N_go x s) = true.
Proof.
  revert s. induction (N.lt_wf_0 x) as [x _ IH]; intros s Hs.
  assert (x = 0 \/ 0 < x)%N as [->|Hx] by lia.
  - rewrite pretty_N_go_0. exact Hs.
  - rewrite pretty_N_go_step by exact Hx. apply IH.
    + apply N.div_lt; lia.
    + simpl. rewrite numChar_pretty_N_char. exact Hs.
Qed.

Lemma allNumChars_pretty_N (n : N) : allNumChars (pretty n) = true.
Proof.
  unfold pretty, pretty_N. case_decide; [reflexivity|].
  apply allNumChars_pretty_N_go. reflexivity.
Qed.

Lemma allNumChars_pretty_Z (n : Z) : allNumChars (pretty n) = true.
Proof.
  destruct n as [|p|p]; [reflexivity| |].
  - apply (allNumChars_pretty_N (N.pos p)).
  - change (pretty (Z.neg p)) with ("-" +:+ pretty (N.pos p)).
    rewrite app_cons. simpl. apply (allNumChars_pretty_N (N.pos p)).
Qed.

Lemma numeral_prefix_free d d' r r' :
  allNumChars d = true -> allNumChars d' = true ->
  endsValue r -> endsValue r' ->
  d +:+ r = d' +:+ r' -> d = d' /\ r = r'.
Proof.
  revert d'. induction d as [|c d IH]; intros [|c' d'] Hd Hd' Hr Hr' H.
  - split; [reflexivity | exact H].
  - exfalso. rewrite app_cons in H. change ("" +:+ r) with r in H. subst r.
    simpl in Hd', Hr. apply andb_true_iff in Hd' as [Hc _]. congruence.
  - exfalso. rewrite app_cons in H. change ("" +:+ r') with r' in H. subst r'.
    simpl in Hd, Hr'. apply andb_true_iff in Hd as [Hc _]. congruence.
  - rewrite !app_cons in H. injection H as -> H.
    simpl in Hd, Hd'. apply andb_true_iff in Hd as [_ Hd].
    apply andb_true_iff in Hd' as [_ Hd'].
    destruct (IH d' Hd Hd' Hr Hr' H) as [-> ->]. split; reflexivity.
Qed.

Lemma pretty_N_go_nonempty x s : s <> "" -> pretty_N_go x s <> "".
Proof.
  revert s. induction (N.lt_wf_0 x) as [x _ IH]; intros s Hs.
  assert (x = 0 \/ 0 < x)%N as [->|Hx] by lia.
  - rewrite pretty_N_go_0. exact Hs.
  - rewrite pretty_N_go_step by exact Hx. apply IH; [|discriminate].
    apply N.div_lt; lia.
Qed.

Lemma pretty_N_nonempty (n : N) : pretty n <> "".
Proof.
  unfold pretty, pretty_N. case_decide; [discriminate|].
  assert (0 < n)%N as Hn by lia.
  rewrite pretty_N_go_step by exact Hn. apply pretty_N_go_nonempty. discriminate.
Qed.

Lemma pretty_Z_nonempty (n : Z) : pretty n <> "".
Proof.
  destruct n as [|p|p]; [discriminate | apply (pretty_N_nonempty (N.pos p)) |].
  change (pretty (Z.neg p)) with ("-" +:+ pretty (N.pos p)).
  rewrite app_cons. discriminate.
Qed.

Lemma kindOfHead_numChar c : numChar c = true -> kindOfHead c = Some KNum.
Proof.
  unfold kindOfHead, numChar. intros H.
  destruct (N.eqb_spec (Ascii.N_of_ascii c) 110) as [E|_];
    [rewrite E in H; discriminate H|].
  destruct (N.eqb_spec (Ascii.N_of_ascii c) 116) as [E|_];
    [rewrite E in H; discriminate H|].
  destruct (N.eqb_spec (Ascii.N_of_ascii c) 102) as [E|_];
    [rewrite E in H; discriminate H|].
  fold (numChar c). unfold numChar. rewrite H. reflexivity.
Qed.

Lemma wrap_head (o cl : ascii) gap stepback indent partial :
  exists rest,
    Json.wrap (String o "") (String cl "") gap stepback indent partial
    = String o rest.
Proof.
  unfold Json.wrap. destruct partial; [|destruct (decide (gap = ""))];
    rewrite app_cons; eexists; reflexivity.
Qed.

Lemma SerializeJSONProperty_head gap indent v :
  exists c rest,
    Json.SerializeJSONProperty gap indent v = String c rest /\
    kindOfHead c = Some (kind v).
Proof.
  destruct v as [|[]|[| | | |n safe]|s|items|props]; simpl;
    try (eexists _, _; split; reflexivity).
  - pose proof (allNumChars_pretty_Z n) as Hn.
    pose proof (pretty_Z_nonempty n) as Hne.
    destruct (pretty n) as [|c rest]; [congruence|].
    exists c, rest. split; [reflexivity|].
    simpl in Hn. apply andb_true_iff in Hn as [Hc _].
    apply kindOfHead_numChar, Hc.
  - destruct (wrap_head "[" "]" gap indent (indent +:+ gap)
               (map (Json.SerializeJSONProperty gap (indent +:+ gap)) items))
      as [rest ->].
    eexists _, _. split; reflexivity.
  - match goal with |- context [Json.wrap _ _ _ _ _ ?p] =>
      destruct (wrap_head "{" "}" gap indent (indent +:+ gap) p) as [rest ->] end.
    eexists _, _. split; reflexivity.
Qed.

Lemma same_kind gap indent v v' r r' :
  Json.SerializeJSONProperty gap indent v +:+ r
  = Json.SerializeJSONProperty gap indent v' +:+ r' ->
  kind v = kind v'.
Proof.
  destruct (SerializeJSONProperty_head gap indent v) as (c & rest & -> & Hc).
  destruct (SerializeJSONProperty_head gap indent v') as (c' & rest' & -> & Hc').
  rewrite !app_cons. intros [= -> _]. congruence.
Qed.

Lemma join_cons2 sep (a b : string) (l : list string) :
  Json.join sep (a :: b :: l) = a +:+ sep +:+ Json.join sep (b :: l).
Proof. reflexivity. Qed.

Lemma join_prefix_free {A} (ok : A -> Prop) (ser : A -> string)
    (sep0 U U' : string) (x : A) (rest : list A) (x' : A) (rest' : list A) :
  Forall (PrefixFree ok ser) (x :: rest) ->
  Forall ok (x' :: rest') ->
  Json.join ("," +:+ sep0) (map ser (x :: rest)) +:+ Json.LF +:+ U
  = Json.join ("," +:+ sep0) (map ser (x' :: rest')) +:+ Json.LF +:+ U' ->
  x :: rest = x' :: rest' /\ U = U'.
Proof.
  revert x x' rest'. induction rest as [|y rest IH]; intros x x' rest' HF Hok H;
    apply Forall_cons in HF as [Hx HF]; apply Forall_cons in Hok as [Hx' Hok];
    destruct rest' as [|y' rest'];
    cbn [map] in H; rewrite ?join_cons2, ?app_assoc3 in H;
    apply (Hx x' _ _ Hx') in H as [-> H]; try reflexivity.
  - apply (inj (String.app Json.LF)) in H. subst. split; reflexivity.
  - discriminate H.
  - discriminate H.
  - apply (inj (String.app ("," +:+ sep0))) in H.
    apply IH in H as [-> ->]; [split; reflexivity | exact HF | exact Hok].
Qed.

Lemma isJson_Arr (items : list Json.value) :
  isJson (Json.Arr items) -> Forall isJson items.
Proof.
  unfold isJson. cbn [jsonOf]. intros [= H].
  induction items as [|x items IH]; [constructor|].
  injection H as Hx H. constructor; [exact Hx | apply IH, H].
Qed.

Lemma isJson_Obj (props : list (string * Json.value)) :
  isJson (Json.Obj props) -> Forall (fun kv => isJson (snd kv)) props.
Proof.
  unfold isJson. cbn [jsonOf]. intros [= H].
  induction props as [|[k x] props IH]; [constructor|].
  injection H as Hx H. constructor; [exact Hx | apply IH, H].
Qed.

Lemma isJson_jsonOf (v : Json.value) : isJson (jsonOf v).
Proof.
  unfold isJson.
  induction v as [|b|x|s|items IH|props IH] using value_nested_ind;
    try reflexivity.
  - destruct x; reflexivity.
  - cbn [jsonOf]. f_equal.
    induction IH as [|x items Hx _ IH']; [reflexivity|].
    cbn [map]. rewrite Hx, IH'. reflexivity.
  - cbn [jsonOf]. f_equal.
    induction IH as [|kv props Hkv _ IH']; [reflexivity|].
    cbn [map fst snd]. rewrite Hkv, IH'. reflexivity.
Qed.

Lemma SerializeJSONProperty_jsonOf (gap : string) (v : Json.value) :
  forall indent,
    Json.SerializeJSONProperty gap indent (jsonOf v)
    = Json.SerializeJSONProperty gap indent v.
Proof.
  induction v as [|b|x|s|items IH|props IH] using value_nested_ind;
    intros indent; try reflexivity.
  - destruct x; reflexivity.
  - cbn [jsonOf Json.SerializeJSONProperty]. f_equal.
    induction IH as [|x items Hx _ IH']; [reflexivity|].
    cbn [map]. rewrite Hx, IH'. reflexivity.
  - cbn [jsonOf Json.SerializeJSONProperty]. f_equal.
    induction IH as [|kv props Hkv _ IH']; [reflexivity|].
    cbn [map fst snd]. rewrite Hkv, IH'. reflexivity.
Qed.

Section PrefixFreeSerialisation.

Variable gap : string.
Hypothesis gap_nonempty : gap <> "".

Lemma wrap_prefix_free {A} (ok : A -> Prop) (ser : A -> string) (o cl : ascii)
    (stepback indent r r' : string) (l l' : list A) :
  cl <> Ascii.ascii_of_N 10 ->
  Forall (PrefixFree ok ser) l ->
  Forall ok l' ->
  Json.wrap (String o "") (String cl "") gap stepback indent (map ser l) +:+ r
  = Json.wrap (String o "") (String cl "") gap stepback indent (map ser l') +:+ r' ->
  l = l' /\ r = r'.
Proof.
  intros Hcl HF Hok. unfold Json.wrap.
  destruct (decide (gap = "")) as [E|_]; [contradiction|].
  destruct l as [|x rest], l' as [|x' rest']; cbn [map];
    rewrite ?app_assoc3; intros H;
    apply (inj (String.app (String o ""))) in H.
  - apply (inj (String.app (String cl ""))) in H. split; [reflexivity | exact H].
  - exfalso. unfold Json.LF in H. rewrite !app_cons in H.
    injection H as H _. contradiction.
  - exfalso. unfold Json.LF in H. rewrite !app_cons in H.
    injection H as H _. symmetry in H. contradiction.
  - apply (inj (String.app Json.LF)), (inj (String.app indent)) in H.
    change (Json.join ("," +:+ Json.LF +:+ indent) (ser x :: map ser rest))
      with (Json.join ("," +:+ (Json.LF +:+ indent)) (map ser (x :: rest))) in H.
    change (Json.join ("," +:+ Json.LF +:+ indent) (ser x' :: map ser rest'))
      with (Json.join ("," +:+ (Json.LF +:+ indent)) (map ser (x' :: rest'))) in H.
    apply (join_prefix_free ok) in H as [Hl H]; [|exact HF|exact Hok].
    apply (inj (String.app stepback)), (inj (String.app (String cl ""))) in H.
    split; [exact Hl | exact H].
Qed.

Lemma member_prefix_free (indent : string) (kv : string * Json.value) :
  PrefixFree isJson (Json.SerializeJSONProperty gap indent) (snd kv) ->
  PrefixFree (fun kv => isJson (snd kv))
    (fun kv => Json.member gap (fst kv)
                 (Json.SerializeJSONProperty gap indent (snd kv))) kv.
Proof.
  destruct kv as [k v]. simpl. intros Hv [k' v'] T T' Hok HT HT'.
  unfold Json.member. simpl.
  destruct (decide (gap = "")) as [E|_]; [contradiction|].
  rewrite !app_assoc3. intros H.
  apply QuoteJSONString_prefix_free in H as [-> H].
  apply (inj (String.app ":")), (inj (String.app " ")) in H.
  apply Hv in H as [-> ->]; [split; reflexivity | exact Hok | exact HT | exact HT'].
Qed.

Lemma SerializeJSONProperty_prefix_free (v : Json.value) :
  isJson v ->
  forall indent, PrefixFree isJson (Json.SerializeJSONProperty gap indent) v.
Proof.
  induction v as [|b|x|s|items IH|props IH] using value_nested_ind;
    intros Hv indent v' T T' Hv' HT HT' H;
    pose proof (same_kind _ _ _ _ _ _ H) as Hk;
    destruct v' as [|b'|x'|s'|items'|props'];
    try (destruct x as [| | | |n safe]; try discriminate Hv);
    try (destruct x' as [| | | |n' safe']; try discriminate Hv');
    try discriminate Hk;
    try (destruct b; discriminate Hk); try (destruct b'; discriminate Hk).
  - apply (inj (String.app "null")) in H. split; [reflexivity | exact H].
  - destruct b, b'; try discriminate Hk; simpl in H.
    + apply (inj (String.app "true")) in H. split; [reflexivity | exact H].
    + apply (inj (String.app "false")) in H. split; [reflexivity | exact H].
  - simpl in H.
    apply numeral_prefix_free in H as [H ->];
      [| apply allNumChars_pretty_Z | apply allNumChars_pretty_Z
       | exact HT | exact HT'].
    apply (inj pretty) in H. subst n'.
    rewrite (proof_irrel safe safe'). split; reflexivity.
  - simpl in H. apply QuoteJSONString_prefix_free in H as [-> ->].
    split; reflexivity.
  - simpl in H. apply isJson_Arr in Hv. apply isJson_Arr in Hv'.
    apply (wrap_prefix_free isJson) in H as [-> ->].
    + split; reflexivity.
    + discriminate.
    + apply Forall_forall. intros x Hx.
      rewrite Forall_forall in IH, Hv. apply IH; [exact Hx | apply Hv, Hx].
    + exact Hv'.
  - simpl in H. apply isJson_Obj in Hv. apply isJson_Obj in Hv'.
    apply (wrap_prefix_free (fun kv => isJson (snd kv))
             (fun kv => Json.member gap (fst kv)
                (Json.SerializeJSONProperty gap (indent +:+ gap) (snd kv))))
      in H as [-> ->].
    + split; reflexivity.
    + discriminate.
    + apply Forall_forall. intros kv Hkv.
      rewrite Forall_forall in IH, Hv.
      apply member_prefix_free, IH; [exact Hkv | apply Hv, Hkv].
    + exact Hv'.
Qed.

End PrefixFreeSerialisation.

Lemma stringify_inj (v v' : Json.value) :
  Json.stringify v 2 = Json.stringify v' 2 <-> jsonOf v = jsonOf v'.
Proof.
  unfold Json.stringify. split; intros H.
  - rewrite <- (SerializeJSONProperty_jsonOf _ v),
            <- (SerializeJSONProperty_jsonOf _ v') in H.
    apply (SerializeJSONProperty_prefix_free "  " ltac:(discriminate)
             (jsonOf v) (isJson_jsonOf v) "" (jsonOf v') "" "").
    + apply isJson_jsonOf.
    + exact I.
    + exact I.
    + rewrite !app_empty_r. exact H.
  - rewrite <- (SerializeJSONProperty_jsonOf _ v),
            <- (SerializeJSONProperty_jsonOf _ v'), H.
    reflexivity.
Qed.

Lemma entryValue_inj (e e' : FiberJs.Entry.t) :
  FiberJs.entryValue e = FiberJs.entryValue e' -> e = e'.
Proof.
  destruct e as [s c [x|]], e' as [s' c' [x'|]]; unfold FiberJs.entryValue; simpl;
    intros [=]; subst; reflexivity.
Qed.

Lemma map_inj {A B} (f : A -> B) (l l' : list A) :
  (forall a a', f a = f a' -> a = a') -> map f l = map f l' -> l = l'.
Proof.
  intros Hf. revert l'. induction l as [|a l IH]; intros [|a' l'] H;
    try discriminate H; [reflexivity|].
  injection H as Ha H. f_equal; [apply Hf, Ha | apply IH, H].
Qed.

Lemma jsonOf_entryValue (e : FiberJs.Entry.t) :
  jsonOf (FiberJs.entryValue e) = FiberJs.entryValue (jsonEntry e).
Proof. destruct e as [s c [x|]]; reflexivity. Qed.

Lemma jsonOf_lineageValue (o : FiberJs.Object) :
  jsonOf (FiberJs.lineageValue o)
  = Json.Obj [("id", Json.Str (FiberJs.id o));
              ("history",
               Json.Arr (map FiberJs.entryValue (map jsonEntry (FiberJs.history o))));
              ("markers", Json.Arr (map Json.Str (FiberJs.markers o)))].
Proof.
  unfold FiberJs.lineageValue. cbn [jsonOf map fst snd].
  rewrite !map_map.
  rewrite (map_ext _ _ jsonOf_entryValue).
  reflexivity.
Qed.

Lemma lineage_text_determines_state (o o' : FiberJs.Object) :
  Json.stringify (FiberJs.lineageValue o) 2
  = Json.stringify (FiberJs.lineageValue o') 2 <->
  FiberJs.id o = FiberJs.id o' /\
  jsonEntry <$> FiberJs.history o = jsonEntry <$> FiberJs.history o' /\
  FiberJs.markers o = FiberJs.markers o'.
Proof.
  rewrite stringify_inj, !jsonOf_lineageValue. split.
  - intros H. injection H as Hid Hh Hm.
    split; [exact Hid|]. split.
    + apply (map_inj FiberJs.entryValue); [apply entryValue_inj | exact Hh].
    + apply (map_inj Json.Str); [intros a a' [=]; assumption | exact Hm].
  - intros (Hid & Hh & Hm). rewrite Hid, Hm.
    change (map jsonEntry (FiberJs.history o)) with (jsonEntry <$> FiberJs.history o).
    change (map jsonEntry (FiberJs.history o')) with (jsonEntry <$> FiberJs.history o').
    rewrite Hh. reflexivity.
Qed.

(** ** The lineage export *)

Section LineageExport.

Import FiberJs.

Implicit Types (st : Store) (this : ref) (o : Object) (c : Call).

Lemma export_has_id o :
  Substring (Json.QuoteJSONString (id o)) (Json.stringify (lineageValue o) 2).
Proof.
  apply (SerializeJSONProperty_Obj_value "  " "" "id" (Json.Str (id o))).
  apply list_elem_of_here.
Qed.

Lemma export_has_entry o (e : Entry.t) :
  e ∈ history o ->
  Substring (Json.SerializeJSONProperty "  " "    " (entryValue e))
            (Json.stringify (lineageValue o) 2).
Proof.
  intros He. eapply Substring_trans.
  - apply (SerializeJSONProperty_Arr_elem "  " "  " (entryValue e)
             (map entryValue (history o))).
    apply (list_elem_of_fmap_2 entryValue), He.
  - apply (SerializeJSONProperty_Obj_value "  " "" "history").
    apply list_elem_of_further, list_elem_of_here.
Qed.

Lemma export_has_marker o (m : string) :
  m ∈ markers o ->
  Substring (Json.QuoteJSONString m) (Json.stringify (lineageValue o) 2).
Proof.
  intros Hm. eapply Substring_trans.
  - apply (SerializeJSONProperty_Arr_elem "  " "  " (Json.Str m)
             (map Json.Str (markers o))).
    apply (list_elem_of_fmap_2 Json.Str), Hm.
  - apply (SerializeJSONProperty_Obj_value "  " "" "markers").
    do 2 apply list_elem_of_further. apply list_elem_of_here.
Qed.

(** C6: on an allocated Fiber, [exportLineage()] returns the text
    [JSON.stringify({id, history, markers}, null, 2)] and leaves the
    store, hence the Fiber's id, colour, history and markers, as it
    was; two calls in a row return the same text; the text contains
    the quoted id, the serialisation of every history entry and every
    quoted marker; and it is a snapshot of exactly these: a Fiber
    exports the same text exactly when it has the same id, the same
    markers and the same history as a reader gets it back, that is, up
    to the [null] and [0] that JSON writes for a NaN, an infinity or a
    negative zero inside a context payload. *)
Theorem exportLineage_is_a_pure_repeatable_read st this o :
  st !! this = Some o ->
  exists text,
    text = Json.stringify (lineageValue o) 2 /\
    exportLineage this st = Some (text, st) /\
    invoke this CallExportLineage st = Some (RText text, st) /\
    (t1 ← exportLineage this; t2 ← exportLineage this; mret (t1, t2)) st
      = Some ((text, text), st) /\
    Substring (Json.QuoteJSONString (id o)) text /\
    (forall e, e ∈ history o ->
       Substring (Json.SerializeJSONProperty "  " "    " (entryValue e)) text) /\
    (forall m, m ∈ markers o -> Substring (Json.QuoteJSONString m) text) /\
    (forall st' this' o',
       st' !! this' = Some o' ->
       exportLineage this' st' = Some (text, st') <->
       id o' = id o /\
       jsonEntry <$> history o' = jsonEntry <$> history o /\
       markers o' = markers o).
Proof.
  intros H. eexists. split; [reflexivity|].
  split; [apply exportLineage_run, H|].
  split.
  { rewrite (invoke_run st this o CallExportLineage) by exact H.
    simpl. rewrite insert_id by exact H. reflexivity. }
  split.
  { unfold mbind, M_bind, bind, mret, M_ret, ret.
    rewrite !(exportLineage_run st this o) by exact H. reflexivity. }
  split; [apply export_has_id|].
  split; [apply export_has_entry|].
  split; [apply export_has_marker|].
  intros st' this' o' H'.
  rewrite (exportLineage_run st' this' o') by exact H'.
  rewrite <- lineage_text_determines_state.
  generalize (Json.stringify (lineageValue o') 2),
             (Json.stringify (lineageValue o) 2).
  intros a b. split; [intros [= ->] | intros ->]; reflexivity.
Qed.

Lemma history_effects_contexts (cs : list Call) o :
  exists rest,
    history (effects cs o) = history o ++ rest /\
    Forall (fun e => is_Some (Entry.context e)) rest.
Proof.
  revert o. induction cs as [|c cs IH]; intros o; simpl.
  - exists []. rewrite app_nil_r. split; [reflexivity | constructor].
  - destruct (IH (effect c o)) as (rest & -> & Hrest).
    rewrite history_effect, <- app_assoc. eexists. split; [reflexivity|].
    apply Forall_app. split; [|exact Hrest].
    destruct c; repeat constructor. eexists; reflexivity.
Qed.

(** C10: a [transform] call without a context appends an entry whose
    [context] property is present and [null]; the exported text then
    contains that entry's serialisation, which ends in the line
    ["context": null]; and in every Fiber built by the constructor and
    any calls, each history entry after the first carries a [context]
    property. *)
Theorem omitted_context_is_recorded_as_null
    st this o (type color : string) :
  st !! this = Some o ->
  (exists o' text,
     invoke this (CallTransform type color None) st
       = Some (RRef this, <[this := o']> st) /\
     history o' = history o ++ [Entry.Build type color (Some Json.Null)] /\
     exportLineage this (<[this := o']> st) = Some (text, <[this := o']> st) /\
     Json.SerializeJSONProperty "  " "    "
         (entryValue (Entry.Build type color (Some Json.Null)))
       = "{" +:+ Json.LF
         +:+ "      " +:+ Json.DQUOTE +:+ "stage" +:+ Json.DQUOTE +:+ ": "
         +:+ Json.QuoteJSONString type +:+ "," +:+ Json.LF
         +:+ "      " +:+ Json.DQUOTE +:+ "color" +:+ Json.DQUOTE +:+ ": "
         +:+ Json.QuoteJSONString color +:+ "," +:+ Json.LF
         +:+ "      " +:+ Json.DQUOTE +:+ "context" +:+ Json.DQUOTE +:+ ": null"
         +:+ Json.LF +:+ "    }" /\
     Substring (Json.SerializeJSONProperty "  " "    "
                  (entryValue (Entry.Build type color (Some Json.Null)))) text /\
     Substring (Json.DQUOTE +:+ "context" +:+ Json.DQUOTE +:+ ": null") text) /\
  (forall (C : Class) (id : string) (colorStart : option string)
          (cs : list Call) st0,
     exists o1 rest,
       objectAfter C id colorStart cs st0 = Some o1 /\
       history o1
         = Entry.Build "start" (default "gold" colorStart) None :: rest /\
       Forall (fun e => is_Some (Entry.context e)) rest).
Proof.
  intros H. split.
  - set (e := Entry.Build type color (Some Json.Null)).
    set (o' := effect (CallTransform type color None) o).
    assert (He : e ∈ history o').
    { unfold o'. simpl. apply elem_of_app. right. apply list_elem_of_here. }
    exists o', (Json.stringify (lineageValue o') 2).
    split; [apply (invoke_run st this o (CallTransform type color None)), H|].
    split; [reflexivity|].
    split; [apply exportLineage_run, lookup_insert_eq|].
    assert (Hshape :
      Json.SerializeJSONProperty "  " "    " (entryValue e)
      = "{" +:+ Json.LF
         +:+ "      " +:+ Json.DQUOTE +:+ "stage" +:+ Json.DQUOTE +:+ ": "
         +:+ Json.QuoteJSONString type +:+ "," +:+ Json.LF
         +:+ "      " +:+ Json.DQUOTE +:+ "color" +:+ Json.DQUOTE +:+ ": "
         +:+ Json.QuoteJSONString color +:+ "," +:+ Json.LF
         +:+ "      " +:+ Json.DQUOTE +:+ "context" +:+ Json.DQUOTE +:+ ": null"
         +:+ Json.LF +:+ "    }").
    { unfold e. cbn. rewrite !app_assoc3. reflexivity. }
    split; [exact Hshape|].
    split; [apply export_has_entry, He|].
    eapply Substring_trans; [|apply export_has_entry, He].
    rewrite Hshape.
    do 19 apply Substring_app_r.
    exists "", (Json.LF +:+ "    }"). rewrite !app_assoc3. reflexivity.
  - intros C id0 colorStart cs st0.
    destruct (history_effects_contexts cs (initial C id0 colorStart))
      as (rest & Hh & Hrest).
    exists (effects cs (initial C id0 colorStart)), rest.
    split; [apply objectAfter_run|]. split; [exact Hh | exact Hrest].
Qed.

End LineageExport.

Lemma transform_appends_one_entry_and_returns_receiver_witness :
  oneFiber !! 1%positive = Some f0 /\
  exists o' o'',
    FiberJs.transform 1%positive "spin" "lightgreen" None oneFiber
      = Some (1%positive, <[1%positive := o']> oneFiber) /\
    FiberJs.invoke 1%positive (FiberJs.CallTransform "spin" "lightgreen" None) oneFiber
      = Some (FiberJs.RRef 1%positive, <[1%positive := o']> oneFiber) /\
    FiberJs.history o' = FiberJs.history f0 ++
      [FiberJs.Entry.Build "spin" "lightgreen" (Some Json.Null)] /\
    FiberJs.color o' = "lightgreen" /\
    FiberJs.markers o' = FiberJs.markers f0 /\
    FiberJs.id o' = FiberJs.id f0 /\
    FiberJs.proto o' = FiberJs.proto f0 /\
    (r ← FiberJs.transform 1%positive "spin" "lightgreen" None;
     FiberJs.transform r "warp" "springgreen" (Some (Json.Str "slot 3"))) oneFiber
      = Some (1%positive, <[1%positive := o'']> oneFiber) /\
    FiberJs.history o'' = FiberJs.history f0 ++
      [FiberJs.Entry.Build "spin" "lightgreen" (Some Json.Null);
       FiberJs.Entry.Build "warp" "springgreen" (Some (Json.Str "slot 3"))].
Proof.
  split; [reflexivity|].
  apply (transform_appends_one_entry_and_returns_receiver
           oneFiber 1%positive f0 "spin" "lightgreen" None
           "warp" "springgreen" (Some (Json.Str "slot 3"))).
  reflexivity.
Defined.

Lemma addMarker_appends_and_keeps_lineage_witness :
  oneFiber !! 1%positive = Some f0 /\
  exists o' o'',
    FiberJs.addMarker 1%positive "violet" oneFiber
      = Some (1%positive, <[1%positive := o']> oneFiber) /\
    FiberJs.invoke 1%positive (FiberJs.CallAddMarker "violet") oneFiber
      = Some (FiberJs.RRef 1%positive, <[1%positive := o']> oneFiber) /\
    FiberJs.markers o' = FiberJs.markers f0 ++ ["violet"] /\
    FiberJs.history o' = FiberJs.history f0 /\
    FiberJs.color o' = FiberJs.color f0 /\
    FiberJs.id o' = FiberJs.id f0 /\
    FiberJs.proto o' = FiberJs.proto f0 /\
    (r ← FiberJs.addMarker 1%positive "violet"; FiberJs.addMarker r "violet") oneFiber
      = Some (1%positive, <[1%positive := o'']> oneFiber) /\
    FiberJs.markers o'' = FiberJs.markers f0 ++ ["violet"; "violet"] /\
    FiberJs.history o'' = FiberJs.history f0 /\
    FiberJs.color o'' = FiberJs.color f0.
Proof.
  split; [reflexivity|].
  apply (addMarker_appends_and_keeps_lineage oneFiber 1%positive f0 "violet").
  reflexivity.
Defined.

Lemma exportLineage_is_a_pure_repeatable_read_witness :
  oneFiber !! 1%positive = Some f0 /\
  exists text,
    text = Json.stringify (FiberJs.lineageValue f0) 2 /\
    FiberJs.exportLineage 1%positive oneFiber = Some (text, oneFiber) /\
    FiberJs.invoke 1%positive FiberJs.CallExportLineage oneFiber
      = Some (FiberJs.RText text, oneFiber) /\
    (t1 ← FiberJs.exportLineage 1%positive;
     t2 ← FiberJs.exportLineage 1%positive; mret (t1, t2)) oneFiber
      = Some ((text, text), oneFiber) /\
    Substring (Json.QuoteJSONString (FiberJs.id f0)) text /\
    (forall e, e ∈ FiberJs.history f0 ->
       Substring (Json.SerializeJSONProperty "  " "    " (FiberJs.entryValue e)) text) /\
    (forall m, m ∈ FiberJs.markers f0 -> Substring (Json.QuoteJSONString m) text) /\
    (forall st' this' o',
       st' !! this' = Some o' ->
       FiberJs.exportLineage this' st' = Some (text, st') <->
       FiberJs.id o' = FiberJs.id f0 /\
       jsonEntry <$> FiberJs.history o' = jsonEntry <$> FiberJs.history f0 /\
       FiberJs.markers o' = FiberJs.markers f0).
Proof.
  split; [reflexivity|].
  apply (exportLineage_is_a_pure_repeatable_read oneFiber 1%positive f0).
  reflexivity.
Defined.

Lemma omitted_context_is_recorded_as_null_witness :
  oneFiber !! 1%positive = Some f0 /\
  exists o' text,
    FiberJs.invoke 1%positive (FiberJs.CallTransform "weft" "darkgreen" None) oneFiber
      = Some (FiberJs.RRef 1%positive, <[1%positive := o']> oneFiber) /\
    FiberJs.history o' = FiberJs.history f0 ++
      [FiberJs.Entry.Build "weft" "darkgreen" (Some Json.Null)] /\
    FiberJs.exportLineage 1%positive (<[1%positive := o']> oneFiber)
      = Some (text, <[1%positive := o']> oneFiber) /\
    Substring (Json.DQUOTE +:+ "context" +:+ Json.DQUOTE +:+ ": null") text.
Proof.
  split; [reflexivity|].
  destruct (omitted_context_is_recorded_as_null
              oneFiber 1%positive f0 "weft" "darkgreen")
    as [(o' & text & H1 & H2 & H3 & _ & _ & H4) _]; [reflexivity|].
  exists o', text. repeat split; assumption.
Defined.

(** ** The transcription service *)

Lemma length_string_app (s t : string) :
  String.length (s +:+ t) = String.length s + String.length t.
Proof.
  induction s as [|c s IH]; [reflexivity|].
  rewrite app_cons. simpl. rewrite IH. reflexivity.
Qed.

Lemma string_app_cancel_r (s1 s2 t : string) :
  s1 +:+ t = s2 +:+ t -> s1 = s2.
Proof.
  revert s2. induction s1 as [|c s1 IH]; intros [|d s2] H.
  - reflexivity.
  - apply (f_equal String.length) in H.
    rewrite !length_string_app in H. simpl in H. lia.
  - apply (f_equal String.length) in H.
    rewrite !length_string_app in H. simpl in H. lia.
  - rewrite !app_cons in H. injection H as -> H. f_equal. apply IH, H.
Qed.

Lemma resultFor_inj (n m : N) : resultFor n = resultFor m -> n = m.
Proof.
  unfold resultFor. intros [= H].
  apply (inj pretty). eapply string_app_cancel_r. exact H.
Qed.

Lemma format_length (format : Whisper.AudioFormat) :
  String.length (Whisper.formatText format) = 3.
Proof. destruct format; reflexivity. Qed.

(** The claim of C7 fails on the buffer of the service's own test:
    [transcribeRawAudio(new ArrayBuffer(4), 'wav')] reports 7 bytes, not
    the 4 that were supplied. *)
Lemma transcribeRawAudio_reports_seven_for_four_bytes :
  Whisper.byteLength fourBytes = 4%N /\
  Whisper.transcribeRawAudio fourBytes Whisper.wav
    = Whisper.Fulfilled (resultFor 7) /\
  Whisper.transcribeRawAudio fourBytes Whisper.wav
    <> Whisper.Fulfilled (resultFor (Whisper.byteLength fourBytes)).
Proof.
  split; [reflexivity|]. split; [reflexivity|].
  intros H. vm_compute in H. discriminate H.
Qed.

(** C7, amended: the service calls no model.  [transcribeRawAudio]
    fulfils with the text [transcribed ${n + 3} bytes], where [n] is the
    byte length of the buffer and 3 the length of the format name, which
    therefore never is the text for [n] itself; [transcribeAudioFile] on
    a readable file of [n] bytes fulfils with [transcribed ${n} bytes];
    both with confidence 1 and no timestamps. *)
Theorem transcription_reports_a_byte_count
    (buffer : Whisper.Buffer) (format : Whisper.AudioFormat)
    (fs : gmap string Whisper.Buffer) (filePath : string) (buf : Whisper.Buffer) :
  fs !! filePath = Some buf ->
  Whisper.transcribeRawAudio buffer format
    = Whisper.Fulfilled (resultFor (Whisper.byteLength buffer + 3)) /\
  Whisper.transcribeRawAudio buffer format
    <> Whisper.Fulfilled (resultFor (Whisper.byteLength buffer)) /\
  Whisper.transcribeAudioFile fs filePath
    = Whisper.Fulfilled (resultFor (Whisper.byteLength buf)) /\
  Whisper.confidence (resultFor (Whisper.byteLength buf)) = 1%Z /\
  Whisper.timestamps (resultFor (Whisper.byteLength buf)) = [].
Proof.
  intros Hfile.
  assert (Hraw : Whisper.transcribeRawAudio buffer format
                 = Whisper.Fulfilled (resultFor (Whisper.byteLength buffer + 3))).
  { unfold Whisper.transcribeRawAudio. rewrite format_length. reflexivity. }
  split; [exact Hraw|]. split.
  - rewrite Hraw. intros H.
    assert (H' : resultFor (Whisper.byteLength buffer + 3)
                 = resultFor (Whisper.byteLength buffer)) by congruence.
    apply resultFor_inj in H'. lia.
  - split; [|split; reflexivity].
    unfold Whisper.transcribeAudioFile. rewrite Hfile. reflexivity.
Qed.

Lemma transcription_reports_a_byte_count_witness :
  oneFile !! "clip.wav" = Some fourBytes /\
  Whisper.transcribeRawAudio fourBytes Whisper.mp3
    = Whisper.Fulfilled (resultFor (Whisper.byteLength fourBytes + 3)) /\
  Whisper.transcribeRawAudio fourBytes Whisper.mp3
    <> Whisper.Fulfilled (resultFor (Whisper.byteLength fourBytes)) /\
  Whisper.transcribeAudioFile oneFile "clip.wav"
    = Whisper.Fulfilled (resultFor (Whisper.byteLength fourBytes)) /\
  Whisper.confidence (resultFor (Whisper.byteLength fourBytes)) = 1%Z /\
  Whisper.timestamps (resultFor (Whisper.byteLength fourBytes)) = [].
Proof.
  split; [reflexivity|].
  apply (transcription_reports_a_byte_count
           fourBytes Whisper.mp3 oneFile "clip.wav" fourBytes).
  reflexivity.
Defined.

(** ** More about [filterFibers] *)

Lemma Array_filter_loop_throws {A} (cb : A -> Completion bool) (O res : list A) :
  Array_filter_loop cb O res = Throw TypeError
  <-> Exists (fun x => cb x = Throw TypeError) O.
Proof.
  revert res. induction O as [|x O IH]; intros res; cbn [Array_filter_loop].
  - split; [discriminate | intros H; inversion H].
  - rewrite Exists_cons. destruct (cb x) as [b|[]]; cbn [cbind].
    + rewrite IH. split; [auto | intros [H|H]; [discriminate H | exact H]].
    + split; [auto | reflexivity].
Qed.

Lemma predicate_throws lower q (f : Viewer.Fiber) :
  Viewer.predicate lower q f = Throw TypeError <-> Viewer.content f = None.
Proof.
  unfold Viewer.predicate, Viewer.callToLowerCase.
  destruct (Viewer.content f) as [c|]; cbn [cbind].
  - destruct (JsString.includes (lower c) q); split; discriminate.
  - split; reflexivity.
Qed.

(** [filterFibers] throws a TypeError exactly when some unit of the list
    has no [content], whatever the query and wherever the unit stands:
    one such unit loses the whole result. *)
Theorem filterFibers_throws_iff_some_content_is_missing
    (toLowerCase : string -> string) (list : list Viewer.Fiber) (q : string) :
  Viewer.filterFibers toLowerCase list q = Throw TypeError
  <-> exists f, f ∈ list /\ Viewer.content f = None.
Proof.
  unfold Viewer.filterFibers, Array_filter.
  rewrite Array_filter_loop_throws, Exists_exists.
  split; intros (f & Hin & Hf); exists f; (split; [exact Hin|]).
  - apply predicate_throws in Hf. exact Hf.
  - apply predicate_throws, Hf.
Qed.

Section FilterAlgebra.

Context (toLowerCase : string -> string).
Context (laws : ToLowerCaseLaws toLowerCase).

Implicit Types (list : list Viewer.Fiber) (q : string).

Lemma hasContent_filter (P : Viewer.Fiber -> Prop) `{!forall x, Decision (P x)} list :
  Forall (fun f => is_Some (Viewer.content f)) list ->
  Forall (fun f => is_Some (Viewer.content f)) (filter P list).
Proof.
  intros Hall. eapply Forall_forall. intros f Hf.
  apply list_elem_of_filter in Hf as [_ Hf].
  rewrite Forall_forall in Hall. apply Hall, Hf.
Qed.

Lemma matchesQuery_narrow q q' (f : Viewer.Fiber) :
  Substring (toLowerCase q) (toLowerCase q') ->
  matchesQuery toLowerCase q' f -> matchesQuery toLowerCase q f.
Proof.
  intros Hq [(c & Hc & H) | (t & Ht & H)]; [left; exists c | right; exists t];
    (split; [assumption|]); eapply Substring_trans; eassumption.
Qed.

(** Typing more never adds cards: when the lowercased query [q] occurs in
    the lowercased query [q'], the cards shown for [q'] are a subsequence
    of those shown for [q], and they are what filtering the cards shown
    for [q] by [q'] gives. *)
Theorem refining_the_query_narrows_the_result list q q' :
  Forall (fun f => is_Some (Viewer.content f)) list ->
  Substring (toLowerCase q) (toLowerCase q') ->
  exists r r',
    Viewer.filterFibers toLowerCase list q = Normal r /\
    Viewer.filterFibers toLowerCase list q' = Normal r' /\
    Viewer.filterFibers toLowerCase r q' = Normal r' /\
    r' `sublist_of` r.
Proof.
  intros Hc Hq. eexists _, _.
  split; [apply (filterFibers_filter _ laws), Hc|].
  split; [apply (filterFibers_filter _ laws), Hc|].
  assert (Hff : filter (matchesQuery toLowerCase q')
                  (filter (matchesQuery toLowerCase q) list)
                = filter (matchesQuery toLowerCase q') list).
  { apply list_filter_filter_l. intros f. apply matchesQuery_narrow, Hq. }
  split.
  - rewrite (filterFibers_filter _ laws) by (apply hasContent_filter, Hc).
    rewrite Hff. reflexivity.
  - rewrite <- Hff. apply sublist_filter.
Qed.

(** Filtering twice is filtering by both queries, in either order, and
    filtering again by the same query changes nothing. *)
Theorem filterFibers_commutes_and_is_idempotent list q1 q2 :
  Forall (fun f => is_Some (Viewer.content f)) list ->
  exists r1 r2 r12,
    Viewer.filterFibers toLowerCase list q1 = Normal r1 /\
    Viewer.filterFibers toLowerCase list q2 = Normal r2 /\
    Viewer.filterFibers toLowerCase r1 q2 = Normal r12 /\
    Viewer.filterFibers toLowerCase r2 q1 = Normal r12 /\
    Viewer.filterFibers toLowerCase r1 q1 = Normal r1 /\
    (forall f, f ∈ r12 <->
       f ∈ list /\ matchesQuery toLowerCase q1 f /\ matchesQuery toLowerCase q2 f).
Proof.
  intros Hc. eexists _, _, _.
  split; [apply (filterFibers_filter _ laws), Hc|].
  split; [apply (filterFibers_filter _ laws), Hc|].
  split; [apply (filterFibers_filter _ laws), hasContent_filter, Hc|].
  split; [|split].
  - rewrite (filterFibers_filter _ laws) by (apply hasContent_filter, Hc).
    f_equal. rewrite !list_filter_filter. apply list_filter_iff. tauto.
  - rewrite (filterFibers_filter _ laws) by (apply hasContent_filter, Hc).
    f_equal. apply list_filter_filter_l. auto.
  - intros f. rewrite !list_elem_of_filter. tauto.
Qed.

End FilterAlgebra.

(** ** Dropping a dragged card *)

Section DragAndDrop.

Import ViewerDrop.

Context {A : Type}.
Implicit Types (l : list (option A)) (x : option A).

Lemma Array_splice_remove_one l i x :
  l !! i = Some x ->
  Array_splice l i 1 [] = ([x], delete i l).
Proof.
  intros H. pose proof (lookup_lt_Some _ _ _ H) as Hi.
  unfold Array_splice.
  rewrite (Nat.min_l i) by lia. rewrite (Nat.min_l 1) by lia.
  rewrite delete_take_drop. f_equal.
  - erewrite drop_S by exact H. simpl. rewrite take_0. reflexivity.
  - simpl. rewrite Nat.add_1_r. reflexivity.
Qed.

Lemma Array_splice_remove_none l i :
  length l <= i ->
  Array_splice l i 1 [] = ([], l).
Proof.
  intros Hi. unfold Array_splice.
  rewrite (Nat.min_r i) by lia. rewrite Nat.sub_diag, Nat.min_0_r.
  rewrite take_0, Nat.add_0_r, firstn_all, drop_all, app_nil_r. reflexivity.
Qed.

Lemma Array_splice_insert_one l j x :
  snd (Array_splice l j 0 [x])
  = take (Nat.min j (length l)) l ++ x :: drop (Nat.min j (length l)) l.
Proof. unfold Array_splice. simpl. rewrite Nat.add_0_r. reflexivity. Qed.

Lemma reorder_in_range l i j x :
  l !! i = Some x -> j < length l ->
  reorder l i j = take j (delete i l) ++ x :: drop j (delete i l).
Proof.
  intros H Hj. pose proof (lookup_lt_Some _ _ _ H) as Hi.
  unfold reorder. rewrite (Array_splice_remove_one l i x) by exact H.
  cbn [head mjoin option_join]. rewrite Array_splice_insert_one.
  rewrite length_delete by eauto. rewrite (Nat.min_l j) by lia. reflexivity.
Qed.

Lemma reorder_stale l i j :
  length l <= i ->
  reorder l i j
  = take (Nat.min j (length l)) l ++ None :: drop (Nat.min j (length l)) l.
Proof.
  intros Hi. unfold reorder. rewrite Array_splice_remove_none by exact Hi.
  cbn [head mjoin option_join]. apply Array_splice_insert_one.
Qed.

Lemma insert_at_lookup l j x :
  j <= length l -> (take j l ++ x :: drop j l) !! j = Some x.
Proof.
  intros Hj. rewrite lookup_app_r by (rewrite length_take; lia).
  rewrite length_take, Nat.min_l by lia. rewrite Nat.sub_diag. reflexivity.
Qed.

Lemma insert_at_delete l j x :
  j <= length l -> delete j (take j l ++ x :: drop j l) = l.
Proof.
  intros Hj. rewrite delete_take_drop.
  rewrite take_app_length' by (rewrite length_take; lia).
  rewrite cons_middle, app_assoc.
  rewrite drop_app_length' by (rewrite length_app, length_take; simpl; lia).
  apply take_drop.
Qed.

Lemma reorder_permutation l i j x :
  l !! i = Some x -> j < length l -> reorder l i j ≡ₚ l.
Proof.
  intros H Hj. rewrite (reorder_in_range l i j x) by assumption.
  rewrite <- Permutation_middle, take_drop.
  symmetry. apply delete_Permutation, H.
Qed.

Lemma reorder_lookup l i j x :
  l !! i = Some x -> j < length l -> reorder l i j !! j = Some x.
Proof.
  intros H Hj. rewrite (reorder_in_range l i j x) by assumption.
  apply insert_at_lookup. rewrite length_delete by eauto. lia.
Qed.

Lemma reorder_delete l i j x :
  l !! i = Some x -> j < length l -> delete j (reorder l i j) = delete i l.
Proof.
  intros H Hj. rewrite (reorder_in_range l i j x) by assumption.
  apply insert_at_delete. rewrite length_delete by eauto. lia.
Qed.

Lemma reorder_length l i j x :
  l !! i = Some x -> j < length l -> length (reorder l i j) = length l.
Proof.
  intros H Hj. rewrite (reorder_permutation l i j x) by assumption. reflexivity.
Qed.

End DragAndDrop.

Section OnDrop.

Import ViewerDrop.

Implicit Types (s : State) (l : list Viewer.Fiber).

Lemma onDrop_run s i j :
  dragIndex s = Some i -> i <> j ->
  fst (onDrop j s)
  = {| fibers := reorder (fibers s) i j; dragIndex := None;
       selectedThread := selectedThread s |}.
Proof.
  intros Hd Hij. unfold onDrop. rewrite Hd.
  destruct (decide (i = j)); [contradiction|].
  destruct (truthy (selectedThread s)); reflexivity.
Qed.

Lemma restore_at {A} (l : list A) i x :
  l !! i = Some x ->
  take i (delete i l) ++ x :: drop i (delete i l) = l.
Proof.
  intros H. pose proof (lookup_lt_Some _ _ _ H) as Hi.
  rewrite delete_take_drop.
  rewrite take_app_length' by (rewrite length_take; lia).
  rewrite drop_app_length' by (rewrite length_take; lia).
  apply take_drop_middle, H.
Qed.

(** Dropping the card dragged from position [i] onto position [j] of the
    list moves that card to position [j]: the new list is a permutation
    of the old one, of the same length, holds the dragged card at [j],
    and the other cards keep their relative order; the drag is over and
    the selected thread is kept. *)
Theorem onDrop_moves_the_dragged_card s (i j : nat) (x : option Viewer.Fiber) :
  dragIndex s = Some i ->
  i <> j ->
  fibers s !! i = Some x ->
  j < length (fibers s) ->
  fibers (fst (onDrop j s)) ≡ₚ fibers s /\
  length (fibers (fst (onDrop j s))) = length (fibers s) /\
  fibers (fst (onDrop j s)) !! j = Some x /\
  delete j (fibers (fst (onDrop j s))) = delete i (fibers s) /\
  dragIndex (fst (onDrop j s)) = None /\
  selectedThread (fst (onDrop j s)) = selectedThread s.
Proof.
  intros Hd Hij Hx Hj.
  rewrite (onDrop_run s i j) by assumption. cbn [fibers dragIndex selectedThread].
  split; [eapply reorder_permutation; eassumption|].
  split; [eapply reorder_length; eassumption|].
  split; [apply reorder_lookup; assumption|].
  split; [eapply reorder_delete; eassumption|].
  split; reflexivity.
Qed.

(** Dragging the card that was just dropped at [j] back to where it came
    from restores the list exactly. *)
Theorem dragging_back_restores_the_order s (i j : nat) (x : option Viewer.Fiber) :
  dragIndex s = Some i ->
  i <> j ->
  fibers s !! i = Some x ->
  j < length (fibers s) ->
  fibers (fst (onDrop i (onDragStart j (fst (onDrop j s))))) = fibers s.
Proof.
  intros Hd Hij Hx Hj. pose proof (lookup_lt_Some _ _ _ Hx) as Hi.
  rewrite (onDrop_run _ j i) by (reflexivity || congruence).
  rewrite (onDrop_run s i j) by assumption. cbn [fibers onDragStart].
  rewrite (reorder_in_range _ j i x).
  - rewrite (reorder_delete _ i j x) by assumption. apply restore_at, Hx.
  - apply reorder_lookup; assumption.
  - rewrite (reorder_length _ i j x) by assumption. exact Hi.
Qed.

Lemma ids_undefined (fs : list (option Viewer.Fiber)) :
  None ∈ fs -> ids fs = Throw TypeError.
Proof.
  induction fs as [|[f|] fs IH]; intros H.
  - inversion H.
  - apply elem_of_cons in H as [H|H]; [discriminate H|].
    cbn [ids]. rewrite IH by exact H. reflexivity.
  - reflexivity.
Qed.

Lemma ids_defined l : ids (Some <$> l) = Normal (Viewer.id <$> l).
Proof.
  induction l as [|f l IH]; [reflexivity|].
  cbn [fmap list_fmap ids]. fold (Some <$> l). rewrite IH. reflexivity.
Qed.

Lemma reorder_defined l i j (f : Viewer.Fiber) :
  l !! i = Some f -> j < length l ->
  reorder (Some <$> l) i j
  = Some <$> (take j (delete i l) ++ f :: drop j (delete i l)) /\
  take j (delete i l) ++ f :: drop j (delete i l) ≡ₚ l.
Proof.
  intros H Hj. split.
  - rewrite (reorder_in_range _ i j (Some f)).
    + rewrite fmap_app, fmap_cons, fmap_take, fmap_drop, list_fmap_delete.
      reflexivity.
    + rewrite list_lookup_fmap, H. reflexivity.
    + rewrite length_fmap. exact Hj.
  - rewrite <- Permutation_middle, take_drop.
    symmetry. apply delete_Permutation, H.
Qed.

(** A drag index that no longer points into the list (the list was
    replaced by a shorter one since the drag began) removes nothing and
    inserts an [undefined] entry: the list grows by one, and with a
    thread selected the handler then throws while collecting the ids. *)
Theorem onDrop_with_a_stale_index_inserts_undefined s (i j : nat) :
  dragIndex s = Some i ->
  i <> j ->
  length (fibers s) <= i ->
  fibers (fst (onDrop j s))
    = take (Nat.min j (length (fibers s))) (fibers s)
      ++ None :: drop (Nat.min j (length (fibers s))) (fibers s) /\
  length (fibers (fst (onDrop j s))) = S (length (fibers s)) /\
  (truthy (selectedThread s) = true -> snd (onDrop j s) = Throw TypeError).
Proof.
  intros Hd Hij Hi.
  pose proof (reorder_stale (fibers s) i j Hi) as Hre.
  split; [rewrite (onDrop_run s i j) by assumption; exact Hre|].
  split.
  - rewrite (onDrop_run s i j) by assumption. cbn [fibers]. rewrite Hre.
    rewrite length_app, length_take. cbn [length]. rewrite length_drop. lia.
  - intros Ht. unfold onDrop. rewrite Hd.
    destruct (decide (i = j)); [contradiction|]. rewrite Ht. cbn [snd].
    rewrite ids_undefined; [reflexivity|].
    rewrite Hre. apply elem_of_app. right. apply list_elem_of_here.
Qed.

(** With a thread selected, dropping a card sends the PATCH request for
    that thread whose [order] lists the ids of the cards in their new
    order, a permutation of the ids before. *)
Theorem onDrop_sends_the_new_order s (i j : nat) l (f : Viewer.Fiber)
    (thread : string) :
  dragIndex s = Some i ->
  i <> j ->
  fibers s = Some <$> l ->
  l !! i = Some f ->
  j < length l ->
  selectedThread s = Some thread ->
  thread <> "" ->
  exists l',
    fibers (fst (onDrop j s)) = Some <$> l' /\
    l' ≡ₚ l /\
    Viewer.id <$> l' ≡ₚ Viewer.id <$> l /\
    snd (onDrop j s)
      = Normal (Some {| url := "/api/threads/" +:+ thread +:+ "/reorder";
                        order := Viewer.id <$> l' |}).
Proof.
  intros Hd Hij Hl Hf Hj Hth Hne.
  destruct (reorder_defined l i j f Hf Hj) as [Hre Hperm].
  eexists. split; [|split; [exact Hperm|split]].
  - rewrite (onDrop_run s i j), Hl by assumption. exact Hre.
  - rewrite Hperm. reflexivity.
  - unfold onDrop. rewrite Hd. destruct (decide (i = j)); [contradiction|].
    rewrite Hth, Hl, Hre. destruct thread as [|c thread]; [congruence|].
    cbn [truthy snd]. rewrite ids_defined. reflexivity.
Qed.

End OnDrop.

Section FilterAfterDrop.

Import ViewerDrop.

Context (toLowerCase : string -> string).
Context (laws : ToLowerCaseLaws toLowerCase).

(** Reordering does not change which cards a query shows: for a list
    whose units all have their content, filtering the list after a drop
    gives a permutation of what filtering gave before. *)
Theorem reordering_keeps_the_matching_cards (s : State) (i j : nat)
    (l : list Viewer.Fiber) (f : Viewer.Fiber) (q : string) :
  dragIndex s = Some i ->
  i <> j ->
  fibers s = Some <$> l ->
  l !! i = Some f ->
  j < length l ->
  Forall (fun f => is_Some (Viewer.content f)) l ->
  exists l' r r',
    fibers (fst (onDrop j s)) = Some <$> l' /\
    Viewer.filterFibers toLowerCase l q = Normal r /\
    Viewer.filterFibers toLowerCase l' q = Normal r' /\
    r' ≡ₚ r.
Proof.
  intros Hd Hij Hl Hf Hj Hc.
  destruct (reorder_defined l i j f Hf Hj) as [Hre Hperm].
  eexists _, _, _.
  split; [rewrite (onDrop_run s i j), Hl by assumption; exact Hre|].
  split; [apply (filterFibers_filter toLowerCase laws), Hc|].
  split.
  - apply (filterFibers_filter toLowerCase laws). rewrite Hperm. exact Hc.
  - rewrite Hperm. reflexivity.
Qed.

End FilterAfterDrop.

(** ** The tag chips of a fiber card *)

Section TagChips.

Import FiberCard.

Lemma separatorFree_app (s t : string) :
  separatorFree (s +:+ t) = separatorFree s && separatorFree t.
Proof.
  induction s as [|c s IH]; [reflexivity|].
  rewrite app_cons. simpl. rewrite IH, andb_assoc. reflexivity.
Qed.

Lemma splitLoop_separatorFree (s piece : string) (inMatch : bool) :
  separatorFree piece = true ->
  Forall (fun t => separatorFree t = true) (splitLoop isSeparator s piece inMatch).
Proof.
  revert piece inMatch. induction s as [|c s IH]; intros piece inMatch Hp; simpl.
  - repeat constructor. exact Hp.
  - destruct (isSeparator c) eqn:Ec.
    + destruct inMatch; [apply IH; reflexivity|].
      constructor; [exact Hp | apply IH; reflexivity].
    + apply IH. rewrite separatorFree_app, Hp. simpl. rewrite Ec. reflexivity.
Qed.

Lemma concat_cons (x : string) (l : list string) :
  String.concat "" (x :: l) = x +:+ String.concat "" l.
Proof.
  destruct l as [|y l]; simpl; [rewrite app_empty_r; reflexivity | reflexivity].
Qed.

Lemma splitLoop_concat (s piece : string) (inMatch : bool) :
  (inMatch = true -> piece = "") ->
  String.concat "" (splitLoop isSeparator s piece inMatch)
  = piece +:+ withoutSeparators s.
Proof.
  revert piece inMatch. induction s as [|c s IH]; intros piece inMatch Hm.
  - simpl. rewrite app_empty_r. reflexivity.
  - cbn [splitLoop withoutSeparators]. destruct (isSeparator c).
    + destruct inMatch.
      * rewrite Hm by reflexivity. apply IH. reflexivity.
      * rewrite concat_cons, IH by reflexivity. reflexivity.
    + rewrite IH by discriminate. rewrite app_assoc3. reflexivity.
Qed.

Lemma filter_nonEmpty_concat (l : list string) :
  String.concat "" (List.filter nonEmpty l) = String.concat "" l.
Proof.
  induction l as [|x l IH]; [reflexivity|].
  cbn [List.filter]. destruct x as [|c x]; cbn [nonEmpty].
  - rewrite (concat_cons "" l). exact IH.
  - rewrite !concat_cons, IH. reflexivity.
Qed.

Lemma filter_nonEmpty_tags (l : list string) :
  Forall (fun t => separatorFree t = true) l ->
  Forall isTag (List.filter nonEmpty l).
Proof.
  induction 1 as [|x l Hx _ IH]; [constructor|].
  cbn [List.filter]. destruct x as [|c x]; cbn [nonEmpty]; [exact IH|].
  constructor; [split; [discriminate | exact Hx] | exact IH].
Qed.

Lemma tags_run (fiber : Viewer.Fiber) :
  tags fiber
  = Normal (List.filter nonEmpty
              (split isSeparator (default "" (Viewer.tags fiber)))).
Proof.
  unfold tags. destruct (Viewer.tags fiber) as [[|c t]|]; try reflexivity.
  apply Array_filter_total. apply Forall_forall. intros x _. reflexivity.
Qed.

(** The chips of a card are tags: the call returns normally, no chip is
    empty or contains a comma or white space, and the chips put together
    are the text of [tags] with its separators taken out. *)
Theorem tags_are_clean_and_keep_the_text (fiber : Viewer.Fiber) :
  exists ts,
    tags fiber = Normal ts /\
    Forall isTag ts /\
    String.concat "" ts = withoutSeparators (default "" (Viewer.tags fiber)).
Proof.
  eexists. split; [apply tags_run|]. split.
  - apply filter_nonEmpty_tags, splitLoop_separatorFree. reflexivity.
  - rewrite filter_nonEmpty_concat. unfold split.
    rewrite splitLoop_concat by discriminate. reflexivity.
Qed.

Lemma splitLoop_tag (t rest piece : string) (inMatch : bool) :
  isTag t ->
  splitLoop isSeparator (t +:+ rest) piece inMatch
  = splitLoop isSeparator rest (piece +:+ t) false.
Proof.
  intros [Hne Hfree]. revert piece inMatch.
  induction t as [|c t IH]; intros piece inMatch; [congruence|].
  simpl in Hfree. apply andb_true_iff in Hfree as [Hc Hfree].
  apply negb_true_iff in Hc.
  rewrite app_cons. cbn [splitLoop]. rewrite Hc.
  destruct t as [|d t].
  - reflexivity.
  - rewrite IH by (exact Hfree || discriminate).
    rewrite app_assoc3. reflexivity.
Qed.

Lemma splitLoop_run (sep rest : string) :
  separatorsOnly sep = true ->
  splitLoop isSeparator (sep +:+ rest) "" true
  = splitLoop isSeparator rest "" true.
Proof.
  induction sep as [|c sep IH]; intros H; [reflexivity|].
  simpl in H. apply andb_true_iff in H as [Hc H].
  rewrite app_cons. cbn [splitLoop]. rewrite Hc. apply IH, H.
Qed.

Lemma splitLoop_separator (sep rest piece : string) :
  sep <> "" -> separatorsOnly sep = true ->
  splitLoop isSeparator (sep +:+ rest) piece false
  = piece :: splitLoop isSeparator rest "" true.
Proof.
  destruct sep as [|c sep]; [congruence|]. intros _ H.
  simpl in H. apply andb_true_iff in H as [Hc H].
  rewrite app_cons. cbn [splitLoop]. rewrite Hc. f_equal. apply splitLoop_run, H.
Qed.

Lemma splitLoop_join (sep t : string) (ts : list string) (piece : string)
    (inMatch : bool) :
  sep <> "" -> separatorsOnly sep = true ->
  Forall isTag (t :: ts) ->
  splitLoop isSeparator (Json.join sep (t :: ts)) piece inMatch
  = (piece +:+ t) :: ts.
Proof.
  intros Hne Hsep. revert t piece inMatch.
  induction ts as [|u ts IH]; intros t piece inMatch Hts;
    apply Forall_cons in Hts as [Ht Hts].
  - cbn [Json.join]. rewrite <- (app_empty_r t) at 1.
    rewrite splitLoop_tag by exact Ht. reflexivity.
  - change (Json.join sep (t :: u :: ts))
      with (t +:+ sep +:+ Json.join sep (u :: ts)).
    rewrite splitLoop_tag by exact Ht.
    rewrite splitLoop_separator by assumption.
    rewrite IH by exact Hts. reflexivity.
Qed.

(** Writing tags down with separators between them and reading them back
    gives the same tags: for tags [ts] and any non-empty run [sep] of
    commas and white space, a card whose [tags] is [ts] joined by [sep]
    shows exactly [ts]. *)
Theorem tags_of_joined_tags (fiber : Viewer.Fiber) (ts : list string)
    (sep : string) :
  Forall isTag ts ->
  sep <> "" ->
  separatorsOnly sep = true ->
  Viewer.tags fiber = Some (Json.join sep ts) ->
  tags fiber = Normal ts.
Proof.
  intros Hts Hne Hsep Htags. rewrite tags_run, Htags. cbn [default from_option id]. f_equal.
  destruct ts as [|t ts].
  - reflexivity.
  - unfold split. rewrite splitLoop_join by assumption.
    change ("" +:+ t) with t.
    clear Htags. induction Hts as [|x l [Hx _] _ IH]; [reflexivity|].
    cbn [List.filter]. destruct x; [congruence|]. cbn [nonEmpty]. f_equal. exact IH.
Qed.

End TagChips.

Lemma tags_of_joined_tags_witness :
  FiberCard.tags (withTags (Some "alpha, beta, gamma") helloWorld)
  = Normal ["alpha"; "beta"; "gamma"].
Proof.
  apply (tags_of_joined_tags (withTags (Some "alpha, beta, gamma") helloWorld)
           ["alpha"; "beta"; "gamma"] ", ").
  - repeat constructor; discriminate.
  - discriminate.
  - reflexivity.
  - reflexivity.
Defined.

(** ** The weave and the spinner *)

Section WeaveCalls.

Import FiberJs WeaveJs.

Implicit Types (st : Store) (this fiber : ref) (o : Object) (w : Weave).

Lemma callTransform_run st this o (type color : string) :
  st !! this = Some o ->
  callTransform this type color st
  = Some (this, <[this := effect (CallTransform type color None) o]> st).
Proof.
  intros H. unfold callTransform, mbind, M_bind, bind.
  rewrite (invoke_run st this o) by exact H. reflexivity.
Qed.

Lemma callTransform_allocated st this (type color : string) r st' :
  callTransform this type color st = Some (r, st') -> is_Some (st !! this).
Proof.
  unfold callTransform, invoke, mbind, M_bind, bind, get.
  destruct (st !! this); [eauto|]. intros Hfail. discriminate Hfail.
Qed.

Lemma Array_get_set_eq {A} (arr : list (option A)) i (v : A) :
  Array_get (Array_set arr i v) i = Some v.
Proof.
  unfold Array_get, Array_set. destruct (decide (i < length arr)).
  - rewrite list_lookup_insert_eq by assumption. reflexivity.
  - rewrite lookup_app_r by lia.
    rewrite lookup_app_r by (rewrite length_replicate; lia).
    rewrite length_replicate.
    replace (i - length arr - (i - length arr)) with 0 by lia. reflexivity.
Qed.

Lemma Array_get_set_ne {A} (arr : list (option A)) i k (v : A) :
  k <> i -> Array_get (Array_set arr i v) k = Array_get arr k.
Proof.
  intros Hne. unfold Array_get, Array_set. destruct (decide (i < length arr)).
  - rewrite list_lookup_insert_ne by congruence. reflexivity.
  - destruct (decide (k < length arr)).
    + rewrite lookup_app_l by assumption. reflexivity.
    + rewrite (lookup_ge_None_2 arr k) by lia.
      rewrite lookup_app_r by lia.
      destruct (decide (k < i)).
      * rewrite lookup_app_l by (rewrite length_replicate; lia).
        rewrite lookup_replicate_2 by lia. reflexivity.
      * rewrite lookup_app_r by (rewrite length_replicate; lia).
        rewrite length_replicate.
        rewrite lookup_ge_None_2 by (simpl; lia). reflexivity.
Qed.

Lemma Array_set_length {A} (arr : list (option A)) i (v : A) :
  length (Array_set arr i v) = Nat.max (length arr) (S i).
Proof.
  unfold Array_set. destruct (decide (i < length arr)).
  - rewrite length_insert. lia.
  - rewrite !length_app, length_replicate. simpl. lia.
Qed.

(** [addWarpFiber(fiber, slot)] on an allocated Fiber puts that very
    reference into slot [slot], growing the array to [slot + 1] entries
    when it was shorter, so that the slots in between are holes; every
    other slot reads as before, and the rest of the weave is untouched.
    The Fiber gets the colour [springgreen] and exactly one more history
    entry, [{ stage: 'warp', color: 'springgreen', context: null }]. *)
Theorem addWarpFiber_fills_the_slot st w fiber o (slot : nat) :
  st !! fiber = Some o ->
  exists w' o',
    addWarpFiber w fiber slot st = Some (w', <[fiber := o']> st) /\
    Array_get (warp w') slot = Some fiber /\
    (forall k, k <> slot -> Array_get (warp w') k = Array_get (warp w) k) /\
    length (warp w') = Nat.max (length (warp w)) (S slot) /\
    (cols w', rows w', cell w', weftPasses w', pattern w')
      = (cols w, rows w, cell w, weftPasses w, pattern w) /\
    history o' = history o ++ [entryOf "warp" "springgreen"] /\
    color o' = "springgreen" /\
    (id o', proto o', markers o') = (id o, proto o, markers o).
Proof.
  intros H. eexists _, _. split.
  - unfold addWarpFiber, mbind, M_bind, bind.
    rewrite (callTransform_run st fiber o) by exact H. reflexivity.
  - cbn [warp set_warp].
    split; [apply Array_get_set_eq|].
    split; [intros k Hk; apply Array_get_set_ne, Hk|].
    split; [apply Array_set_length|].
    repeat split.
Qed.

Lemma insert_as_alter st this o (f : Object -> Object) :
  st !! this = Some o -> <[this := f o]> st = alter f this st.
Proof.
  intros H. apply map_eq. intros r. destruct (decide (r = this)) as [->|Hne].
  - rewrite lookup_insert_eq, lookup_alter_eq, H. reflexivity.
  - rewrite lookup_insert_ne, lookup_alter_ne by congruence. reflexivity.
Qed.

Lemma Array_mapM_callTransform_run (type color : string) (fibers : list ref) st :
  Forall (fun r => is_Some (st !! r)) fibers ->
  Array_mapM (fun f => callTransform f type color) fibers st
  = Some (fibers, transformAll type color fibers st).
Proof.
  revert st. induction fibers as [|r fibers IH]; intros st Hall; [reflexivity|].
  apply Forall_cons in Hall as [[o Ho] Hall].
  cbn [Array_mapM]. unfold mbind, M_bind, bind.
  rewrite (callTransform_run st r o) by exact Ho.
  rewrite (insert_as_alter st r o) by exact Ho.
  rewrite IH; [reflexivity|].
  eapply Forall_impl; [exact Hall|]. intros r' [o' Hr'].
  destruct (decide (r' = r)) as [->|Hne].
  - rewrite lookup_alter_eq, Ho. eauto.
  - rewrite lookup_alter_ne by congruence. eauto.
Qed.

Lemma lookup_transformAll (type color : string) (fibers : list ref) st r :
  transformAll type color fibers st !! r
  = Nat.iter (occurrences r fibers) (effect (CallTransform type color None))
      <$> st !! r.
Proof.
  revert st. induction fibers as [|x fibers IH]; intros st.
  - simpl. destruct (st !! r); reflexivity.
  - change (transformAll type color (x :: fibers) st)
      with (transformAll type color fibers
              (alter (effect (CallTransform type color None)) x st)).
    cbn [occurrences]. rewrite IH. destruct (decide (x = r)) as [->|Hne].
    + rewrite lookup_alter_eq. destruct (st !! r); [|reflexivity].
      cbn [fmap option_fmap option_map]. rewrite Nat.iter_succ_r. reflexivity.
    + rewrite lookup_alter_ne by congruence. reflexivity.
Qed.

Lemma iter_transform (n : nat) (type color : string) o :
  history (Nat.iter n (effect (CallTransform type color None)) o)
    = history o ++ replicate n (entryOf type color) /\
  FiberJs.color (Nat.iter n (effect (CallTransform type color None)) o)
    = (if decide (n = 0) then FiberJs.color o else color) /\
  (id (Nat.iter n (effect (CallTransform type color None)) o),
   proto (Nat.iter n (effect (CallTransform type color None)) o),
   markers (Nat.iter n (effect (CallTransform type color None)) o))
    = (id o, proto o, markers o).
Proof.
  induction n as [|n (Hh & Hc & Hr)].
  - simpl. rewrite app_nil_r. repeat split.
  - rewrite !Nat.iter_succ.
    set (o1 := Nat.iter n (effect (CallTransform type color None)) o) in *.
    split; [|split].
    + change (history (effect (CallTransform type color None) o1))
        with (history o1 ++ replicate 1 (entryOf type color)).
      rewrite Hh, <- app_assoc, <- replicate_add. f_equal. f_equal. lia.
    + reflexivity.
    + exact Hr.
Qed.

(** [addWeftPass(fibers)] on allocated Fibers appends [fibers] itself,
    the same references in the same order, as one more pass, and calls
    [transform('weft', 'darkgreen')] once per position of the list: a
    Fiber listed [n] times gets [n] weft entries, one listed at least
    once ends up [darkgreen], one not listed is untouched; no Fiber is
    created or removed. *)
Theorem addWeftPass_transforms_once_per_position st w (fibers : list ref) :
  Forall (fun r => is_Some (st !! r)) fibers ->
  exists st',
    addWeftPass w fibers st = Some (push_weftPass fibers w, st') /\
    weftPasses (push_weftPass fibers w) = weftPasses w ++ [fibers] /\
    (forall r, st' !! r = None <-> st !! r = None) /\
    forall r o, st !! r = Some o ->
      exists o',
        st' !! r = Some o' /\
        history o' = history o
          ++ replicate (occurrences r fibers) (entryOf "weft" "darkgreen") /\
        color o' = (if decide (occurrences r fibers = 0) then color o
                    else "darkgreen") /\
        (id o', proto o', markers o') = (id o, proto o, markers o).
Proof.
  intros Hall. exists (transformAll "weft" "darkgreen" fibers st).
  split.
  { unfold addWeftPass, mbind, M_bind, bind.
    rewrite Array_mapM_callTransform_run by exact Hall. reflexivity. }
  split; [reflexivity|]. split.
  - intros r. rewrite lookup_transformAll. destruct (st !! r); split; try discriminate; reflexivity.
  - intros r o Ho. eexists. split.
    + rewrite lookup_transformAll, Ho. reflexivity.
    + apply iter_transform.
Qed.

End WeaveCalls.

(** ** The set-up of the main script *)

Section MainScript.

Import FiberJs WeaveJs.

Implicit Types (st : Store) (o : Object) (w : Weave).

(** The loop rule: an invariant that holds on entry and is kept by every
    round holds on exit, and the loop does not fail. *)
Lemma forM_invariant {T} (I : nat -> T -> Store -> Prop)
    (body : nat -> T -> M T) (count : nat) :
  forall (i : nat) (s : T) st,
    I i s st ->
    (forall k s st, i <= k < i + count -> I k s st ->
       exists s' st', body k s st = Some (s', st') /\ I (S k) s' st') ->
    exists s' st', forM i count body s st = Some (s', st') /\ I (i + count) s' st'.
Proof.
  induction count as [|count IH]; intros i s st Hi Hstep.
  - exists s, st. rewrite Nat.add_0_r. split; [reflexivity | exact Hi].
  - destruct (Hstep i s st ltac:(lia) Hi) as (s1 & st1 & Hbody & Hi1).
    destruct (IH (S i) s1 st1 Hi1) as (s' & st' & Hrun & Hend).
    { intros k s2 st2 Hk. apply Hstep. lia. }
    exists s', st'. split.
    + cbn [forM]. unfold mbind, M_bind, bind. rewrite Hbody. exact Hrun.
    + replace (i + S count) with (S i + count) by lia. exact Hend.
Qed.

(** A loop that creates one Fiber per round and collects the references. *)
Lemma alloc_loop (C : Class) (name : nat -> string) (colorStart : option string)
    (n : nat) st :
  exists rs st',
    forM 0 n (fun j acc => f ← new C (name j) colorStart; mret (acc ++ [f])) [] st
      = Some (rs, st') /\
    length rs = n /\
    NoDup rs /\
    (forall j r, rs !! j = Some r ->
       st !! r = None /\ st' !! r = Some (initial C (name j) colorStart)) /\
    (forall r, r ∉ rs -> st' !! r = st !! r).
Proof.
  destruct (forM_invariant
    (fun k rs st' =>
       length rs = k /\ NoDup rs /\
       (forall j r, rs !! j = Some r ->
          st !! r = None /\ st' !! r = Some (initial C (name j) colorStart)) /\
       (forall r, r ∉ rs -> st' !! r = st !! r))
    (fun j acc => f ← new C (name j) colorStart; mret (acc ++ [f]))
    n 0 [] st) as (rs & st' & Hrun & Hlen & Hrest).
  - split; [reflexivity|]. split; [constructor|].
    split; [intros j r Hj; discriminate Hj | reflexivity].
  - intros k rs stk _ (Hlen & Hnd & Hobj & Hframe).
    set (r := fresh (dom stk)).
    assert (Hfresh : stk !! r = None) by apply fresh_unallocated.
    assert (Hnotin : r ∉ rs).
    { intros Hin. apply list_elem_of_lookup in Hin as [j Hj].
      apply Hobj in Hj as [_ Hj]. congruence. }
    exists (rs ++ [r]), (<[r := initial C (name k) colorStart]> stk).
    split.
    { unfold mbind, M_bind, bind. rewrite new_run. reflexivity. }
    split; [rewrite length_app; simpl; lia|].
    split.
    { apply NoDup_app. split; [exact Hnd|]. split; [|apply NoDup_singleton].
      intros x Hx Hx'. apply list_elem_of_singleton in Hx'. congruence. }
    split.
    + intros j x Hj. apply lookup_app_Some in Hj as [Hj | [Hge Hj]].
      * destruct (Hobj j x Hj) as [H0 H1]. split; [exact H0|].
        rewrite lookup_insert_ne by congruence. exact H1.
      * apply list_lookup_singleton_Some in Hj as [Hj <-].
        split; [rewrite <- (Hframe r Hnotin); exact Hfresh|].
        replace j with k by lia. apply lookup_insert_eq.
    + intros x Hx. rewrite not_elem_of_app in Hx. destruct Hx as [Hx Hx'].
      rewrite lookup_insert_ne by (intros ->; apply Hx', list_elem_of_here).
      apply Hframe, Hx.
  - exists rs, st'. split; [exact Hrun|]. split; [exact Hlen | exact Hrest].
Qed.

Lemma Array_set_at_end (rs : list ref) (r : ref) :
  Array_set (Some <$> rs) (length rs) r = Some <$> (rs ++ [r]).
Proof.
  unfold Array_set. rewrite length_fmap.
  destruct (decide (length rs < length rs)); [lia|].
  rewrite Nat.sub_diag, fmap_app. reflexivity.
Qed.

(** The warp loop of the main script on a new weave never fails and
    fills the columns [0 .. cols - 1], in order, with [cols] distinct
    new Fibers and nothing else; the Fiber of column [i] is a
    [WarpFiber] with id [w<i>], colour [springgreen] and the history
    start, warp; so warp line [i] is stroked [springgreen].  No other
    object of the store changes. *)
Theorem main_warp_fills_every_column
    (c r : option nat) (cell : option Qcanon.Qc) st :
  exists rs st',
    main_warp (Weave_new c r cell) st
      = Some (set_warp (Some <$> rs) (Weave_new c r cell), st') /\
    length rs = default 20 c /\
    NoDup rs /\
    (forall i x, rs !! i = Some x ->
       st !! x = None /\
       st' !! x = Some (warpFiberOf i) /\
       warpStroke (set_warp (Some <$> rs) (Weave_new c r cell)) st' i
         = "springgreen") /\
    (forall x, x ∉ rs -> st' !! x = st !! x).
Proof.
  set (w0 := Weave_new c r cell).
  destruct (forM_invariant
    (fun k w st' =>
       exists rs,
         w = set_warp (Some <$> rs) w0 /\ length rs = k /\ NoDup rs /\
         (forall i x, rs !! i = Some x ->
            st !! x = None /\ st' !! x = Some (warpFiberOf i)) /\
         (forall x, x ∉ rs -> st' !! x = st !! x))
    (fun i weave =>
       f ← new WarpFiber ("w" +:+ pretty i) (Some "springgreen");
       addWarpFiber weave f i)
    (cols w0) 0 w0 st) as (w' & st' & Hrun & rs & -> & Hlen & Hnd & Hobj & Hframe).
  - exists []. split; [reflexivity|]. split; [reflexivity|].
    split; [constructor|].
    split; [intros i x Hi; discriminate Hi | reflexivity].
  - intros k w stk _ (rs & -> & Hlen & Hnd & Hobj & Hframe).
    set (x := fresh (dom stk)).
    assert (Hfresh : stk !! x = None) by apply fresh_unallocated.
    assert (Hnotin : x ∉ rs).
    { intros Hin. apply list_elem_of_lookup in Hin as [i Hi].
      apply Hobj in Hi as [_ Hi]. congruence. }
    eexists _, _. split.
    { unfold mbind, M_bind, bind. rewrite new_run. fold x.
      unfold addWarpFiber, mbind, M_bind, bind.
      rewrite (callTransform_run _ x (initial WarpFiber ("w" +:+ pretty k)
                                        (Some "springgreen")))
        by apply lookup_insert_eq.
      rewrite insert_insert_eq. reflexivity. }
    exists (rs ++ [x]). cbn [warp set_warp].
    split; [rewrite <- Hlen, Array_set_at_end; reflexivity|].
    split; [rewrite length_app; simpl; lia|].
    split.
    { apply NoDup_app. split; [exact Hnd|]. split; [|apply NoDup_singleton].
      intros y Hy Hy'. apply list_elem_of_singleton in Hy'. congruence. }
    split.
    + intros i y Hi. apply lookup_app_Some in Hi as [Hi | [Hge Hi]].
      * destruct (Hobj i y Hi) as [H0 H1]. split; [exact H0|].
        rewrite lookup_insert_ne by congruence. exact H1.
      * apply list_lookup_singleton_Some in Hi as [Hi <-].
        split; [rewrite <- (Hframe x Hnotin); exact Hfresh|].
        replace i with k by lia. apply lookup_insert_eq.
    + intros y Hy. rewrite not_elem_of_app in Hy. destruct Hy as [Hy Hy'].
      rewrite lookup_insert_ne by (intros ->; apply Hy', list_elem_of_here).
      apply Hframe, Hy.
  - exists rs, st'. split; [exact Hrun|]. split; [exact Hlen|].
    split; [exact Hnd|]. split; [|exact Hframe].
    intros i x Hi. destruct (Hobj i x Hi) as [H0 H1].
    split; [exact H0|]. split; [exact H1|].
    unfold warpStroke, Array_get, colorOr. cbn [warp set_warp].
    rewrite list_lookup_fmap, Hi. cbn [fmap option_fmap option_map mjoin option_join].
    rewrite H1. reflexivity.
Qed.

Lemma occurrences_notin (x : ref) (l : list ref) :
  x ∉ l -> occurrences x l = 0.
Proof.
  induction l as [|y l IH]; intros H; [reflexivity|].
  apply not_elem_of_cons in H as [Hne H]. cbn [occurrences].
  destruct (decide (y = x)); [congruence|]. apply IH, H.
Qed.

Lemma occurrences_NoDup (x : ref) (l : list ref) :
  NoDup l -> x ∈ l -> occurrences x l = 1.
Proof.
  induction 1 as [|y l Hy Hnd IH]; intros H; [inversion H|].
  cbn [occurrences]. destruct (decide (y = x)) as [->|Hne].
  - rewrite occurrences_notin by exact Hy. reflexivity.
  - apply elem_of_cons in H as [->|H]; [congruence|]. apply IH, H.
Qed.

(** One round of the weft loop: a pass of new Fibers is created and
    woven in. *)
Lemma main_weft_round w (p : nat) st :
  exists pass st',
    (pass ← main_pass w p; addWeftPass w pass) st
      = Some (push_weftPass pass w, st') /\
    length pass = cols w /\
    NoDup pass /\
    (forall j x, pass !! j = Some x ->
       st !! x = None /\ st' !! x = Some (weftFiberOf p j)) /\
    (forall x, x ∉ pass -> st' !! x = st !! x).
Proof.
  destruct (alloc_loop WeftFiber
              (fun j => "p" +:+ pretty p +:+ "-" +:+ pretty j) None (cols w) st)
    as (pass & st1 & Hrun & Hlen & Hnd & Hobj & Hframe).
  exists pass, (transformAll "weft" "darkgreen" pass st1).
  split.
  { unfold mbind, M_bind, bind, main_pass. rewrite Hrun.
    unfold addWeftPass, mbind, M_bind, bind.
    rewrite Array_mapM_callTransform_run; [reflexivity|].
    apply Forall_forall. intros x Hx.
    apply list_elem_of_lookup in Hx as [j Hj].
    apply Hobj in Hj as [_ Hj]. eauto. }
  split; [exact Hlen|]. split; [exact Hnd|]. split.
  - intros j x Hj. destruct (Hobj j x Hj) as [H0 H1]. split; [exact H0|].
    rewrite lookup_transformAll, H1.
    rewrite occurrences_NoDup by (eauto using list_elem_of_lookup_2).
    reflexivity.
  - intros x Hx. rewrite lookup_transformAll, occurrences_notin by exact Hx.
    rewrite (Hframe x Hx). destruct (st !! x); reflexivity.
Qed.

(** The weft loop of the main script never fails and appends one pass
    per row; each pass holds [cols] distinct new Fibers, the Fiber at
    position [j] of pass [p] being a [WeftFiber] with id [p<p>-<j>],
    colour [darkgreen] and the history start, weft, so a pass is stroked
    [darkgreen] (or with the fallback colour when there are no columns).
    Objects that were in the store before are left as they were. *)
Theorem main_weft_adds_one_pass_per_row w st :
  exists w' passes st',
    main_weft w st = Some (w', st') /\
    weftPasses w' = weftPasses w ++ passes /\
    (cols w', rows w', cell w', warp w', pattern w')
      = (cols w, rows w, cell w, warp w, pattern w) /\
    length passes = rows w /\
    (forall p pass, passes !! p = Some pass ->
       length pass = cols w /\
       NoDup pass /\
       weftStroke st' pass
         = (if decide (cols w = 0) then "#002200" else "darkgreen") /\
       forall j x, pass !! j = Some x ->
         st !! x = None /\ st' !! x = Some (weftFiberOf p j)) /\
    (forall x o, st !! x = Some o -> st' !! x = Some o).
Proof.
  destruct (forM_invariant
    (fun k w' st' =>
       exists passes,
         weftPasses w' = weftPasses w ++ passes /\
         (cols w', rows w', cell w', warp w', pattern w')
           = (cols w, rows w, cell w, warp w, pattern w) /\
         length passes = k /\
         (forall p pass, passes !! p = Some pass ->
            length pass = cols w /\ NoDup pass /\
            forall j x, pass !! j = Some x ->
              st !! x = None /\ st' !! x = Some (weftFiberOf p j)) /\
         (forall x o, st !! x = Some o -> st' !! x = Some o))
    (fun p weave => pass ← main_pass weave p; addWeftPass weave pass)
    (rows w) 0 w st)
    as (w' & st' & Hrun & passes & Hpasses & Hsame & Hlen & Hobj & Hframe).
  - exists []. rewrite app_nil_r.
    split; [reflexivity|]. split; [reflexivity|]. split; [reflexivity|].
    split; [intros p pass Hp; discriminate Hp | auto].
  - intros k wk stk _ (passes & Hpasses & Hsame & Hlen & Hobj & Hframe).
    destruct (main_weft_round wk k stk)
      as (pass & st2 & Hround & Hplen & Hnd & Hnew & Hkeep).
    assert (Hcols : cols wk = cols w) by congruence.
    assert (Hold : forall x o, stk !! x = Some o -> st2 !! x = Some o).
    { intros x o Hx. rewrite Hkeep; [exact Hx|].
      intros Hin. apply list_elem_of_lookup in Hin as [j Hj].
      apply Hnew in Hj as [Hj _]. congruence. }
    eexists _, _. split; [exact Hround|].
    exists (passes ++ [pass]). cbn [weftPasses cols rows cell warp pattern push_weftPass].
    split; [rewrite Hpasses, app_assoc; reflexivity|].
    split; [exact Hsame|].
    split; [rewrite length_app; simpl; lia|].
    split.
    + intros q ps Hq. apply lookup_app_Some in Hq as [Hq | [Hge Hq]].
      * destruct (Hobj q ps Hq) as (Hl & Hn & Ho).
        split; [exact Hl|]. split; [exact Hn|].
        intros j x Hj. destruct (Ho j x Hj) as [H0 H1].
        split; [exact H0 | apply Hold, H1].
      * apply list_lookup_singleton_Some in Hq as [Hq <-].
        replace q with k by lia.
        split; [congruence|]. split; [exact Hnd|].
        intros j x Hj. destruct (Hnew j x Hj) as [H0 H1]. split; [|exact H1].
        destruct (st !! x) as [o|] eqn:Hst; [|reflexivity].
        apply Hframe in Hst. congruence.
    + intros x o Hx. apply Hold, Hframe, Hx.
  - exists w', passes, st'. split; [exact Hrun|]. split; [exact Hpasses|].
    split; [exact Hsame|]. split; [exact Hlen|]. split; [|exact Hframe].
    intros p pass Hp. destruct (Hobj p pass Hp) as (Hl & Hn & Ho).
    split; [exact Hl|]. split; [exact Hn|]. split; [|exact Ho].
    unfold weftStroke, colorOr. destruct pass as [|x pass].
    + simpl in Hl. destruct (decide (cols w = 0)); [reflexivity | congruence].
    + simpl in Hl. destruct (decide (cols w = 0)); [congruence|].
      destruct (Ho 0 x eq_refl) as [_ H1]. cbn [lookup list_lookup].
      rewrite H1. reflexivity.
Qed.

End MainScript.

(** ** The pattern matrix *)

Section PatternMatrix.

Import WeaveJs.

Lemma forLoop_invariant {T} (I : nat -> T -> Prop) (body : nat -> T -> T)
    (count : nat) :
  forall (i : nat) (s : T),
    I i s ->
    (forall k s, i <= k < i + count -> I k s -> I (S k) (body k s)) ->
    I (i + count) (forLoop i count body s).
Proof.
  induction count as [|count IH]; intros i s Hi Hstep.
  - rewrite Nat.add_0_r. exact Hi.
  - cbn [forLoop]. replace (i + S count) with (S i + count) by lia.
    apply IH; [apply Hstep; [lia | exact Hi]|].
    intros k s' Hk. apply Hstep. lia.
Qed.

Lemma concat_insert_uniform {A} (n : nat) (m : list (list A)) (r c : nat)
    (row : list A) (x : A) :
  Forall (fun row => length row = n) m ->
  m !! r = Some row ->
  c < n ->
  concat (<[r := <[c := x]> row]> m) = <[r * n + c := x]> (concat m).
Proof.
  intros Hm. revert r. induction Hm as [|row0 m Hrow0 _ IH]; intros r Hr Hc.
  - discriminate Hr.
  - destruct r as [|r]; cbn [concat].
    + injection Hr as ->. cbn [insert list_insert concat].
      change (0 * n + c) with c.
      rewrite insert_app_l by (rewrite Hrow0; exact Hc). reflexivity.
    + cbn [insert list_insert concat]. fold (<[r := <[c := x]> row]> m).
      rewrite IH by assumption.
      replace (S r * n + c) with (length row0 + (r * n + c)) by lia.
      rewrite insert_app_r. reflexivity.
Qed.

Lemma concat_replicate {A} (n k : nat) (x : A) :
  concat (replicate n (replicate k x)) = replicate (n * k) x.
Proof.
  induction n as [|n IH]; [reflexivity|].
  cbn [replicate concat Nat.mul]. rewrite IH, replicate_add. reflexivity.
Qed.

Lemma successes_S (random : nat -> bool) (n : nat) :
  successes random (S n)
  = successes random n + (if random n then 1 else 0).
Proof.
  unfold successes. rewrite seq_S, filter_app, length_app. cbn [Nat.add].
  rewrite filter_cons, filter_nil.
  destruct (random n); destruct (decide _); try congruence; reflexivity.
Qed.

Lemma lookup_concat_uniform {A} (n : nat) (m : list (list A)) (r c : nat) :
  Forall (fun row => length row = n) m ->
  c < n ->
  concat m !! (r * n + c) = m !! r ≫= (.!! c).
Proof.
  intros Hm Hc. revert r. induction Hm as [|row0 m Hrow0 _ IH]; intros r.
  - destruct r; reflexivity.
  - destruct r as [|r]; cbn [concat].
    + change (0 * n + c) with c.
      rewrite lookup_app_l by (rewrite Hrow0; exact Hc). reflexivity.
    + replace (S r * n + c) with (length row0 + (r * n + c)) by lia.
      rewrite lookup_app_r by lia.
      replace (length row0 + (r * n + c) - length row0) with (r * n + c) by lia.
      apply IH.
Qed.

Lemma patternAt_more_draws random (k : nat) :
  patternAt random (S k) <$> seq 0 k = patternAt random k <$> seq 0 k.
Proof.
  apply Forall_fmap_ext, Forall_forall. intros p Hp.
  apply elem_of_seq in Hp. unfold patternAt.
  destruct (decide (p < S k)), (decide (p < k)); try lia. reflexivity.
Qed.

(** Visiting one more cell: [x] is what the cell holds afterwards and
    [k'] the number of calls made by then. *)
Lemma visited_next random nrows ncols pos m m' (i i' k k' : nat)
    (x : option ascii) :
  pos < nrows * ncols ->
  visited random nrows ncols pos {| matrix := m; idx := i; calls := k |} ->
  length m' = nrows ->
  Forall (fun row => length row = ncols) m' ->
  concat m' = <[pos := x]> (concat m) ->
  (k' = k /\ i' = i /\ i = length tagline /\ x = None) \/
  (k = pos /\ k' = S k /\ i < length tagline /\
   i' = i + (if random k then 1 else 0) /\
   x = (if random k then tagline !! i else None)) ->
  visited random nrows ncols (S pos) {| matrix := m'; idx := i'; calls := k' |}.
Proof.
  unfold visited. cbn [matrix idx calls].
  intros Hpos (_ & _ & Hk & Hi & Hle & Hor & Hlt & Hcat & Hom) Hl' Hrows' Hcat' Hcase.
  assert (Hx : x = patternAt random k' pos /\
               patternAt random k' <$> seq 0 pos = patternAt random k <$> seq 0 pos).
  { destruct Hcase as [(-> & _ & _ & ->) | (Hkpos & -> & _ & _ & ->)].
    - split; [|reflexivity]. unfold patternAt.
      destruct (decide (pos < k)); [lia | reflexivity].
    - subst pos. split; [|apply patternAt_more_draws].
      unfold patternAt. destruct (decide (k < S k)); [|lia].
      rewrite Hi. reflexivity. }
  destruct Hx as [Hx Hseq].
  split; [exact Hl'|]. split; [exact Hrows'|].
  split; [destruct Hcase as [(-> & _) | (_ & -> & _)]; lia|].
  split.
  { destruct Hcase as [(-> & -> & _) | (_ & -> & _ & -> & _)]; [exact Hi|].
    rewrite successes_S. lia. }
  split.
  { destruct Hcase as [(_ & -> & _) | (_ & _ & Hlt' & -> & _)]; [exact Hle|].
    destruct (random k); lia. }
  split.
  { destruct Hcase as [(_ & -> & -> & _) | (-> & -> & _)]; [right | left]; reflexivity. }
  split.
  { intros d Hd. destruct Hcase as [(-> & _) | (_ & -> & Hlt' & _)].
    - apply Hlt, Hd.
    - assert (d < k \/ d = k) as [Hd' | ->] by lia; [apply Hlt, Hd'|].
      rewrite <- Hi. exact Hlt'. }
  rewrite seq_S, fmap_app, Hseq. cbn [Nat.add fmap list_fmap]. split.
  - rewrite Hcat', Hcat, <- Hx.
    replace pos with (length (patternAt random k <$> seq 0 pos) + 0) at 1
      by (rewrite length_fmap, length_seq; lia).
    rewrite insert_app_r, <- app_assoc. f_equal.
    replace (nrows * ncols - pos) with (S (nrows * ncols - S pos)) by lia.
    reflexivity.
  - rewrite omap_app, Hom, <- Hx.
    destruct Hcase as [(_ & -> & _ & ->) | (_ & _ & Hlt' & -> & ->)].
    + apply app_nil_r.
    + destruct (random k).
      * destruct (lookup_lt_is_Some_2 tagline i Hlt') as [letter Hletter].
        rewrite Hletter. change (omap id [Some letter]) with [letter].
        replace (i + 1) with (S i) by lia.
        symmetry. apply take_S_r, Hletter.
      * rewrite Nat.add_0_r. apply app_nil_r.
Qed.

Lemma insert_None_hole {A} (cells : list (option A)) (n pos : nat) :
  length cells = pos ->
  0 < n ->
  <[pos := None]> (cells ++ replicate n None) = cells ++ replicate n None.
Proof.
  intros Hlen Hn. apply list_insert_id.
  rewrite lookup_app_r by lia. rewrite Hlen, Nat.sub_diag.
  destruct n; [lia | reflexivity].
Qed.

Lemma patternCell_visited random nrows ncols (r c : nat) s :
  r < nrows -> c < ncols ->
  visited random nrows ncols (r * ncols + c) s ->
  visited random nrows ncols (S (r * ncols + c)) (patternCell random r c s).
Proof.
  intros Hr Hc Hv.
  assert (Hpos : r * ncols + c < nrows * ncols) by nia.
  destruct s as [m i k]. unfold patternCell. cbn [matrix idx calls].
  pose proof Hv as (Hl & Hrows & Hk & Hi & Hle & Hor & Hlt & Hcat & Hom).
  cbn [matrix idx calls] in *.
  assert (Hsame : concat m = <[r * ncols + c := None]> (concat m)).
  { rewrite Hcat. symmetry. apply insert_None_hole; [|lia].
    rewrite length_fmap, length_seq. reflexivity. }
  destruct (tagline !! i) as [letter|] eqn:Hletter.
  - pose proof (lookup_lt_Some _ _ _ Hletter) as Hlt'.
    assert (Hkpos : k = r * ncols + c) by (destruct Hor; [assumption | lia]).
    destruct (random k) eqn:Hrandom.
    + destruct (lookup_lt_is_Some_2 m r ltac:(lia)) as [row Hrow].
      apply (visited_next random nrows ncols _ m _ i _ k _ (Some letter));
        [exact Hpos | exact Hv | | | |].
      * unfold setCell. rewrite Hrow, length_insert. exact Hl.
      * unfold setCell. rewrite Hrow.
        apply Forall_insert; [exact Hrows|]. rewrite length_insert.
        rewrite Forall_forall in Hrows. apply Hrows.
        eapply list_elem_of_lookup_2, Hrow.
      * unfold setCell. rewrite Hrow.
        apply (concat_insert_uniform ncols); assumption.
      * right. rewrite Hrandom, Hletter.
        repeat split; [exact Hkpos | exact Hlt' | lia].
    + apply (visited_next random nrows ncols _ m _ i _ k _ None);
        [exact Hpos | exact Hv | exact Hl | exact Hrows | exact Hsame |].
      right. rewrite Hrandom.
      repeat split; [exact Hkpos | exact Hlt' | lia].
  - apply lookup_ge_None in Hletter.
    apply (visited_next random nrows ncols _ m _ i _ k _ None);
      [exact Hpos | exact Hv | exact Hl | exact Hrows | exact Hsame |].
    left. repeat split. lia.
Qed.

Lemma patternLoops_visited random nrows ncols :
  visited random nrows ncols (nrows * ncols) (patternLoops random nrows ncols).
Proof.
  unfold patternLoops.
  apply (forLoop_invariant
           (fun r s => visited random nrows ncols (r * ncols) s)
           _ nrows 0).
  - unfold visited. cbn [matrix idx calls Nat.mul seq fmap list_fmap app omap].
    split; [apply length_replicate|].
    split; [apply Forall_replicate, length_replicate|].
    split; [lia|]. split; [reflexivity|].
    split; [lia|]. split; [left; reflexivity|].
    split; [intros d Hd; lia|].
    rewrite Nat.sub_0_r, take_0.
    split; [apply concat_replicate | reflexivity].
  - intros r s Hr Hv.
    replace (S r * ncols) with (r * ncols + ncols) by lia.
    apply (forLoop_invariant
             (fun c s => visited random nrows ncols (r * ncols + c) s)
             _ ncols 0).
    + rewrite Nat.add_0_r. exact Hv.
    + intros c s' Hc Hv'.
      replace (r * ncols + S c) with (S (r * ncols + c)) by lia.
      apply patternCell_visited; [lia | lia | exact Hv'].
Qed.

(** Whatever [Math.random()] returns, [generatePatternMatrix()] yields a
    matrix of [rows] rows of [cols] cells, stores it as the weave's
    pattern and changes nothing else.  It calls [Math.random()] once per
    cell, row by row, until twenty calls have come out below the
    threshold or the cells are used up; [draws] is the number of calls
    the run has made.  A cell holds a letter exactly when its call was
    made and came out below the threshold, and the letter is then the
    next one of WEAVING WHAT MATTERS; so the letters of the matrix, read
    row by row, are the first characters of the tagline, as many as
    calls came out below the threshold. *)
Theorem generatePatternMatrix_spells_a_prefix_of_the_tagline
    (w : Weave) (random : nat -> bool) :
  exists m draws,
    generatePatternMatrix w random = (set_pattern m w, m, draws) /\
    length m = rows w /\
    Forall (fun row => length row = cols w) m /\
    (forall r c, r < rows w -> c < cols w ->
       m !! r ≫= (.!! c) = Some (patternAt random draws (r * cols w + c))) /\
    letters m = take (successes random draws) tagline /\
    draws <= rows w * cols w /\
    (draws = rows w * cols w \/ successes random draws = length tagline) /\
    (forall d, d < draws -> successes random d < length tagline).
Proof.
  pose proof (patternLoops_visited random (rows w) (cols w))
    as (Hl & Hrows & Hcalls & Hi & Hle & Hor & Hlt & Hcat & Hom).
  exists (matrix (patternLoops random (rows w) (cols w))),
         (calls (patternLoops random (rows w) (cols w))).
  rewrite Nat.sub_diag in Hcat. cbn [replicate] in Hcat.
  rewrite app_nil_r in Hcat.
  split; [reflexivity|].
  split; [exact Hl|]. split; [exact Hrows|].
  split.
  { intros r c Hr Hc.
    rewrite <- (lookup_concat_uniform (cols w)) by assumption.
    rewrite Hcat, list_lookup_fmap, lookup_seq_lt by nia. reflexivity. }
  split; [unfold letters; rewrite Hcat, <- Hi; exact Hom|].
  split; [exact Hcalls|].
  split; [rewrite <- Hi; exact Hor | exact Hlt].
Qed.

End PatternMatrix.

(** ** Nothing rewrites a lineage *)

Section AppendOnlyStore.

Import FiberJs WeaveJs.

Implicit Types (st : Store) (o : Object) (w : Weave).

Lemma laterOf_refl o : laterOf o o.
Proof. repeat split; reflexivity. Qed.

Lemma laterOf_trans o1 o2 o3 : laterOf o1 o2 -> laterOf o2 o3 -> laterOf o1 o3.
Proof.
  intros (Hi & Hp & Hh & Hm) (Hi' & Hp' & Hh' & Hm').
  split; [congruence|]. split; [congruence|].
  split; etrans; eassumption.
Qed.

Lemma grows_refl st : grows st st.
Proof. intros r o H. exists o. split; [exact H | apply laterOf_refl]. Qed.

Lemma grows_trans st1 st2 st3 : grows st1 st2 -> grows st2 st3 -> grows st1 st3.
Proof.
  intros H12 H23 r o H. destruct (H12 r o H) as (o2 & H2 & Hl2).
  destruct (H23 r o2 H2) as (o3 & H3 & Hl3).
  exists o3. split; [exact H3 | eapply laterOf_trans; eassumption].
Qed.

Lemma laterOf_effect (c : Call) o : laterOf o (effect c o).
Proof.
  destruct c; repeat split; simpl;
    try reflexivity; apply prefix_app_r; reflexivity.
Qed.

Lemma lineageOk_effect (c : Call) o : lineageOk o -> lineageOk (effect c o).
Proof.
  intros [(k & rest & Hh & Hrest) Htag].
  split; [|apply tagIsLastLabel_effect, Htag].
  rewrite history_effect, Hh. eexists k, _. split; [reflexivity|].
  apply Forall_app. split; [exact Hrest|].
  destruct c; repeat constructor. eexists; reflexivity.
Qed.

Lemma lineageOk_initial (C : Class) (id : string) (colorStart : option string) :
  lineageOk (initial C id colorStart).
Proof. split; [eexists _, []; split; [reflexivity | constructor] | reflexivity]. Qed.

Lemma keepsLineage_ret {A} (a : A) : keepsLineage (mret a : M A).
Proof. intros st a' st' [= _ <-]. split; [apply grows_refl | auto]. Qed.

Lemma keepsLineage_fail {A} : keepsLineage (@fail A).
Proof. intros st a st' H. discriminate H. Qed.

Lemma keepsLineage_bind {A B} (m : M A) (k : A -> M B) :
  keepsLineage m -> (forall a, keepsLineage (k a)) -> keepsLineage (m ≫= k).
Proof.
  intros Hm Hk st b st'. unfold mbind, M_bind, bind.
  destruct (m st) as [[a st1]|] eqn:E; [|discriminate].
  intros Hrun. destruct (Hm st a st1 E) as [Hg Hok].
  destruct (Hk a st1 b st' Hrun) as [Hg' Hok'].
  split; [eapply grows_trans; eassumption | auto].
Qed.

Lemma grows_insert st r o' :
  (forall o, st !! r = Some o -> laterOf o o') -> grows st (<[r := o']> st).
Proof.
  intros Hlater x o Hx. destruct (decide (x = r)) as [->|Hne].
  - exists o'. split; [apply lookup_insert_eq | apply Hlater, Hx].
  - exists o. rewrite lookup_insert_ne by congruence.
    split; [exact Hx | apply laterOf_refl].
Qed.

Lemma storeOk_insert st r o' :
  lineageOk o' -> storeOk st -> storeOk (<[r := o']> st).
Proof.
  intros Hok Hst x o Hx. destruct (decide (x = r)) as [->|Hne].
  - rewrite lookup_insert_eq in Hx. injection Hx as <-. exact Hok.
  - rewrite lookup_insert_ne in Hx by congruence. eapply Hst, Hx.
Qed.

Lemma keepsLineage_new (C : Class) (id : string) (colorStart : option string) :
  keepsLineage (new C id colorStart).
Proof.
  intros st a st'. rewrite new_run. intros [= _ <-]. split.
  - apply grows_insert. intros o Ho.
    rewrite fresh_unallocated in Ho. discriminate Ho.
  - apply storeOk_insert, lineageOk_initial.
Qed.

Lemma keepsLineage_invoke (this : ref) (c : Call) : keepsLineage (invoke this c).
Proof.
  intros st a st' Hrun.
  destruct (st !! this) as [o|] eqn:Ho.
  - rewrite (invoke_run st this o c Ho) in Hrun. injection Hrun as _ <-.
    split.
    + apply grows_insert. intros o1 Ho1.
      replace o1 with o by congruence. apply laterOf_effect.
    + intros Hst. apply storeOk_insert; [|exact Hst].
      apply lineageOk_effect. eapply Hst, Ho.
  - unfold invoke, mbind, M_bind, bind, get in Hrun. rewrite Ho in Hrun.
    discriminate Hrun.
Qed.

Lemma keepsLineage_callTransform (this : ref) (type color : string) :
  keepsLineage (callTransform this type color).
Proof.
  apply keepsLineage_bind; [apply keepsLineage_invoke|].
  intros [r|s]; [apply keepsLineage_ret | apply keepsLineage_fail].
Qed.

Lemma keepsLineage_mapM {A B} (f : A -> M B) (l : list A) :
  (forall x, keepsLineage (f x)) -> keepsLineage (Array_mapM f l).
Proof.
  intros Hf. induction l as [|x l IH]; [apply keepsLineage_ret|].
  cbn [Array_mapM]. apply keepsLineage_bind; [apply Hf|]. intros y.
  apply keepsLineage_bind; [exact IH|]. intros ys. apply keepsLineage_ret.
Qed.

Lemma keepsLineage_runOp (op : Op) w : keepsLineage (runOp op w).
Proof.
  destruct op as [C id cs | this c | fiber | fiber slot | fibers]; cbn [runOp].
  - apply keepsLineage_bind; [apply keepsLineage_new|].
    intros r. apply keepsLineage_ret.
  - apply keepsLineage_bind; [apply keepsLineage_invoke|].
    intros r. apply keepsLineage_ret.
  - apply keepsLineage_bind; [|intros r; apply keepsLineage_ret].
    apply keepsLineage_bind; [apply keepsLineage_callTransform|].
    intros r. apply keepsLineage_ret.
  - apply keepsLineage_bind; [apply keepsLineage_callTransform|].
    intros r. apply keepsLineage_ret.
  - apply keepsLineage_bind; [|intros r; apply keepsLineage_ret].
    apply keepsLineage_mapM. intros x. apply keepsLineage_callTransform.
Qed.

(** Whatever a client does with the Fiber classes, the spinner and the
    weave, in whatever order, a Fiber once created stays in the store
    with its id and class, and its history and markers are only ever
    extended at the end; and if every lineage began with a start entry
    without context, continued with entries that carry one and had the
    colour of its last entry, this still holds afterwards. *)
Theorem lineages_are_append_only (ops : list Op) w st w' st' :
  runOps ops w st = Some (w', st') ->
  grows st st' /\ (storeOk st -> storeOk st').
Proof.
  revert w st. induction ops as [|op ops IH]; intros w st Hrun.
  - injection Hrun as _ <-. split; [apply grows_refl | auto].
  - cbn [runOps] in Hrun. unfold mbind, M_bind, bind in Hrun.
    destruct (runOp op w st) as [[w1 st1]|] eqn:E; [|discriminate Hrun].
    destruct (keepsLineage_runOp op w st w1 st1 E) as [Hg Hok].
    destruct (IH w1 st1 Hrun) as [Hg' Hok'].
    split; [eapply grows_trans; eassumption | auto].
Qed.

Lemma runOp_total (op : Op) w st :
  Forall (fun r => is_Some (st !! r)) (refsOf op) ->
  exists w' st', runOp op w st = Some (w', st').
Proof.
  destruct op as [C id cs | this c | fiber | fiber slot | fibers];
    cbn [runOp refsOf]; intros Hall; unfold mbind, M_bind, bind.
  - rewrite new_run. eauto.
  - apply Forall_cons in Hall as [[o Ho] _].
    rewrite (invoke_run st this o c Ho). eauto.
  - apply Forall_cons in Hall as [[o Ho] _].
    unfold spin, mbind, M_bind, bind.
    rewrite (callTransform_run st fiber o) by exact Ho. eauto.
  - apply Forall_cons in Hall as [[o Ho] _].
    unfold addWarpFiber, mbind, M_bind, bind.
    rewrite (callTransform_run st fiber o) by exact Ho. eauto.
  - unfold addWeftPass, mbind, M_bind, bind.
    rewrite Array_mapM_callTransform_run by exact Hall. eauto.
Qed.

(** Operations on Fibers that exist when the script starts never fail. *)
Lemma runOps_total (ops : list Op) w st :
  Forall (fun op => Forall (fun r => is_Some (st !! r)) (refsOf op)) ops ->
  exists w' st', runOps ops w st = Some (w', st').
Proof.
  revert w st. induction ops as [|op ops IH]; intros w st Hall.
  - eexists _, _. reflexivity.
  - apply Forall_cons in Hall as [Hop Hall].
    destruct (runOp_total op w st Hop) as (w1 & st1 & E).
    destruct (keepsLineage_runOp op w st w1 st1 E) as [Hg _].
    destruct (IH w1 st1) as (w' & st' & Hrun).
    { eapply Forall_impl; [exact Hall|]. intros op' Hop'.
      eapply Forall_impl; [exact Hop'|]. intros r [o Ho].
      destruct (Hg r o Ho) as (o' & Ho' & _). eauto. }
    exists w', st'. cbn [runOps]. unfold mbind, M_bind, bind.
    rewrite E. exact Hrun.
Qed.

End AppendOnlyStore.

(** ** The fibers of the main script and the export button *)

Section ExportButton.

Import FiberJs WeaveJs.

Implicit Types (st : Store) (o : Object).

Lemma exportAll_run (fibers : list ref) st :
  Forall (fun r => is_Some (st !! r)) fibers ->
  exists texts,
    exportAll fibers st = Some (texts, st) /\
    length texts = length fibers /\
    forall i r o, fibers !! i = Some r -> st !! r = Some o ->
      texts !! i = Some (Json.stringify (lineageValue o) 2).
Proof.
  induction 1 as [|r fibers [o Ho] _ (texts & Hrun & Hlen & Htexts)].
  - exists []. split; [reflexivity|]. split; [reflexivity|].
    intros i r o Hi. discriminate Hi.
  - exists (Json.stringify (lineageValue o) 2 :: texts).
    split; [|split].
    + unfold exportAll in *. cbn [Array_mapM]. unfold mbind, M_bind, bind.
      rewrite (exportLineage_run st r o Ho), Hrun. reflexivity.
    + simpl. rewrite Hlen. reflexivity.
    + intros [|i] r' o' Hi Ho'.
      * injection Hi as <-. replace o' with o by congruence. reflexivity.
      * apply (Htexts i r' o' Hi Ho').
Qed.

(** The main script creates ten distinct new Fibers [f0] .. [f9], each
    gold with the single start entry, and changes no other object; the
    export button then yields ten texts, the [i]-th being the lineage of
    [f<i>], and leaves the store as it is. *)
Theorem main_fibers_are_ten_gold_fibers_and_export_in_order st :
  exists fibers st' texts,
    main_fibers st = Some (fibers, st') /\
    length fibers = 10 /\
    NoDup fibers /\
    exportAll fibers st' = Some (texts, st') /\
    length texts = 10 /\
    (forall i x, fibers !! i = Some x ->
       st !! x = None /\
       st' !! x = Some (plainFiberOf i) /\
       texts !! i = Some (Json.stringify (lineageValue (plainFiberOf i)) 2)) /\
    (forall x, x ∉ fibers -> st' !! x = st !! x).
Proof.
  destruct (alloc_loop Fiber (fun i => "f" +:+ pretty i) None 10 st)
    as (fibers & st' & Hrun & Hlen & Hnd & Hobj & Hframe).
  destruct (exportAll_run fibers st') as (texts & Hexp & Hlen' & Htexts).
  { apply Forall_forall. intros x Hx.
    apply list_elem_of_lookup in Hx as [i Hi].
    apply Hobj in Hi as [_ Hi]. eauto. }
  exists fibers, st', texts.
  split; [exact Hrun|]. split; [exact Hlen|]. split; [exact Hnd|].
  split; [exact Hexp|]. split; [congruence|]. split; [|exact Hframe].
  intros i x Hi. destruct (Hobj i x Hi) as [H0 H1].
  split; [exact H0|]. split; [exact H1|].
  apply (Htexts i x _ Hi H1).
Qed.

End ExportButton.

(** ** The transcription stub looks at the size only *)

Lemma fakeTranscription_inj (n m : N) :
  Whisper.fakeTranscription n = Whisper.fakeTranscription m -> n = m.
Proof. apply resultFor_inj. Qed.

(** What [transcribeRawAudio] returns depends on the number of bytes and
    on nothing else: two calls fulfil with the same result exactly when
    their buffers have the same length, whatever the bytes and whichever
    of the three formats is named; and the byte count can be read back
    from the result. *)
Theorem transcribeRawAudio_depends_on_the_size_only
    (buffer buffer' : Whisper.Buffer) (format format' : Whisper.AudioFormat) :
  Whisper.transcribeRawAudio buffer format
    = Whisper.transcribeRawAudio buffer' format'
  <-> length buffer = length buffer'.
Proof.
  unfold Whisper.transcribeRawAudio. rewrite !format_length.
  change (N.of_nat 3) with 3%N. split.
  - intros H.
    assert (H' : Whisper.fakeTranscription (Whisper.byteLength buffer + 3)
                 = Whisper.fakeTranscription (Whisper.byteLength buffer' + 3))
      by congruence.
    apply fakeTranscription_inj in H'. unfold Whisper.byteLength in H'. lia.
  - intros H. unfold Whisper.byteLength. rewrite H. reflexivity.
Qed.

(** ** The record button *)

Section RecordButton.

Import Intake.

Variable message : Whisper.IoError -> string.

Lemma handleClick_run (s : ZorosState) :
  handleClick message s
  = {| isRecording := negb (isRecording s);
       transcriptionMode := transcriptionMode s;
       currentText := currentText s;
       droppedFiles := droppedFiles s;
       transcription := if isRecording s then stubTranscription
                        else transcription s |}.
Proof. destruct s as [[] m t d tr]; [vm_compute | ]; reflexivity. Qed.

Lemma stopRecording_pending (s : ZorosState) :
  transcription (fst (stopRecording message s))
  = {| text := text (transcription s);
       confidence := confidence (transcription s);
       timestamps := timestamps (transcription s);
       status := s_pending;
       error := None |}.
Proof. reflexivity. Qed.

(** However the record button is clicked, the recording flag follows the
    parity of the clicks, the mode, the text and the dropped files are
    left alone, and from the second click on the store holds a fulfilled
    transcription, [transcribed 3 bytes] with confidence 1, without an
    error: a click that stops a recording always ends fulfilled, never
    in the error state. *)
Theorem record_button_always_ends_fulfilled (s : ZorosState) (n : nat) :
  2 <= n ->
  isRecording (Nat.iter n (handleClick message) s)
    = (if Nat.even n then isRecording s else negb (isRecording s)) /\
  transcription (Nat.iter n (handleClick message) s) = stubTranscription /\
  (transcriptionMode (Nat.iter n (handleClick message) s),
   currentText (Nat.iter n (handleClick message) s),
   droppedFiles (Nat.iter n (handleClick message) s))
    = (transcriptionMode s, currentText s, droppedFiles s).
Proof.
  intros Hn. induction Hn as [|n Hn (Hrec & Htr & Hrest)].
  - cbn [Nat.iter nat_rect Nat.even]. rewrite !handleClick_run.
    cbn [isRecording transcription transcriptionMode currentText droppedFiles].
    rewrite negb_involutive. destruct (isRecording s); repeat split.
  - rewrite Nat.iter_succ, handleClick_run.
    cbn [isRecording transcription transcriptionMode currentText droppedFiles].
    rewrite Hrec, Htr, Nat.even_succ, <- Nat.negb_even.
    split; [destruct (Nat.even n); rewrite ?negb_involutive; reflexivity|].
    split; [destruct (Nat.even n), (isRecording s); reflexivity | exact Hrest].
Qed.

End RecordButton.

Lemma record_button_always_ends_fulfilled_witness :
  Intake.isRecording
    (Nat.iter 3 (Intake.handleClick (fun _ => "no such file")) Intake.initialState)
    = true /\
  Intake.transcription
    (Nat.iter 3 (Intake.handleClick (fun _ => "no such file")) Intake.initialState)
    = stubTranscription.
Proof.
  destruct (record_button_always_ends_fulfilled
              (fun _ => "no such file") Intake.initialState 3 ltac:(lia))
    as (H1 & H2 & _).
  split; [exact H1 | exact H2].
Defined.

(** ** The properties at work *)

Lemma refining_the_query_narrows_the_result_witness :
  exists r r',
    Viewer.filterFibers JsString.asciiLower cards "O" = Normal r /\
    Viewer.filterFibers JsString.asciiLower cards "ot" = Normal r' /\
    Viewer.filterFibers JsString.asciiLower r "ot" = Normal r' /\
    r' `sublist_of` r.
Proof.
  apply (refining_the_query_narrows_the_result
           JsString.asciiLower asciiLower_laws cards "O" "ot").
  - repeat constructor; eexists; reflexivity.
  - exists "", "t". reflexivity.
Defined.

Lemma filterFibers_commutes_and_is_idempotent_witness :
  exists r1 r2 r12,
    Viewer.filterFibers JsString.asciiLower cards "o" = Normal r1 /\
    Viewer.filterFibers JsString.asciiLower cards "FOO" = Normal r2 /\
    Viewer.filterFibers JsString.asciiLower r1 "FOO" = Normal r12 /\
    Viewer.filterFibers JsString.asciiLower r2 "o" = Normal r12 /\
    Viewer.filterFibers JsString.asciiLower r1 "o" = Normal r1 /\
    (forall f, f ∈ r12 <->
       f ∈ cards /\ matchesQuery JsString.asciiLower "o" f
       /\ matchesQuery JsString.asciiLower "FOO" f).
Proof.
  apply (filterFibers_commutes_and_is_idempotent
           JsString.asciiLower asciiLower_laws cards "o" "FOO").
  repeat constructor; eexists; reflexivity.
Defined.

Lemma onDrop_moves_the_dragged_card_witness :
  ViewerDrop.fibers (fst (ViewerDrop.onDrop 2 dragging))
    ≡ₚ ViewerDrop.fibers dragging /\
  length (ViewerDrop.fibers (fst (ViewerDrop.onDrop 2 dragging)))
    = length (ViewerDrop.fibers dragging) /\
  ViewerDrop.fibers (fst (ViewerDrop.onDrop 2 dragging)) !! 2 = Some (Some helloWorld) /\
  delete 2 (ViewerDrop.fibers (fst (ViewerDrop.onDrop 2 dragging)))
    = delete 0 (ViewerDrop.fibers dragging) /\
  ViewerDrop.dragIndex (fst (ViewerDrop.onDrop 2 dragging)) = None /\
  ViewerDrop.selectedThread (fst (ViewerDrop.onDrop 2 dragging))
    = ViewerDrop.selectedThread dragging.
Proof.
  apply (onDrop_moves_the_dragged_card dragging 0 2 (Some helloWorld)).
  - reflexivity.
  - lia.
  - reflexivity.
  - simpl. lia.
Defined.

Lemma dragging_back_restores_the_order_witness :
  ViewerDrop.fibers
    (fst (ViewerDrop.onDrop 0
            (ViewerDrop.onDragStart 2 (fst (ViewerDrop.onDrop 2 dragging)))))
  = ViewerDrop.fibers dragging.
Proof.
  apply (dragging_back_restores_the_order dragging 0 2 (Some helloWorld)).
  - reflexivity.
  - lia.
  - reflexivity.
  - simpl. lia.
Defined.

Lemma onDrop_with_a_stale_index_inserts_undefined_witness :
  ViewerDrop.fibers (fst (ViewerDrop.onDrop 1 stale))
    = [Some helloWorld; None; Some anotherNote] /\
  length (ViewerDrop.fibers (fst (ViewerDrop.onDrop 1 stale))) = 3 /\
  snd (ViewerDrop.onDrop 1 stale) = Throw TypeError.
Proof.
  destruct (onDrop_with_a_stale_index_inserts_undefined stale 5 1)
    as (H1 & H2 & H3).
  - reflexivity.
  - lia.
  - simpl. lia.
  - split; [exact H1|]. split; [exact H2|]. apply H3. reflexivity.
Defined.

Lemma onDrop_sends_the_new_order_witness :
  exists l',
    ViewerDrop.fibers (fst (ViewerDrop.onDrop 2 dragging)) = Some <$> l' /\
    l' ≡ₚ cards /\
    Viewer.id <$> l' ≡ₚ Viewer.id <$> cards /\
    snd (ViewerDrop.onDrop 2 dragging)
      = Normal (Some {| ViewerDrop.url := "/api/threads/" +:+ "thread-a" +:+ "/reorder";
                        ViewerDrop.order := Viewer.id <$> l' |}).
Proof.
  apply (onDrop_sends_the_new_order dragging 0 2 cards helloWorld "thread-a").
  - reflexivity.
  - lia.
  - reflexivity.
  - reflexivity.
  - simpl. lia.
  - reflexivity.
  - discriminate.
Defined.

Lemma reordering_keeps_the_matching_cards_witness :
  exists l' r r',
    ViewerDrop.fibers (fst (ViewerDrop.onDrop 2 dragging)) = Some <$> l' /\
    Viewer.filterFibers JsString.asciiLower cards "hello" = Normal r /\
    Viewer.filterFibers JsString.asciiLower l' "hello" = Normal r' /\
    r' ≡ₚ r.
Proof.
  apply (reordering_keeps_the_matching_cards
           JsString.asciiLower asciiLower_laws dragging 0 2 cards helloWorld "hello").
  - reflexivity.
  - lia.
  - reflexivity.
  - reflexivity.
  - simpl. lia.
  - repeat constructor; eexists; reflexivity.
Defined.

Lemma addWarpFiber_fills_the_slot_witness :
  exists w' o',
    WeaveJs.addWarpFiber (WeaveJs.Weave_new None None None) 1%positive 2 oneFiber
      = Some (w', <[1%positive := o']> oneFiber) /\
    WeaveJs.Array_get (WeaveJs.warp w') 2 = Some 1%positive /\
    length (WeaveJs.warp w') = 3 /\
    FiberJs.history o' = FiberJs.history f0 ++ [entryOf "warp" "springgreen"].
Proof.
  destruct (addWarpFiber_fills_the_slot oneFiber
              (WeaveJs.Weave_new None None None) 1%positive f0 2)
    as (w' & o' & H1 & H2 & _ & H4 & _ & H6 & _); [reflexivity|].
  exists w', o'. split; [exact H1|]. split; [exact H2|].
  split; [exact H4 | exact H6].
Defined.

Lemma addWeftPass_transforms_once_per_position_witness :
  exists st',
    WeaveJs.addWeftPass (WeaveJs.Weave_new None None None)
      [1%positive; 1%positive] oneFiber
      = Some (WeaveJs.push_weftPass [1%positive; 1%positive]
                (WeaveJs.Weave_new None None None), st') /\
    exists o',
      st' !! 1%positive = Some o' /\
      FiberJs.history o'
        = FiberJs.history f0 ++ replicate 2 (entryOf "weft" "darkgreen").
Proof.
  destruct (addWeftPass_transforms_once_per_position oneFiber
              (WeaveJs.Weave_new None None None) [1%positive; 1%positive])
    as (st' & H1 & _ & _ & H4).
  - repeat constructor; eexists; reflexivity.
  - exists st'. split; [exact H1|].
    destruct (H4 1%positive f0 eq_refl) as (o' & Ho' & Hh & _).
    exists o'. split; [exact Ho' | exact Hh].
Defined.

Lemma lineages_are_append_only_witness :
  exists w' st',
    runOps demoOps (WeaveJs.Weave_new None None None) oneFiber = Some (w', st') /\
    grows oneFiber st' /\
    (storeOk oneFiber -> storeOk st').
Proof.
  eexists _, _. split; [vm_compute; reflexivity|].
  eapply (lineages_are_append_only demoOps
            (WeaveJs.Weave_new None None None) oneFiber).
  vm_compute. reflexivity.
Defined.

(** ** Worked examples *)

Example includes_examples :
  JsString.includes "hello world" "lo w" = true /\
  JsString.includes "hello world" "low" = false /\
  JsString.includes "" "" = true /\
  JsString.indexOf "another note" "not" = Some 1 /\
  JsString.indexOf "another note" "note" = Some 8 /\
  JsString.indexOf "abc" "abcd" = None.
Proof. repeat split; vm_compute; reflexivity. Qed.

Example filterFibers_throws_without_content :
  Viewer.filterFibers JsString.asciiLower
    [helloWorld;
     {| Viewer.id := "3"; Viewer.content := None; Viewer.tags := Some "x";
        Viewer.created_at := ""; Viewer.source := "" |}] "hello"
  = Throw TypeError.
Proof. reflexivity. Qed.

Example stringify_examples :
  Json.stringify (Json.Arr []) 2 = "[]" /\
  Json.stringify (Json.Obj []) 2 = "{}" /\
  Json.stringify
    (Json.Arr [Json.Num (Json.Integer 1 I); Json.Null; Json.Bool true;
               Json.Num (Json.Integer (-20) I)]) 2
  = "[
  1,
  null,
  true,
  -20
]" /\
  Json.stringify
    (Json.Arr [Json.Num (Json.Integer 1 I); Json.Arr [Json.Null]]) 0
  = "[1,[null]]" /\
  Json.stringify
    (Json.Arr [Json.Num Json.NaN; Json.Num Json.NegInfinity;
               Json.Num Json.NegZero;
               Json.Num (Json.Integer Json.MAX_SAFE_INTEGER I)]) 0
  = "[null,null,0,9007199254740991]".
Proof. repeat split; vm_compute; reflexivity. Qed.

(** JSON has no NaN: a context that is NaN is exported as [null], so the
    text of a Fiber transformed with it is the text of one transformed
    without a context. *)
Example export_writes_null_for_NaN :
  Json.stringify
    (FiberJs.lineageValue
       (effect (FiberJs.CallTransform "spin" "lightgreen"
                  (Some (Json.Num Json.NaN))) f0)) 2
  = Json.stringify
      (FiberJs.lineageValue
         (effect (FiberJs.CallTransform "spin" "lightgreen" None) f0)) 2.
Proof. reflexivity. Qed.

Example script_example :
  FiberJs.script FiberJs.WeftFiber "p0-0" None
    [FiberJs.CallTransform "weft" "darkgreen" None;
     FiberJs.CallAddMarker "violet";
     FiberJs.CallAddMarker "violet"] ∅
  = Some ((1%positive, [FiberJs.RRef 1%positive; FiberJs.RRef 1%positive;
                        FiberJs.RRef 1%positive]),
          {[ 1%positive :=
               {| FiberJs.proto := FiberJs.WeftFiber;
                  FiberJs.id := "p0-0";
                  FiberJs.color := "darkgreen";
                  FiberJs.history :=
                    [FiberJs.Entry.Build "start" "gold" None;
                     FiberJs.Entry.Build "weft" "darkgreen" (Some Json.Null)];
                  FiberJs.markers := ["violet"; "violet"] |} ]}).
Proof. reflexivity. Qed.

Example split_examples :
  FiberCard.split FiberCard.isSeparator "tag1 tag2" = ["tag1"; "tag2"] /\
  FiberCard.split FiberCard.isSeparator ",a, ,b," = [""; "a"; "b"; ""] /\
  FiberCard.split FiberCard.isSeparator "" = [""] /\
  FiberCard.tags (withTags (Some " x,,y  z ") helloWorld) = Normal ["x"; "y"; "z"].
Proof. repeat split; vm_compute; reflexivity. Qed.

(** The positions a drop works with are those of the whole list.  With
    the query [hello] the cards shown are the first and the third;
    dragging the second card shown onto the first moves the card at
    index 1 of the whole list, the hidden [anotherNote], to the front. *)
Example drop_uses_positions_of_the_whole_list :
  Viewer.filterFibers JsString.asciiLower cards "hello"
    = Normal [helloWorld; withTags None helloWorld] /\
  ViewerDrop.fibers
    (fst (ViewerDrop.onDrop 0
            (ViewerDrop.onDragStart 1
               {| ViewerDrop.fibers := Some <$> cards;
                  ViewerDrop.dragIndex := None;
                  ViewerDrop.selectedThread := None |})))
  = [Some anotherNote; Some helloWorld; Some (withTags None helloWorld)].
Proof. split; reflexivity. Qed.

(** With every second call below the threshold, a weave of two rows of
    three cells gets three letters from six calls; with every call below
    it, a weave of three rows of ten cells takes twenty calls and leaves
    its last row empty. *)
Example pattern_example :
  (let '(_, m, draws) :=
     WeaveJs.generatePatternMatrix
       (WeaveJs.Weave_new (Some 3) (Some 2) None) Nat.even in
   (m, draws))
  = ([[Some "W"%char; None; Some "E"%char]; [None; Some "A"%char; None]], 6) /\
  (let '(_, m, draws) :=
     WeaveJs.generatePatternMatrix
       (WeaveJs.Weave_new (Some 10) (Some 3) None) (fun _ => true) in
   (letters m, m !! 2, draws))
  = (WeaveJs.tagline, Some (replicate 10 None), 20).
Proof. split; reflexivity. Qed.
